(** * cmonster: the programmable-macro bridge of [core/preprocessor.cpp]

    A shallow embedding of [src/cmonster/core/preprocessor.cpp].  The file
    is glue code on top of clang's preprocessor: what the repository
    decides (which engine operation is called, in which order, on which
    data, and what is returned or thrown) is embedded as executable
    definitions; what clang decides (how characters become tokens, how
    macros expand, how a location resolves) is an explicit interface,
    [LexingEngine], over which the theorems are universally quantified.
    [with_cache] is the family of engines that peek with clang's token
    cache. *)

From Stdlib Require Import ZArith String Ascii List Bool Lia DecimalString.
From stdpp Require Import base gmap strings list.

Local Open Scope Z_scope.

(** ** Machine integers *)

(** [unsigned int] and [size_t] values are integers of [Z]; the places
    where the source can wrap are written with [wrap32] and [wrap64]. *)
Definition wrap32 (z : Z) : Z := z mod 2 ^ 32.
Definition wrap64 (z : Z) : Z := z mod 2 ^ 64.

(** ** std::string *)

Module str.

Definition size (s : string) : Z := Z.of_nat (String.length s).

Definition empty (s : string) : bool := size s =? 0.

(** [s[i]]; the terminating NUL at [i = size s]. *)
Definition at_ (s : string) (i : Z) : ascii :=
  match String.get (Z.to_nat i) s with
  | Some c => c
  | None => Ascii.zero
  end.

(** [s.find(c, pos)]; [None] is [npos]. *)
Fixpoint find_from (c : ascii) (s : string) (i : nat) : option nat :=
  match s with
  | EmptyString => None
  | String d s' => if Ascii.eqb d c then Some i else find_from c s' (S i)
  end.

Fixpoint drop (n : nat) (s : string) : string :=
  match n, s with
  | O, _ => s
  | S n', EmptyString => EmptyString
  | S n', String _ s' => drop n' s'
  end.

Definition find (s : string) (c : ascii) (pos : Z) : option Z :=
  option_map Z.of_nat (find_from c (drop (Z.to_nat pos) s) (Z.to_nat pos)).

(** [s.substr(pos, n)] for [pos <= size s]. *)
Definition substr (s : string) (pos n : Z) : string :=
  String.substring (Z.to_nat pos) (Z.to_nat n) s.

(** [std::string(n, c)]. *)
Fixpoint fill (n : nat) (c : ascii) : string :=
  match n with
  | O => EmptyString
  | S n' => String c (fill n' c)
  end.

(** [ss << n] for an unsigned [n]. *)
Definition of_size_t (n : Z) : string :=
  NilZero.string_of_uint (N.to_uint (Z.to_N n)).

End str.

Definition quote : ascii := ascii_of_nat 34.
Definition newline : ascii := ascii_of_nat 10.
Definition space : ascii := ascii_of_nat 32.

(** ** const char * *)

(** A non-null [const char *] is the memory it points into: the character
    at each offset.  The null pointer is [None] where a pointer is
    passed. *)
Definition char_ptr : Type := Z -> ascii.

(** [s.c_str()]: the characters of [s], then the terminating NUL. *)
Definition c_str (s : string) : char_ptr := str.at_ s.

(** [llvm::StringRef(s, len)]: the [len] characters from [s] on, whatever
    they are; no terminator is looked for. *)
Definition StringRef (s : char_ptr) (len : Z) : string :=
  string_of_list_ascii (map (fun i => s (Z.of_nat i)) (seq 0 (Z.to_nat len))).

(** ** Outcomes of a call *)

Inductive exception : Type :=
| runtime_error (what : string)
| invalid_argument (what : string)
| other_exception (what : string).

(** A call returns, throws, or is still running when the fuel of a loop
    over the engine is spent. *)
Inductive outcome (A : Type) : Type :=
| Return (a : A)
| Throw (e : exception)
| OutOfFuel.
Arguments Return {A} a.
Arguments Throw {A} e.
Arguments OutOfFuel {A}.

(** ** Tokens *)

Module tok.
Inductive TokenKind : Type :=
| unknown | eof | eod | identifier | numeric_constant | string_literal
| l_paren | r_paren | comma | ellipsis | hash | punctuator.

#[global] Instance TokenKind_eq_dec : EqDecision TokenKind.
Proof. solve_decision. Defined.
End tok.

(** [clang::SourceLocation]: an opaque encoding; [0] is the invalid
    location built by [SourceLocation()]. *)
Record SourceLocation : Type := { getRawEncoding : Z }.
Definition SourceLocation_new : SourceLocation := {| getRawEncoding := 0 |}.
Definition getFileLocWithOffset (l : SourceLocation) (off : Z) : SourceLocation :=
  {| getRawEncoding := getRawEncoding l + off |}.

#[global] Instance SourceLocation_eq_dec : EqDecision SourceLocation.
Proof. solve_decision. Defined.

(** Identifiers are interned by name: two [IdentifierInfo*] of one table
    are equal exactly when the names are. *)
Abbreviation IdentifierInfo := string (only parsing).

Module Flag.
Definition StartOfLine : Z := 1.
Definition LeadingSpace : Z := 2.
Definition DisableExpand : Z := 4.
Definition NeedsCleaning : Z := 8.
End Flag.

(** [clang::Token].  [Text] stands for the characters the token covers in
    its buffer, so that [getLength] is their number. *)
Record clang_Token : Type := {
  Kind : tok.TokenKind;
  Flags : Z;
  Loc : SourceLocation;
  Text : string;
  IdentInfo : option IdentifierInfo
}.

Definition startToken : clang_Token :=
  {| Kind := tok.unknown; Flags := 0; Loc := SourceLocation_new;
     Text := EmptyString; IdentInfo := None |}.

Definition setKind (t : clang_Token) (k : tok.TokenKind) : clang_Token :=
  {| Kind := k; Flags := Flags t; Loc := Loc t; Text := Text t;
     IdentInfo := IdentInfo t |}.

Definition setIdentifierInfo (t : clang_Token) (ii : IdentifierInfo) : clang_Token :=
  {| Kind := Kind t; Flags := Flags t; Loc := Loc t; Text := Text t;
     IdentInfo := Some ii |}.

Definition setFlag (t : clang_Token) (f : Z) : clang_Token :=
  {| Kind := Kind t; Flags := Z.lor (Flags t) f; Loc := Loc t; Text := Text t;
     IdentInfo := IdentInfo t |}.

Definition getLocation (t : clang_Token) : SourceLocation := Loc t.
Definition getLength (t : clang_Token) : Z := str.size (Text t).
Definition is_ (t : clang_Token) (k : tok.TokenKind) : bool := bool_decide (Kind t = k).
Definition isNot (t : clang_Token) (k : tok.TokenKind) : bool := negb (is_ t k).
Definition isAnyIdentifier (t : clang_Token) : bool := is_ t tok.identifier.
Definition hasLeadingSpace (t : clang_Token) : bool := Z.testbit (Flags t) 1.
Definition isAtStartOfLine (t : clang_Token) : bool := Z.testbit (Flags t) 0.

#[global] Instance clang_Token_eq_dec : EqDecision clang_Token.
Proof. solve_decision. Defined.

(** Modelled from the spec: [token.hpp] is not among the sources.  A
    [cmonster::core::Token] is "an immutable value wrapping a lexical
    token"; [getToken] gives the wrapped token back and writing a Token to
    a stream emits its spelling. *)
Record Token : Type := mkToken { getToken : clang_Token }.

Definition spelling (t : Token) : string := Text (getToken t).

#[global] Instance Token_eq_dec : EqDecision Token.
Proof. solve_decision. Defined.

(** ** Macros *)

(** [clang::MacroInfo]: the number of arguments is the length of
    [ArgumentList]; an entry of the argument vector that was never
    assigned is a null pointer, [None]. *)
Record MacroInfo : Type := {
  Location : SourceLocation;
  EndLocation : SourceLocation;
  ArgumentList : list (option IdentifierInfo);
  ReplacementTokens : list clang_Token;
  IsFunctionLike : bool;
  IsC99Varargs : bool;
  IsGNUVarargs : bool
}.

Definition AllocateMacroInfo (L : SourceLocation) : MacroInfo :=
  {| Location := L; EndLocation := SourceLocation_new; ArgumentList := [];
     ReplacementTokens := []; IsFunctionLike := false; IsC99Varargs := false;
     IsGNUVarargs := false |}.

Definition setIsFunctionLike (m : MacroInfo) : MacroInfo :=
  {| Location := Location m; EndLocation := EndLocation m;
     ArgumentList := ArgumentList m; ReplacementTokens := ReplacementTokens m;
     IsFunctionLike := true; IsC99Varargs := IsC99Varargs m;
     IsGNUVarargs := IsGNUVarargs m |}.

Definition setIsC99Varargs (m : MacroInfo) : MacroInfo :=
  {| Location := Location m; EndLocation := EndLocation m;
     ArgumentList := ArgumentList m; ReplacementTokens := ReplacementTokens m;
     IsFunctionLike := IsFunctionLike m; IsC99Varargs := true;
     IsGNUVarargs := IsGNUVarargs m |}.

Definition setArgumentList (m : MacroInfo) (l : list (option IdentifierInfo)) : MacroInfo :=
  {| Location := Location m; EndLocation := EndLocation m;
     ArgumentList := l; ReplacementTokens := ReplacementTokens m;
     IsFunctionLike := IsFunctionLike m; IsC99Varargs := IsC99Varargs m;
     IsGNUVarargs := IsGNUVarargs m |}.

Definition AddTokenToBody (m : MacroInfo) (t : clang_Token) : MacroInfo :=
  {| Location := Location m; EndLocation := EndLocation m;
     ArgumentList := ArgumentList m;
     ReplacementTokens := ReplacementTokens m ++ [t];
     IsFunctionLike := IsFunctionLike m; IsC99Varargs := IsC99Varargs m;
     IsGNUVarargs := IsGNUVarargs m |}.

Definition setDefinitionEndLoc (m : MacroInfo) (L : SourceLocation) : MacroInfo :=
  {| Location := Location m; EndLocation := L;
     ArgumentList := ArgumentList m; ReplacementTokens := ReplacementTokens m;
     IsFunctionLike := IsFunctionLike m; IsC99Varargs := IsC99Varargs m;
     IsGNUVarargs := IsGNUVarargs m |}.

Definition getDefinitionLoc (m : MacroInfo) : SourceLocation := Location m.
Definition getDefinitionEndLoc (m : MacroInfo) : SourceLocation := EndLocation m.

(** Modelled from the spec: [MacroInfo::isIdenticalTo] is the engine's.
    "Two macro definitions are identical iff: same function-like/variadic
    flags, same parameter name sequence, and the body token sequences are
    spelling-and-shape equivalent": two body tokens are equivalent when
    they have the same kind, the same identifier when either is one and
    the same spelling otherwise, and, except for the first token of the
    body, the same start-of-line and leading-space flags. *)
Definition same_token (first : bool) (A B : clang_Token) : bool :=
  bool_decide (Kind A = Kind B)
  && (first || (Bool.eqb (isAtStartOfLine A) (isAtStartOfLine B)
                && Bool.eqb (hasLeadingSpace A) (hasLeadingSpace B)))
  && match IdentInfo A, IdentInfo B with
     | None, None => String.eqb (Text A) (Text B)
     | a, b => bool_decide (a = b)
     end.

Fixpoint same_body (first : bool) (l1 l2 : list clang_Token) : bool :=
  match l1, l2 with
  | [], [] => true
  | A :: l1', B :: l2' => same_token first A B && same_body false l1' l2'
  | _, _ => false
  end.

Definition isIdenticalTo (M Other : MacroInfo) : bool :=
  Bool.eqb (IsFunctionLike M) (IsFunctionLike Other)
  && Bool.eqb (IsC99Varargs M) (IsC99Varargs Other)
  && Bool.eqb (IsGNUVarargs M) (IsGNUVarargs Other)
  && bool_decide (ArgumentList M = ArgumentList Other)
  && same_body true (ReplacementTokens M) (ReplacementTokens Other).

(** ** Pragma handlers *)

(** [cmonster::core::FunctionMacro]: the callback of a dynamic macro, from
    the argument tokens to the replacement tokens; it may throw. *)
Definition FunctionMacro : Type := list Token -> outcome (list Token).

(** The mailbox: [TokenSaverPragmaHandler::tokens]. *)
Record TokenSaverPragmaHandler : Type := { tokens : list Token }.

(** [DynamicPragmaHandler]: [m_token_saver] refers to the one saver of the
    owning [PreprocessorImpl], so only the name and the callback are
    stored. *)
Record DynamicPragmaHandler : Type := {
  dyn_name : string;
  m_function : FunctionMacro
}.

Inductive PragmaHandler : Type :=
| TokenSaver
| Dynamic (h : DynamicPragmaHandler).

Definition getName (h : PragmaHandler) : string :=
  match h with
  | TokenSaver => str.substr "cmonster_pragma" 0 15
  | Dynamic d => dyn_name d
  end.

(** ** The state owned by [PreprocessorImpl] *)

Definition FileID : Type := Z.

(** [clang::SourceManager], as far as the file uses it: the memory
    buffers that were given a [FileID]. *)
Record SourceManager : Type := {
  MemBuffers : list (string * string)
}.

Definition createFileIDForMemBuffer (name buf : string) (sm : SourceManager)
  : FileID * SourceManager :=
  (Z.of_nat (length (MemBuffers sm)) + 1,
   {| MemBuffers := MemBuffers sm ++ [(name, buf)] |}).

(** [clang::ScratchBuffer]: [getToken] stores a newline, the characters
    and a NUL, and returns the location of the first character. *)
Record ScratchBuffer : Type := {
  BufferStartLoc : SourceLocation;
  BytesUsed : Z
}.

Definition ScratchBuffer_getToken (Len : Z) (sb : ScratchBuffer)
  : SourceLocation * ScratchBuffer :=
  let used := BytesUsed sb + 1 + Len + 1 in
  (getFileLocWithOffset (BufferStartLoc sb) (used - Len - 1),
   {| BufferStartLoc := BufferStartLoc sb; BytesUsed := used |}).

(** A token stream entered with [EnterTokenStream]. *)
Record TokenLexer : Type := {
  Tokens : list clang_Token;
  DisableMacroExpansion : bool;
  OwnsTokens : bool
}.

(** The include/macro stack: the pending input, its front first. *)
Inductive LexerEntry : Type :=
| FileLexer (fid : FileID) (BufferPtr : Z)
| TokenStream (tl : TokenLexer).

(** [clang::Preprocessor].  The macro table is keyed by the identifier;
    [PragmaHandlers] lists the registrations, the latest first, each with
    its namespace (empty for the root namespace); [CachedTokens] holds the
    tokens that were lexed ahead and not yet consumed (clang's
    [CachedTokens] from [CachedLexPos] on). *)
Record Preprocessor : Type := {
  Predefines : string;
  Macros : gmap string MacroInfo;
  PragmaHandlers : list (string * PragmaHandler);
  HasFileChangeCallback : bool;
  ScratchBuf : ScratchBuffer;
  IncludeMacroStack : list LexerEntry;
  CachedTokens : list clang_Token
}.

Record CompilerInstance : Type := {
  PP : Preprocessor;
  SourceMgr : SourceManager
}.

Record FileChangePPCallback : Type := {
  depth : Z;
  location : SourceLocation
}.

Record PreprocessorImpl : Type := {
  compiler : CompilerInstance;
  token_saver : TokenSaverPragmaHandler;
  file_change_callback : FileChangePPCallback
}.

(** *** Field updates *)

Definition set_PP (st : PreprocessorImpl) (pp : Preprocessor) : PreprocessorImpl :=
  {| compiler := {| PP := pp; SourceMgr := SourceMgr (compiler st) |};
     token_saver := token_saver st;
     file_change_callback := file_change_callback st |}.

Definition set_SourceMgr (st : PreprocessorImpl) (sm : SourceManager) : PreprocessorImpl :=
  {| compiler := {| PP := PP (compiler st); SourceMgr := sm |};
     token_saver := token_saver st;
     file_change_callback := file_change_callback st |}.

Definition set_tokens (st : PreprocessorImpl) (l : list Token) : PreprocessorImpl :=
  {| compiler := compiler st;
     token_saver := {| tokens := l |};
     file_change_callback := file_change_callback st |}.

Definition set_file_change_callback (st : PreprocessorImpl) (cb : FileChangePPCallback)
  : PreprocessorImpl :=
  {| compiler := compiler st; token_saver := token_saver st;
     file_change_callback := cb |}.

Definition getPreprocessor (st : PreprocessorImpl) : Preprocessor := PP (compiler st).
Definition getSourceManager (st : PreprocessorImpl) : SourceManager := SourceMgr (compiler st).

(** *** Operations of [clang::Preprocessor] that are plain table updates *)

Definition getIdentifierInfo (pp : Preprocessor) (name : string) : IdentifierInfo := name.

Definition getMacroInfo (pp : Preprocessor) (II : IdentifierInfo) : option MacroInfo :=
  Macros pp !! II.

Definition setMacroInfo (pp : Preprocessor) (II : IdentifierInfo) (MI : MacroInfo)
  : Preprocessor :=
  {| Predefines := Predefines pp; Macros := <[II := MI]> (Macros pp);
     PragmaHandlers := PragmaHandlers pp;
     HasFileChangeCallback := HasFileChangeCallback pp;
     ScratchBuf := ScratchBuf pp; IncludeMacroStack := IncludeMacroStack pp;
     CachedTokens := CachedTokens pp |}.

Definition setPredefines (pp : Preprocessor) (p : string) : Preprocessor :=
  {| Predefines := p; Macros := Macros pp;
     PragmaHandlers := PragmaHandlers pp;
     HasFileChangeCallback := HasFileChangeCallback pp;
     ScratchBuf := ScratchBuf pp; IncludeMacroStack := IncludeMacroStack pp;
     CachedTokens := CachedTokens pp |}.

(** [AddPragmaHandler(Namespace, Handler)].  Every call is recorded, the
    latest first: each handler the file registers is an object of its
    own.  clang keeps the handlers in tables keyed by their names, one for
    the root and one for each namespace, the namespaces being entries of
    the root table; [FindHandler] and [registrable] below read the record
    as these tables. *)
Definition AddPragmaHandler (pp : Preprocessor) (Namespace : string) (h : PragmaHandler)
  : Preprocessor :=
  {| Predefines := Predefines pp; Macros := Macros pp;
     PragmaHandlers := (Namespace, h) :: PragmaHandlers pp;
     HasFileChangeCallback := HasFileChangeCallback pp;
     ScratchBuf := ScratchBuf pp; IncludeMacroStack := IncludeMacroStack pp;
     CachedTokens := CachedTokens pp |}.

(** The handler a table holds under a name: a later registration of the
    name in the same namespace has taken the place of an earlier one. *)
Fixpoint find_handler (l : list (string * PragmaHandler)) (Namespace Name : string)
  : option PragmaHandler :=
  match l with
  | [] => None
  | (ns, h) :: rest =>
      if String.eqb ns Namespace && String.eqb (getName h) Name
      then Some h
      else find_handler rest Namespace Name
  end.

Definition FindHandler (pp : Preprocessor) (Namespace Name : string)
  : option PragmaHandler :=
  find_handler (PragmaHandlers pp) Namespace Name.

(** The names of the root table: those of its handlers and those of the
    namespaces. *)
Definition root_name_taken (pp : Preprocessor) (Name : string) : Prop :=
  is_Some (FindHandler pp EmptyString Name)
  \/ (Name <> EmptyString /\ exists h, In (Name, h) (PragmaHandlers pp)).

(** What [AddPragmaHandler] asserts of its arguments ("Pragma handler
    already exists for this identifier", "Cannot have a pragma namespace
    and pragma handler with the same name"): the name of the handler is
    free in its table, and no handler of the root has the name of the
    namespace.  A registration that is not [registrable] stops clang at
    the assertion; where assertions are compiled out it replaces the
    handler of that name, or, for the namespace, is undefined. *)
Definition registrable (pp : Preprocessor) (Namespace : string) (h : PragmaHandler)
  : Prop :=
  if bool_decide (Namespace = EmptyString)
  then ~ root_name_taken pp (getName h)
  else FindHandler pp EmptyString Namespace = None
       /\ FindHandler pp Namespace (getName h) = None.

Definition addPPCallbacks (pp : Preprocessor) : Preprocessor :=
  {| Predefines := Predefines pp; Macros := Macros pp;
     PragmaHandlers := PragmaHandlers pp;
     HasFileChangeCallback := true;
     ScratchBuf := ScratchBuf pp; IncludeMacroStack := IncludeMacroStack pp;
     CachedTokens := CachedTokens pp |}.

(** [CreateString(Buf, Len, Tok)]: the token covers the first [Len]
    characters of [Buf], copied to the scratch buffer. *)
Definition CreateString (pp : Preprocessor) (Buf : string) (Len : Z) (t : clang_Token)
  : clang_Token * Preprocessor :=
  let '(L, sb) := ScratchBuffer_getToken Len (ScratchBuf pp) in
  ({| Kind := Kind t; Flags := Flags t; Loc := L;
      Text := str.substr Buf 0 Len; IdentInfo := IdentInfo t |},
   {| Predefines := Predefines pp; Macros := Macros pp;
      PragmaHandlers := PragmaHandlers pp;
      HasFileChangeCallback := HasFileChangeCallback pp;
      ScratchBuf := sb; IncludeMacroStack := IncludeMacroStack pp;
      CachedTokens := CachedTokens pp |}).

(** [EnterTokenStream(Toks, NumToks, DisableMacroExpansion, OwnsTokens)]:
    the first [NumToks] tokens of the array become the front of the
    pending input. *)
Definition EnterTokenStream (pp : Preprocessor) (Toks : list clang_Token) (NumToks : Z)
    (DisableExpansion Owns : bool) : Preprocessor :=
  {| Predefines := Predefines pp; Macros := Macros pp;
     PragmaHandlers := PragmaHandlers pp;
     HasFileChangeCallback := HasFileChangeCallback pp;
     ScratchBuf := ScratchBuf pp;
     IncludeMacroStack :=
       TokenStream {| Tokens := take (Z.to_nat NumToks) Toks;
                      DisableMacroExpansion := DisableExpansion;
                      OwnsTokens := Owns |} :: IncludeMacroStack pp;
     CachedTokens := CachedTokens pp |}.

(** [FileChangePPCallback::FileChanged]. *)
Inductive FileChangeReason : Type :=
| EnterFile | ExitFile | SystemHeaderPragma | RenameFile.

Definition FileChanged (cb : FileChangePPCallback) (L : SourceLocation)
    (Reason : FileChangeReason) : FileChangePPCallback :=
  {| location := L;
     depth := match Reason with
              | EnterFile => wrap32 (depth cb + 1)
              | ExitFile => wrap32 (depth cb - 1)
              | _ => depth cb
              end |}.

(** ** The lexing engine *)

(** [clang::PresumedLoc]: invalid when it has no file name. *)
Record PresumedLoc : Type := {
  Filename : option string;
  Line : Z;
  Col : Z
}.
Definition isValid (p : PresumedLoc) : bool :=
  match Filename p with Some _ => true | None => false end.
Definition getLine (p : PresumedLoc) : Z := Line p.
Definition getColumn (p : PresumedLoc) : Z := Col p.

(** What the file asks of clang and does not decide itself.  Lexing acts
    on the whole state: it is during [Lex] that clang calls the pragma
    handlers and the file-change callback back. *)
Record LexingEngine : Type := {
  Lex : PreprocessorImpl -> clang_Token * PreprocessorImpl;
  LexUnexpandedToken : PreprocessorImpl -> clang_Token * PreprocessorImpl;
  LookAhead : Z -> PreprocessorImpl -> clang_Token * PreprocessorImpl;
  EnterMainSourceFile : PreprocessorImpl -> PreprocessorImpl;
  EnterSourceFile : FileID -> PreprocessorImpl -> PreprocessorImpl;
  createPreprocessor : SourceManager -> Preprocessor;
  getFileID : SourceManager -> SourceLocation -> FileID;
  getPresumedLoc : SourceManager -> SourceLocation -> PresumedLoc
}.

(** ** [PreprocessorImpl]: the macro table builder *)

Definition back {A} (d : A) (v : list A) : A := default d (last v).

(** "Set the function arguments."  [arg_identifiers] starts as
    [args.size()] null pointers and is assigned by index. *)
Definition set_function_arguments (pp : Preprocessor) (args : list string)
    (is_function : bool) (macro : MacroInfo) : MacroInfo :=
  if is_function then
    let macro := setIsFunctionLike macro in
    if negb (bool_decide (args = [])) then
      let n_args := wrap32 (Z.of_nat (length args)) in
      let '(macro, n_args) :=
        if bool_decide (back EmptyString args = "...")
        then (setIsC99Varargs macro, wrap32 (n_args - 1))
        else (macro, n_args) in
      let arg_identifiers : list (option IdentifierInfo) :=
        replicate (length args) None in
      let arg_identifiers :=
        foldl (fun v i =>
                 <[i := Some (getIdentifierInfo pp (default EmptyString (args !! i)))]> v)
              arg_identifiers (seq 0 (Z.to_nat n_args)) in
      let arg_identifiers :=
        if IsC99Varargs macro
        then <[(length arg_identifiers - 1)%nat :=
                 Some (getIdentifierInfo pp "__VA_ARGS__")]> arg_identifiers
        else arg_identifiers in
      setArgumentList macro arg_identifiers
    else macro
  else macro.

(** "Set the macro body." *)
Definition set_macro_body (value_tokens : list Token) (macro : MacroInfo) : MacroInfo :=
  if negb (bool_decide (value_tokens = [])) then
    let macro := foldl (fun m t => AddTokenToBody m (getToken t)) macro value_tokens in
    setDefinitionEndLoc macro
      (getLocation (getToken (back (mkToken startToken) value_tokens)))
  else macro.

(** The first half of [add_macro_definition]: the descriptor built from the
    arguments, before the table is consulted. *)
Definition new_macro (pp : Preprocessor) (value_tokens : list Token)
    (args : list string) (is_function : bool) : MacroInfo :=
  let macro := AllocateMacroInfo SourceLocation_new in
  let macro := set_function_arguments pp args is_function macro in
  set_macro_body value_tokens macro.

Definition add_macro_definition (name : string) (value_tokens : list Token)
    (args : list string) (is_function : bool) (st : PreprocessorImpl)
  : outcome bool * PreprocessorImpl :=
  let pp := getPreprocessor st in
  let macro_identifier := getIdentifierInfo pp name in
  let macro := new_macro pp value_tokens args is_function in
  match getMacroInfo pp macro_identifier with
  | Some existing_macro =>
      let result := isIdenticalTo macro existing_macro in
      (Return result, st)
  | None =>
      (Return true, set_PP st (setMacroInfo pp macro_identifier macro))
  end.

(** ** [PreprocessorImpl]: the dynamic macro bridge *)

Definition add_pragma (name : string) (function : option FunctionMacro)
    (with_namespace : bool) (st : PreprocessorImpl) : bool * PreprocessorImpl :=
  match function with
  | Some f =>
      let h := Dynamic {| dyn_name := name; m_function := f |} in
      if with_namespace
      then (true, set_PP st (AddPragmaHandler (getPreprocessor st) "cmonster" h))
      else (true, set_PP st (AddPragmaHandler (getPreprocessor st) EmptyString h))
  | None => (false, st)
  end.

Definition qualified_name (name : string) : string :=
  String quote "cmonster " +:+ name +:+ String quote EmptyString.

Definition add_macro_function (name : string) (function : option FunctionMacro)
    (st : PreprocessorImpl) : outcome bool * PreprocessorImpl :=
  match function with
  | None => (Return false, st)
  | Some _ =>
  let '(registered, st) := add_pragma name function true st in
  if registered then
    let pp := getPreprocessor st in
    let macro_identifier := getIdentifierInfo pp name in
    match getMacroInfo pp macro_identifier with
    | Some _ => (Throw (runtime_error "Macro already defined"), st)
    | None =>
      (* _CMONSTER_PRAGMA(cmonster_pragma __VA_ARGS__) *)
      let t := startToken in
      let t := setKind t tok.identifier in
      let t := setIdentifierInfo t (getIdentifierInfo pp "_CMONSTER_PRAGMA") in
      let '(t, pp) := CreateString pp "_CMONSTER_PRAGMA" 16 t in
      let macro := AllocateMacroInfo (getLocation t) in
      let macro := setIsFunctionLike macro in
      let macro := setIsC99Varargs macro in
      let va_args := getIdentifierInfo pp "__VA_ARGS__" in
      let macro := setArgumentList macro [Some va_args] in
      let macro := AddTokenToBody macro t in
      let t := startToken in
      let t := setKind t tok.l_paren in
      let '(t, pp) := CreateString pp "(" 1 t in
      let macro := AddTokenToBody macro t in
      let t := startToken in
      let t := setKind t tok.identifier in
      let t := setIdentifierInfo t (getIdentifierInfo pp "cmonster_pragma") in
      let '(t, pp) := CreateString pp "cmonster_pragma" 15 t in
      let macro := AddTokenToBody macro t in
      let t := startToken in
      let t := setKind t tok.identifier in
      let t := setIdentifierInfo t (getIdentifierInfo pp "__VA_ARGS__") in
      let '(t, pp) := CreateString pp "__VA_ARGS__" 11 t in
      let t := setFlag t Flag.LeadingSpace in
      let macro := AddTokenToBody macro t in
      let t := startToken in
      let t := setKind t tok.r_paren in
      let '(t, pp) := CreateString pp ")" 1 t in
      let macro := AddTokenToBody macro t in
      (* _Pragma("cmonster" #name) *)
      let t := startToken in
      let t := setKind t tok.identifier in
      let t := setIdentifierInfo t (getIdentifierInfo pp "_Pragma") in
      let '(t, pp) := CreateString pp "_Pragma" 7 t in
      let macro := AddTokenToBody macro t in
      let t := startToken in
      let t := setKind t tok.l_paren in
      let '(t, pp) := CreateString pp "(" 1 t in
      let macro := AddTokenToBody macro t in
      let qualified := qualified_name name in
      let t := startToken in
      let t := setKind t tok.string_literal in
      let '(t, pp) := CreateString pp qualified (str.size qualified) t in
      let macro := AddTokenToBody macro t in
      let t := startToken in
      let t := setKind t tok.r_paren in
      let '(t, pp) := CreateString pp ")" 1 t in
      let macro := AddTokenToBody macro t in
      let macro := setDefinitionEndLoc macro (getLocation t) in
      (* Add the macro to the preprocessor. *)
      (Return true, set_PP st (setMacroInfo pp macro_identifier macro))
    end
  else (Return false, st)
  end.

(** [Preprocessor::define(name, function)] and [Preprocessor::add_pragma]. *)
Definition defineDynamic (name : string) (function : option FunctionMacro)
    (st : PreprocessorImpl) : outcome bool * PreprocessorImpl :=
  add_macro_function name function st.

Definition Preprocessor_add_pragma (name : string) (handler : option FunctionMacro)
    (st : PreprocessorImpl) : bool * PreprocessorImpl :=
  add_pragma name handler false st.

(** ** The parser of macro signatures in [Preprocessor::define] *)

(** [while (start < rparen && name[start] == ' ') ++start;] runs at most
    [rparen - start] times, which is the fuel it is given. *)
Fixpoint skip_spaces (fuel : nat) (name : string) (start rparen : Z) : Z :=
  match fuel with
  | O => start
  | S fuel' =>
      if (start <? rparen) && Ascii.eqb (str.at_ name start) space
      then skip_spaces fuel' name (start + 1) rparen
      else start
  end.

(** [while (end > start && name[end] == ' ') --end;] runs at most
    [end - start] times. *)
Fixpoint trim_end (fuel : nat) (name : string) (end_ start : Z) : Z :=
  match fuel with
  | O => end_
  | S fuel' =>
      if (end_ >? start) && Ascii.eqb (str.at_ name end_) space
      then trim_end fuel' name (end_ - 1) start
      else end_
  end.

Definition expected_other_than_comma (name : string) (start : Z) : exception :=
  invalid_argument
    ("Expected character other than ',' in string '" +:+ name +:+
     "', column: " +:+ str.of_size_t start).

(** The loop [while (start < rparen)] that splits the parameters. *)
Fixpoint parse_args (fuel : nat) (name : string) (start rparen : Z)
    (arg_names : list string) : outcome (list string) :=
  if start <? rparen then
    match fuel with
    | O => OutOfFuel
    | S fuel' =>
        let start := skip_spaces (Z.to_nat (rparen - start)) name start rparen in
        if Ascii.eqb (str.at_ name start) ","
        then Throw (expected_other_than_comma name start)
        else
          match str.find name "," (start + 1) with
          | None =>
              let end_ := rparen - 1 in
              let end_ := trim_end (Z.to_nat (end_ - start)) name end_ start in
              let arg_names :=
                arg_names ++ [str.substr name start (wrap64 (end_ - start + 1))] in
              parse_args fuel' name rparen rparen arg_names
          | Some comma =>
              let end_ := comma - 1 in
              let end_ := trim_end (Z.to_nat (end_ - start)) name end_ start in
              let arg_names :=
                arg_names ++ [str.substr name start (wrap64 (end_ - start + 1))] in
              parse_args fuel' name (comma + 1) rparen arg_names
          end
    end
  else Return arg_names.

Definition no_matching_lparen : exception :=
  invalid_argument "Name ends with ')', but has no matching '('".

Section Engine.

Variable E : LexingEngine.

(** ** The constructor of [PreprocessorImpl] *)

(** [sm] is the source manager created for the main file; the steps
    before [createPreprocessor] configure clang only. *)
Definition PreprocessorImpl_new (sm : SourceManager) : PreprocessorImpl :=
  let pp := createPreprocessor E sm in
  let predefines := Predefines pp in
  let predefines :=
    predefines +:+ "#define _CMONSTER_PRAGMA(...) _Pragma(#__VA_ARGS__)" in
  let pp := setPredefines pp predefines in
  let pp := AddPragmaHandler pp EmptyString TokenSaver in
  let pp := addPPCallbacks pp in
  {| compiler := {| PP := pp; SourceMgr := sm |};
     token_saver := {| tokens := [] |};
     file_change_callback := {| depth := 0; location := SourceLocation_new |} |}.

(** ** The two pragma handlers *)

(** [for (PP.Lex(token); token.isNot(eod); PP.Lex(token)) tokens.push_back(..)];
    the mailbox lives in the state, where a nested firing can reach it. *)
Fixpoint save_directive (fuel : nat) (st : PreprocessorImpl) : option PreprocessorImpl :=
  match fuel with
  | O => None
  | S fuel' =>
      let '(token, st) := Lex E st in
      if isNot token tok.eod
      then save_directive fuel'
             (set_tokens st (tokens (token_saver st) ++ [mkToken token]))
      else Some st
  end.

Definition TokenSaver_HandlePragma (fuel : nat) (st : PreprocessorImpl)
  : outcome unit * PreprocessorImpl :=
  let st := set_tokens st [] in
  match save_directive fuel st with
  | Some st => (Return tt, st)
  | None => (OutOfFuel, st)
  end.

(** [for (PP.Lex(token); token.isNot(eod);) PP.Lex(token);] *)
Fixpoint discard_directive (fuel : nat) (st : PreprocessorImpl) : option PreprocessorImpl :=
  match fuel with
  | O => None
  | S fuel' =>
      let '(token, st) := Lex E st in
      if isNot token tok.eod then discard_directive fuel' st else Some st
  end.

(** The array [tokens] filled from [result]: entry [0] as it is, the
    entries from [1] on with [LeadingSpace] set. *)
Definition result_tokens (result : list Token) : list clang_Token :=
  let tokens := replicate (length result) startToken in
  let tokens := <[0%nat := getToken (default (mkToken startToken) (result !! 0%nat))]> tokens in
  foldl (fun a i =>
           <[i := setFlag (getToken (default (mkToken startToken) (result !! i)))
                          Flag.LeadingSpace]> a)
        tokens (seq 1 (length result - 1)).

Definition Dynamic_HandlePragma (fuel : nat) (h : DynamicPragmaHandler)
    (st : PreprocessorImpl) : outcome unit * PreprocessorImpl :=
  match discard_directive fuel st with
  | None => (OutOfFuel, st)
  | Some st =>
      match m_function h (tokens (token_saver st)) with
      | Return result =>
          if negb (bool_decide (result = [])) then
            let tokens := result_tokens result in
            (Return tt,
             set_PP st (EnterTokenStream (getPreprocessor st) tokens
                          (Z.of_nat (length result)) false true))
          else (Return tt, st)
      | Throw e => (Throw e, st)
      | OutOfFuel => (OutOfFuel, st)
      end
  end.

Definition HandlePragma (fuel : nat) (h : PragmaHandler) (st : PreprocessorImpl)
  : outcome unit * PreprocessorImpl :=
  match h with
  | TokenSaver => TokenSaver_HandlePragma fuel st
  | Dynamic d => Dynamic_HandlePragma fuel d st
  end.

(** ** [TokenIteratorImpl] *)

Record TokenIteratorImpl : Type := {
  m_current : Token;
  m_next : clang_Token
}.

Definition TokenIteratorImpl_new (st : PreprocessorImpl)
  : TokenIteratorImpl * PreprocessorImpl :=
  let '(t, st) := Lex E st in
  ({| m_current := mkToken startToken; m_next := t |}, st).

Definition has_next (it : TokenIteratorImpl) : bool :=
  isNot (m_next it) tok.eof.

Definition next (it : TokenIteratorImpl) (st : PreprocessorImpl)
  : Token * TokenIteratorImpl * PreprocessorImpl :=
  let it := {| m_current := mkToken (m_next it); m_next := m_next it |} in
  let '(t, st) := Lex E st in
  let it := {| m_current := m_current it; m_next := t |} in
  (m_current it, it, st).

Definition create_iterator (st : PreprocessorImpl)
  : TokenIteratorImpl * PreprocessorImpl :=
  let st := EnterMainSourceFile E st in
  TokenIteratorImpl_new st.

(** ** [Preprocessor::tokenize] *)

(** The loop of [tokenize].  [fresh] stands for [&pp != &old_pp]. *)
Fixpoint tokenize_loop (fuel : nat) (fresh : bool) (old_pp : Preprocessor)
    (fid : FileID) (st : PreprocessorImpl) (result : list Token)
  : outcome (list Token) * PreprocessorImpl :=
  match fuel with
  | O => (OutOfFuel, st)
  | S fuel' =>
      let '(la, st) := LookAhead E 0 st in
      if isNot la tok.eof then
        let '(la, st) := LookAhead E 0 st in
        if bool_decide (getFileID E (getSourceManager st) (getLocation la) = fid) then
          let '(tok, st) := LexUnexpandedToken E st in
          let tok :=
            if fresh && isAnyIdentifier tok then
              match IdentInfo tok with
              | Some II => setIdentifierInfo tok (getIdentifierInfo old_pp II)
              | None => tok
              end
            else tok in
          tokenize_loop fuel' fresh old_pp fid st (result ++ [mkToken tok])
        else (Return result, st)
      else (Return result, st)
  end.

(** [~PreprocessorResetter]: the compiler points at [old_pp] again.  When
    no temporary preprocessor was made this is the object the loop has
    been lexing from. *)
Definition PreprocessorResetter (fresh : bool) (old_pp : Preprocessor)
    (st : PreprocessorImpl) : PreprocessorImpl :=
  if fresh then set_PP st old_pp else st.

(** The steps of [tokenize] before its loop: a temporary preprocessor
    when the main input has not been entered, a file id for a copy of
    the [len] characters at [s], and that file entered.  The result is
    [&pp != &old_pp], [old_pp], the file id, [old_depth] and the state. *)
Definition tokenize_enter (s : char_ptr) (len : Z) (st : PreprocessorImpl)
  : bool * Preprocessor * FileID * Z * PreprocessorImpl :=
  let old_pp := getPreprocessor st in
  let fresh := depth (file_change_callback st) =? 0 in
  let st :=
    if fresh
    then EnterMainSourceFile E
           (set_PP st (createPreprocessor E (getSourceManager st)))
    else st in
  let '(fid, sm) :=
    createFileIDForMemBuffer "<generated>" (StringRef s len)
      (getSourceManager st) in
  let st := set_SourceMgr st sm in
  let old_depth := depth (file_change_callback st) in
  let st := EnterSourceFile E fid st in
  (fresh, old_pp, fid, old_depth, st).

(** [len] is a [size_t]: the argument is taken modulo [2^64]. *)
Definition tokenize (fuel : nat) (s : option char_ptr) (len : Z) (st : PreprocessorImpl)
  : outcome (list Token) * PreprocessorImpl :=
  let len := wrap64 len in
  match s with
  | None => (Return [], st)
  | Some s =>
      if len =? 0 then (Return [], st)
      else
        let '(fresh, old_pp, fid, old_depth, st) := tokenize_enter s len st in
        if negb fresh && (depth (file_change_callback st) <=? old_depth)
        then (Return [], PreprocessorResetter fresh old_pp st)
        else
          let '(r, st) := tokenize_loop fuel fresh old_pp fid st [] in
          (r, PreprocessorResetter fresh old_pp st)
  end.

(** ** [Preprocessor::define(name, value)] *)

(** "Tokenize the value." *)
Definition tokenize_value (fuel : nat) (value : string) (st : PreprocessorImpl)
  : outcome (list Token) * PreprocessorImpl :=
  if negb (str.empty value)
  then tokenize fuel (Some (c_str value)) (str.size value) st
  else (Return [], st).

Definition define (fuel : nat) (name value : string) (st : PreprocessorImpl)
  : outcome bool * PreprocessorImpl :=
  let '(r, st) := tokenize_value fuel value st in
  match r with
  | Throw e => (Throw e, st)
  | OutOfFuel => (OutOfFuel, st)
  | Return value_tokens =>
      if negb (str.empty name)
         && Ascii.eqb (str.at_ name (str.size name - 1)) ")"
      then
        match str.find name "(" 0 with
        | None => (Throw no_matching_lparen, st)
        | Some lparen =>
            let start := lparen + 1 in
            let rparen := str.size name - 1 in
            match parse_args (String.length name) name start rparen [] with
            | Return arg_names =>
                add_macro_definition (str.substr name 0 lparen)
                  value_tokens arg_names true st
            | Throw e => (Throw e, st)
            | OutOfFuel => (OutOfFuel, st)
            end
        end
      else add_macro_definition name value_tokens [] false st
  end.

(** ** [Preprocessor::format] *)

(** The state of the loop: the characters written to [out] and the
    cursor [(current_line, current_column)]. *)
Definition format_step (sm : SourceManager) (acc : string * Z * Z) (token : Token)
  : string * Z * Z :=
  let '(out, current_line, current_column) := acc in
  let loc := getLocation (getToken token) in
  let ploc := getPresumedLoc E sm loc in
  if isValid ploc then
    let line := getLine ploc in
    let column := getColumn ploc in
    let '(out, current_line, current_column) :=
      if line >? current_line then
        let '(out, current_column) :=
          if current_line >? 0
          then (out +:+ str.fill (Z.to_nat (line - current_line)) newline, 1)
          else (out, current_column) in
        (out, line, current_column)
      else (out, current_line, current_column) in
    let '(out, current_column) :=
      if column >? current_column
      then (out +:+ str.fill (Z.to_nat (column - current_column)) space, column)
      else (out, current_column) in
    let out := out +:+ spelling token in
    (out, current_line, wrap32 (current_column + getLength (getToken token)))
  else acc.

Definition format_loop (sm : SourceManager) (out : string) (tokens : list Token)
  : string * Z * Z :=
  foldl (format_step sm) (out, 0, 1) tokens.

Definition format (st : PreprocessorImpl) (out : string) (tokens : list Token) : string :=
  fst (fst (format_loop (getSourceManager st) out tokens)).

End Engine.

(** ** The token cache of the engine

    clang documents [Preprocessor::LookAhead] so: "LookAhead(0) returns the
    next token that would be returned by Lex() [...] This returns normal
    tokens after phase 5.  As such, it is equivalent to using 'Lex', not
    'LexUnexpandedToken'."  It is implemented with a cache: the tokens
    peeked are lexed with [Lex] and appended to [CachedTokens]
    ([PeekAhead]), and while the cache holds a token the next call that
    lexes, expanding or not, takes that token from the cache
    ([CachingLex]).  [with_cache L] puts this cache on top of a lexer [L];
    the cache is consulted before the lexer, which is what clang does for
    an input that was entered while the cache was empty. *)

Definition set_CachedTokens (st : PreprocessorImpl) (l : list clang_Token)
  : PreprocessorImpl :=
  let pp := getPreprocessor st in
  set_PP st
    {| Predefines := Predefines pp; Macros := Macros pp;
       PragmaHandlers := PragmaHandlers pp;
       HasFileChangeCallback := HasFileChangeCallback pp;
       ScratchBuf := ScratchBuf pp; IncludeMacroStack := IncludeMacroStack pp;
       CachedTokens := l |}.

Section TokenCache.

Variable L : LexingEngine.

(** [PeekAhead]: [n] more tokens are lexed with [Lex], macros expanded,
    and appended to the cache. *)
Fixpoint PeekAhead (n : nat) (st : PreprocessorImpl) : PreprocessorImpl :=
  match n with
  | O => st
  | S k =>
      let '(t, st) := Lex L st in
      PeekAhead k (set_CachedTokens st (CachedTokens (getPreprocessor st) ++ [t]))
  end.

(** [LookAhead(N)]: the cached token at [N], after the cache has been
    filled up to it. *)
Definition cached_LookAhead (N : Z) (st : PreprocessorImpl)
  : clang_Token * PreprocessorImpl :=
  let cached := CachedTokens (getPreprocessor st) in
  match cached !! Z.to_nat N with
  | Some t => (t, st)
  | None =>
      let st := PeekAhead (Z.to_nat N + 1 - length cached) st in
      (back startToken (CachedTokens (getPreprocessor st)), st)
  end.

(** [CachingLex]: the first cached token if there is one, the lexer
    otherwise. *)
Definition CachingLex (lexer : PreprocessorImpl -> clang_Token * PreprocessorImpl)
    (st : PreprocessorImpl) : clang_Token * PreprocessorImpl :=
  match CachedTokens (getPreprocessor st) with
  | t :: rest => (t, set_CachedTokens st rest)
  | [] => lexer st
  end.

Definition with_cache : LexingEngine :=
  {| Lex := CachingLex (Lex L);
     LexUnexpandedToken := CachingLex (LexUnexpandedToken L);
     LookAhead := cached_LookAhead;
     EnterMainSourceFile := EnterMainSourceFile L;
     EnterSourceFile := EnterSourceFile L;
     createPreprocessor := createPreprocessor L;
     getFileID := getFileID L;
     getPresumedLoc := getPresumedLoc L |}.

End TokenCache.

(** ** A reference engine

    A small instance of [LexingEngine], used to run the embedding on
    concrete inputs.  A file is lexed into the words between its spaces,
    every word an identifier; token streams are read front to back; in
    [engine] there is no macro expansion and no cache.  A location encodes
    file, line and column as [fid * 1000000 + line * 1000 + column]. *)
Module Toy.

Definition loc (fid line col : Z) : SourceLocation :=
  {| getRawEncoding := fid * 1000000 + line * 1000 + col |}.

Fixpoint word (s : string) : string :=
  match s with
  | EmptyString => EmptyString
  | String c s' => if Ascii.eqb c space then EmptyString else String c (word s')
  end.

Fixpoint spaces (s : string) : nat :=
  match s with
  | String c s' => if Ascii.eqb c space then S (spaces s') else O
  | EmptyString => O
  end.

Definition eof_token : clang_Token := setKind startToken tok.eof.

Definition buffer (sm : SourceManager) (fid : FileID) : string :=
  match MemBuffers sm !! Z.to_nat (fid - 1) with
  | Some (_, b) => b
  | None => EmptyString
  end.

Definition set_stack (st : PreprocessorImpl) (l : list LexerEntry) : PreprocessorImpl :=
  let pp := getPreprocessor st in
  set_PP st
    {| Predefines := Predefines pp; Macros := Macros pp;
       PragmaHandlers := PragmaHandlers pp;
       HasFileChangeCallback := HasFileChangeCallback pp;
       ScratchBuf := ScratchBuf pp; IncludeMacroStack := l;
       CachedTokens := CachedTokens pp |}.

Definition lex (st : PreprocessorImpl) : clang_Token * PreprocessorImpl :=
  match IncludeMacroStack (getPreprocessor st) with
  | TokenStream tl :: rest =>
      match Tokens tl with
      | t :: ts =>
          (t, set_stack st
                (TokenStream {| Tokens := ts;
                                DisableMacroExpansion := DisableMacroExpansion tl;
                                OwnsTokens := OwnsTokens tl |} :: rest))
      | [] => (eof_token, st)
      end
  | FileLexer fid ptr :: rest =>
      let b := str.drop (Z.to_nat ptr) (buffer (getSourceManager st) fid) in
      let ptr := ptr + Z.of_nat (spaces b) in
      let w := word (str.drop (spaces b) b) in
      if str.empty w then (eof_token, st)
      else ({| Kind := tok.identifier; Flags := 0; Loc := loc fid 1 (ptr + 1);
               Text := w; IdentInfo := Some w |},
            set_stack st (FileLexer fid (ptr + str.size w) :: rest))
  | [] => (eof_token, st)
  end.

Definition enter (fid : FileID) (st : PreprocessorImpl) : PreprocessorImpl :=
  let st := set_stack st (FileLexer fid 0 :: IncludeMacroStack (getPreprocessor st)) in
  if HasFileChangeCallback (getPreprocessor st)
  then set_file_change_callback st
         (FileChanged (file_change_callback st) (loc fid 1 1) EnterFile)
  else st.

Definition new_pp (sm : SourceManager) : Preprocessor :=
  {| Predefines := EmptyString; Macros := ∅; PragmaHandlers := [];
     HasFileChangeCallback := false;
     ScratchBuf := {| BufferStartLoc := loc 999 0 0; BytesUsed := 0 |};
     IncludeMacroStack := []; CachedTokens := [] |}.

Definition presumed (sm : SourceManager) (l : SourceLocation) : PresumedLoc :=
  let r := getRawEncoding l in
  {| Filename := if 0 <? r then Some "<generated>" else None;
     Line := (r mod 1000000) / 1000;
     Col := r mod 1000 |}.

Definition engine : LexingEngine :=
  {| Lex := lex;
     LexUnexpandedToken := lex;
     LookAhead := fun _ st => (fst (lex st), st);
     EnterMainSourceFile := fun st => st;
     EnterSourceFile := enter;
     createPreprocessor := new_pp;
     getFileID := fun _ l => getRawEncoding l / 1000000;
     getPresumedLoc := presumed |}.

(** The same lexer with object-like macros expanded, one level deep: an
    identifier that names an object-like macro of the table is replaced by
    the replacement list of the macro, entered as a token stream. *)
Definition lex_expanding (st : PreprocessorImpl) : clang_Token * PreprocessorImpl :=
  let '(t, st1) := lex st in
  match IdentInfo t with
  | Some name =>
      match getMacroInfo (getPreprocessor st1) name with
      | Some m =>
          if IsFunctionLike m then (t, st1)
          else lex (set_stack st1
                      (TokenStream {| Tokens := ReplacementTokens m;
                                      DisableMacroExpansion := false;
                                      OwnsTokens := false |}
                       :: IncludeMacroStack (getPreprocessor st1)))
      | None => (t, st1)
      end
  | None => (t, st1)
  end.

(** The reference engine with macro expansion in [Lex], and with clang's
    token cache on top of it. *)
Definition expanding : LexingEngine :=
  {| Lex := lex_expanding;
     LexUnexpandedToken := lex;
     LookAhead := fun _ st => (fst (lex_expanding st), st);
     EnterMainSourceFile := fun st => st;
     EnterSourceFile := enter;
     createPreprocessor := new_pp;
     getFileID := fun _ l => getRawEncoding l / 1000000;
     getPresumedLoc := presumed |}.

Definition cached : LexingEngine := with_cache expanding.

(** A fresh facade, and a few tokens. *)
Definition st0 : PreprocessorImpl :=
  PreprocessorImpl_new engine {| MemBuffers := [] |}.

Definition ident (name : string) (line col : Z) : Token :=
  mkToken {| Kind := tok.identifier; Flags := 0; Loc := loc 1 line col;
             Text := name; IdentInfo := Some name |}.

Definition number (text : string) (line col : Z) : Token :=
  mkToken {| Kind := tok.numeric_constant; Flags := 0; Loc := loc 1 line col;
             Text := text; IdentInfo := None |}.

Definition eod_token : clang_Token := setKind startToken tok.eod.

(** A callback that answers every invocation with its arguments twice. *)
Definition twice : FunctionMacro := fun args => Return (args ++ args).

End Toy.

Example toy_tokenize :
  fst (tokenize Toy.engine 5 (Some (c_str "a  bc")) 5 Toy.st0)
  = Return [mkToken {| Kind := tok.identifier; Flags := 0; Loc := Toy.loc 1 1 1;
                       Text := "a"; IdentInfo := Some "a" |};
            mkToken {| Kind := tok.identifier; Flags := 0; Loc := Toy.loc 1 1 4;
                       Text := "bc"; IdentInfo := Some "bc" |}].
Proof. vm_compute. reflexivity. Qed.

Example toy_define_twice :
  let st1 := snd (define Toy.engine 5 "SQUARE(x)" "x x" Toy.st0) in
  fst (define Toy.engine 5 "SQUARE(x)" "x x" Toy.st0) = Return true
  /\ fst (define Toy.engine 5 "SQUARE(x)" "x x" st1) = Return true
  /\ fst (define Toy.engine 5 "SQUARE(x)" "x y" st1) = Return false
  /\ fst (define Toy.engine 5 "SQUARE(x, y)" "x x" st1) = Return false.
Proof. vm_compute. repeat split; reflexivity. Qed.

(** * Properties *)

(** ** Identity of macro definitions *)

(** The identity of §3 of the specification, stated on the positions of
    the two bodies. *)
Definition token_equiv (first : bool) (A B : clang_Token) : Prop :=
  Kind A = Kind B
  /\ (first = false ->
      isAtStartOfLine A = isAtStartOfLine B /\ hasLeadingSpace A = hasLeadingSpace B)
  /\ match IdentInfo A, IdentInfo B with
     | None, None => Text A = Text B
     | a, b => a = b
     end.

Definition body_equiv (l1 l2 : list clang_Token) : Prop :=
  length l1 = length l2
  /\ forall (i : nat) A B, l1 !! i = Some A -> l2 !! i = Some B ->
       token_equiv (bool_decide (i = 0%nat)) A B.

Definition identical (M Other : MacroInfo) : Prop :=
  IsFunctionLike M = IsFunctionLike Other
  /\ IsC99Varargs M = IsC99Varargs Other
  /\ IsGNUVarargs M = IsGNUVarargs Other
  /\ ArgumentList M = ArgumentList Other
  /\ body_equiv (ReplacementTokens M) (ReplacementTokens Other).

Lemma same_token_spec first A B :
  same_token first A B = true <-> token_equiv first A B.
Proof.
  unfold same_token, token_equiv.
  rewrite !andb_true_iff, bool_decide_eq_true, orb_true_iff, andb_true_iff.
  rewrite !Bool.eqb_true_iff.
  assert (Hid : match IdentInfo A, IdentInfo B with
                | None, None => String.eqb (Text A) (Text B)
                | a, b => bool_decide (a = b)
                end = true
                <-> match IdentInfo A, IdentInfo B with
                    | None, None => Text A = Text B
                    | a, b => a = b
                    end).
  { destruct (IdentInfo A), (IdentInfo B);
      rewrite ?bool_decide_eq_true, ?String.eqb_eq; tauto. }
  rewrite Hid. destruct first; intuition congruence.
Qed.

Lemma same_body_spec l1 : forall first l2,
  same_body first l1 l2 = true <->
  length l1 = length l2
  /\ forall (i : nat) A B, l1 !! i = Some A -> l2 !! i = Some B ->
       token_equiv (if first then bool_decide (i = 0%nat) else false) A B.
Proof.
  induction l1 as [|A l1 IH]; intros first [|B l2]; simpl.
  - split; [intros _; split; [reflexivity | intros i ? ? H; destruct i; discriminate H] | reflexivity].
  - split; [discriminate | intros [H _]; discriminate H].
  - split; [discriminate | intros [H _]; discriminate H].
  - rewrite andb_true_iff, same_token_spec, IH. split.
    + intros [Ht [Hl Hi]]. split; [congruence|].
      intros [|i] A' B' HA HB; simpl in *.
      * injection HA as <-. injection HB as <-.
        destruct first; exact Ht.
      * specialize (Hi i A' B' HA HB). destruct first; exact Hi.
    + intros [Hl Hi]. split; [|split; [congruence|]].
      * specialize (Hi 0%nat A B eq_refl eq_refl). destruct first; exact Hi.
      * intros i A' B' HA HB. specialize (Hi (S i) A' B' HA HB).
        destruct first; exact Hi.
Qed.

Lemma isIdenticalTo_spec M Other :
  isIdenticalTo M Other = true <-> identical M Other.
Proof.
  unfold isIdenticalTo, identical, body_equiv.
  rewrite !andb_true_iff, !Bool.eqb_true_iff, bool_decide_eq_true, same_body_spec.
  tauto.
Qed.

(** ** C1: redefinition *)

(** C1.  When a macro named [name] already exists, the macro table builder
    returns [true] exactly when the descriptor it has just built is
    identical to the existing one (same function-like and variadic flags,
    same parameters, equivalent bodies); whether identical or not, the
    state, and with it the macro table, is left as it was, so that the
    existing definition is still the one found under [name]. *)
Theorem add_macro_definition_existing :
  forall name value_tokens args is_function st existing,
    getMacroInfo (getPreprocessor st) name = Some existing ->
    let macro := new_macro (getPreprocessor st) value_tokens args is_function in
    let r := add_macro_definition name value_tokens args is_function st in
    fst r = Return (isIdenticalTo macro existing)
    /\ (isIdenticalTo macro existing = true <-> identical macro existing)
    /\ snd r = st
    /\ Macros (getPreprocessor (snd r)) = Macros (getPreprocessor st)
    /\ getMacroInfo (getPreprocessor (snd r)) name = Some existing.
Proof.
  intros name value_tokens args is_function st existing Hex macro r.
  subst r. unfold add_macro_definition.
  unfold getIdentifierInfo. rewrite Hex. simpl.
  split; [reflexivity|].
  split; [apply isIdenticalTo_spec|].
  repeat split; assumption.
Qed.

Lemma add_macro_definition_existing_witness :
  let st1 := snd (define Toy.engine 5 "N" "x y" Toy.st0) in
  let r := add_macro_definition "N" [Toy.ident "x" 1 1; Toy.number "1" 1 3] [] false st1 in
  is_Some (getMacroInfo (getPreprocessor st1) "N")
  /\ fst r = Return false /\ snd r = st1.
Proof.
  intros st1 r.
  assert (Hex : exists m, getMacroInfo (getPreprocessor st1) "N" = Some m).
  { eexists. vm_compute. reflexivity. }
  destruct Hex as [m Hm].
  destruct (add_macro_definition_existing "N"
              [Toy.ident "x" 1 1; Toy.number "1" 1 3] [] false st1 m Hm)
    as (_ & _ & Hst & _).
  split; [exists m; exact Hm|].
  split; [vm_compute; reflexivity | exact Hst].
Defined.

(** ** C8: the descriptor of a new macro *)

Lemma fill_arg_identifiers (args : list string) : forall n : nat,
  (n <= length args)%nat ->
  foldl (fun (v : list (option IdentifierInfo)) (i : nat) =>
           <[i := Some (default EmptyString (args !! i))]> v)
        (replicate (length args) None) (seq 0 n)
  = (Some <$> take n args) ++ replicate (length args - n)%nat None.
Proof.
  induction n as [|n IH]; intros Hn.
  - simpl. rewrite Nat.sub_0_r. reflexivity.
  - rewrite seq_S, foldl_app. simpl. rewrite IH by lia.
    destruct (lookup_lt_is_Some_2 args n ltac:(lia)) as [a Ha].
    rewrite Ha. simpl.
    rewrite (take_S_r _ _ _ Ha), fmap_app. simpl.
    replace (length args - n)%nat with (S (length args - S n)) by lia.
    simpl.
    assert (Hlen : length (Some <$> take n args) = n).
    { rewrite length_fmap, length_take. lia. }
    rewrite <- (Nat.add_0_r n) at 1.
    rewrite <- Hlen at 1.
    rewrite insert_app_r. simpl. rewrite <- app_assoc. reflexivity.
Qed.

Lemma body_of_tokens (value_tokens : list Token) : forall m,
  ReplacementTokens (foldl (fun m t => AddTokenToBody m (getToken t)) m value_tokens)
  = ReplacementTokens m ++ map getToken value_tokens.
Proof.
  induction value_tokens as [|t l IH]; intros m; simpl.
  - rewrite app_nil_r. reflexivity.
  - rewrite IH. simpl. rewrite <- app_assoc. reflexivity.
Qed.

Lemma flags_of_tokens (value_tokens : list Token) : forall m,
  let m' := foldl (fun m t => AddTokenToBody m (getToken t)) m value_tokens in
  IsFunctionLike m' = IsFunctionLike m /\ IsC99Varargs m' = IsC99Varargs m
  /\ ArgumentList m' = ArgumentList m /\ Location m' = Location m
  /\ EndLocation m' = EndLocation m.
Proof.
  induction value_tokens as [|t l IH]; intros m; simpl.
  - repeat split.
  - destruct (IH (AddTokenToBody m (getToken t))) as (H1 & H2 & H3 & H4 & H5).
    simpl in *. rewrite H1, H2, H3, H4, H5. repeat split.
Qed.

Lemma set_macro_body_spec value_tokens m :
  let m' := set_macro_body value_tokens m in
  IsFunctionLike m' = IsFunctionLike m /\ IsC99Varargs m' = IsC99Varargs m
  /\ ArgumentList m' = ArgumentList m /\ Location m' = Location m
  /\ ReplacementTokens m' = ReplacementTokens m ++ map getToken value_tokens
  /\ EndLocation m'
     = match last value_tokens with
       | Some t => getLocation (getToken t)
       | None => EndLocation m
       end.
Proof.
  unfold set_macro_body. destruct value_tokens as [|t l] eqn:Hv.
  - simpl. rewrite app_nil_r. repeat split.
  - rewrite <- Hv.
    assert (Hne : value_tokens <> []) by (rewrite Hv; discriminate).
    rewrite (bool_decide_eq_false_2 _ Hne). cbn [negb].
    destruct (flags_of_tokens value_tokens m) as (H1 & H2 & H3 & H4 & _).
    cbn zeta. cbn [IsFunctionLike IsC99Varargs ArgumentList Location EndLocation
                   ReplacementTokens setDefinitionEndLoc].
    rewrite body_of_tokens.
    repeat (split; [assumption || reflexivity|]).
    unfold back. destruct (last value_tokens) eqn:Hlast; [reflexivity|].
    apply last_None in Hlast. contradiction.
Qed.

(** The parameters and flags of [new_macro], for fewer than [2^32]
    parameters. *)
Lemma new_macro_arguments pp value_tokens args is_function :
  Z.of_nat (length args) < 2 ^ 32 ->
  let m := new_macro pp value_tokens args is_function in
  IsFunctionLike m = is_function
  /\ IsC99Varargs m
     = is_function && bool_decide (last args = Some "...")
  /\ ArgumentList m
     = if is_function then
         if bool_decide (last args = Some "...")
         then (Some <$> take (length args - 1)%nat args) ++ [Some "__VA_ARGS__"]
         else Some <$> args
       else [].
Proof.
  intros Hlen m. subst m. unfold new_macro. cbn zeta.
  destruct (set_macro_body_spec value_tokens
              (set_function_arguments pp args is_function
                 (AllocateMacroInfo SourceLocation_new)))
    as (H1 & H2 & H3 & _).
  cbn zeta in H1, H2, H3. rewrite H1, H2, H3. clear H1 H2 H3.
  unfold set_function_arguments.
  destruct is_function; [|repeat split]. cbn [andb].
  destruct args as [|a args'] eqn:Hargs; [repeat split|].
  rewrite <- Hargs in *.
  assert (Hne : args <> []) by (rewrite Hargs; discriminate).
  rewrite (bool_decide_eq_false_2 _ Hne). cbn [negb].
  assert (Hback : bool_decide (back EmptyString args = "...")
                  = bool_decide (last args = Some "...")).
  { unfold back. destruct (last args) as [x|] eqn:Hl.
    - simpl. apply bool_decide_ext. split; [congruence | intros [= ->]; reflexivity].
    - apply last_None in Hl. contradiction. }
  rewrite Hback.
  assert (Hpos : (0 < length args)%nat) by (rewrite Hargs; simpl; lia).
  unfold getIdentifierInfo.
  destruct (bool_decide (last args = Some "...")); simpl.
  - split; [reflexivity|]. split; [reflexivity|].
    unfold wrap32. rewrite (Z.mod_small (Z.of_nat (length args))) by lia.
    rewrite Z.mod_small by lia.
    replace (Z.to_nat (Z.of_nat (length args) - 1)) with (length args - 1)%nat by lia.
    rewrite fill_arg_identifiers by lia.
    replace (length args - (length args - 1))%nat with 1%nat by lia.
    simpl.
    assert (Hl : length (Some <$> take (length args - 1) args) = (length args - 1)%nat).
    { rewrite length_fmap, length_take. lia. }
    set (pre := Some <$> take (length args - 1) args) in *.
    replace (length (pre ++ [None]) - 1)%nat with (length pre + 0)%nat
      by (rewrite length_app; simpl; lia).
    rewrite insert_app_r. reflexivity.
  - split; [reflexivity|]. split; [reflexivity|].
    unfold wrap32. rewrite Z.mod_small by lia.
    rewrite Nat2Z.id, fill_arg_identifiers by lia.
    rewrite Nat.sub_diag, firstn_all. simpl. apply app_nil_r.
Qed.

Lemma new_macro_body pp value_tokens args is_function :
  let m := new_macro pp value_tokens args is_function in
  ReplacementTokens m = map getToken value_tokens
  /\ getDefinitionLoc m = SourceLocation_new
  /\ getDefinitionEndLoc m
     = match last value_tokens with
       | Some t => getLocation (getToken t)
       | None => getDefinitionLoc m
       end.
Proof.
  intros m. subst m. unfold new_macro. cbn zeta.
  set (m := set_function_arguments pp args is_function
              (AllocateMacroInfo SourceLocation_new)).
  assert (Hm : ReplacementTokens m = [] /\ Location m = SourceLocation_new
               /\ EndLocation m = SourceLocation_new).
  { subst m. unfold set_function_arguments.
    destruct is_function; [|repeat split]. simpl.
    destruct (negb _); [|repeat split].
    destruct (bool_decide _); repeat split. }
  destruct Hm as (Hb & Hl & He).
  destruct (set_macro_body_spec value_tokens m) as (_ & _ & _ & H4 & H5 & H6).
  cbn zeta in H4, H5, H6.
  unfold getDefinitionLoc, getDefinitionEndLoc.
  rewrite H4, H5, H6, Hb, Hl, He. repeat split.
Qed.

(** C8.  For a macro that [define] creates (no macro of that name exists):
    the entry recorded under the name is the descriptor built from the
    arguments.  For a function-like macro with a trailing parameter ["..."]
    it is marked C99-variadic, the parameters before the ["..."] are its
    only named parameters (the ["..."] takes no slot of its own) and
    [__VA_ARGS__] stands in its place; otherwise the parameters are recorded
    as given.  The body is the given tokens; the end location is the
    location of the last body token, or, for an empty body, the definition
    location of the macro. *)
Theorem add_macro_definition_new :
  forall name value_tokens args is_function st,
    getMacroInfo (getPreprocessor st) name = None ->
    Z.of_nat (length args) < 2 ^ 32 ->
    exists m,
      add_macro_definition name value_tokens args is_function st
      = (Return true, set_PP st (setMacroInfo (getPreprocessor st) name m))
      /\ getMacroInfo
           (getPreprocessor
              (snd (add_macro_definition name value_tokens args is_function st)))
           name = Some m
      /\ IsFunctionLike m = is_function
      /\ IsC99Varargs m = is_function && bool_decide (last args = Some "...")
      /\ (is_function = true -> last args = Some "..." ->
          ArgumentList m
          = (Some <$> take (length args - 1)%nat args) ++ [Some "__VA_ARGS__"])
      /\ (is_function = true -> last args <> Some "..." ->
          ArgumentList m = Some <$> args)
      /\ ReplacementTokens m = map getToken value_tokens
      /\ getDefinitionEndLoc m
         = match last value_tokens with
           | Some t => getLocation (getToken t)
           | None => getDefinitionLoc m
           end.
Proof.
  intros name value_tokens args is_function st Hnone Hlen.
  exists (new_macro (getPreprocessor st) value_tokens args is_function).
  unfold add_macro_definition, getIdentifierInfo. rewrite Hnone. simpl.
  destruct (new_macro_arguments (getPreprocessor st) value_tokens args is_function Hlen)
    as (Hf & Hv & Ha).
  destruct (new_macro_body (getPreprocessor st) value_tokens args is_function)
    as (Hb & _ & He).
  split; [reflexivity|].
  split; [unfold getMacroInfo; simpl; apply lookup_insert_eq|].
  split; [exact Hf|]. split; [exact Hv|].
  split.
  { intros -> Hl. rewrite Ha. rewrite (bool_decide_eq_true_2 _ Hl). reflexivity. }
  split.
  { intros -> Hl. rewrite Ha. rewrite (bool_decide_eq_false_2 _ Hl). reflexivity. }
  split; assumption.
Qed.

Lemma add_macro_definition_new_witness :
  exists m,
    getMacroInfo
      (getPreprocessor
         (snd (add_macro_definition "LOG" [Toy.ident "fmt" 1 1] ["fmt"; "..."] true Toy.st0)))
      "LOG" = Some m
    /\ IsC99Varargs m = true
    /\ ArgumentList m = [Some "fmt"; Some "__VA_ARGS__"]
    /\ getDefinitionEndLoc m = Toy.loc 1 1 1.
Proof.
  destruct (add_macro_definition_new "LOG" [Toy.ident "fmt" 1 1] ["fmt"; "..."] true
              Toy.st0 eq_refl eq_refl)
    as (m & _ & Hm & _ & Hv & Ha & _ & _ & He).
  exists m. split; [exact Hm|]. split; [exact Hv|].
  split; [exact (Ha eq_refl eq_refl) | exact He].
Defined.

(** ** C2, C3, C10: registering a dynamic macro *)

Lemma substr_all (s : string) : str.substr s 0 (str.size s) = s.
Proof.
  unfold str.substr, str.size. rewrite Nat2Z.id.
  change (Z.to_nat 0) with 0%nat.
  induction s as [|c s IH]; simpl; [reflexivity | rewrite IH; reflexivity].
Qed.

(** The state after the handler of [name] has been registered. *)
Definition with_handler (name : string) (f : FunctionMacro) (st : PreprocessorImpl)
  : PreprocessorImpl :=
  set_PP st
    (AddPragmaHandler (getPreprocessor st) "cmonster"
       (Dynamic {| dyn_name := name; m_function := f |})).

(** Kind, spelling, identifier and flags of the body of a dynamic macro. *)
Definition dynamic_body (name : string)
  : list (tok.TokenKind * string * option string * Z) :=
  [ (tok.identifier, "_CMONSTER_PRAGMA", Some "_CMONSTER_PRAGMA", 0);
    (tok.l_paren, "(", None, 0);
    (tok.identifier, "cmonster_pragma", Some "cmonster_pragma", 0);
    (tok.identifier, "__VA_ARGS__", Some "__VA_ARGS__", Flag.LeadingSpace);
    (tok.r_paren, ")", None, 0);
    (tok.identifier, "_Pragma", Some "_Pragma", 0);
    (tok.l_paren, "(", None, 0);
    (tok.string_literal, String quote "cmonster " +:+ name +:+ String quote EmptyString,
     None, 0);
    (tok.r_paren, ")", None, 0) ].

Definition token_shape (t : clang_Token) : tok.TokenKind * string * option string * Z :=
  (Kind t, Text t, IdentInfo t, Flags t).

Lemma add_macro_function_null name st :
  add_macro_function name None st = (Return false, st).
Proof. reflexivity. Qed.

Lemma add_macro_function_conflict name f st existing :
  getMacroInfo (getPreprocessor st) name = Some existing ->
  add_macro_function name (Some f) st
  = (Throw (runtime_error "Macro already defined"), with_handler name f st).
Proof.
  intros Hex. unfold add_macro_function, add_pragma. cbn zeta iota beta.
  unfold getIdentifierInfo.
  change (getMacroInfo (getPreprocessor (set_PP st _)) name)
    with (getMacroInfo (getPreprocessor st) name).
  rewrite Hex. reflexivity.
Qed.

Lemma CreateString_spec pp buf len t t' pp' :
  CreateString pp buf len t = (t', pp') ->
  Kind t' = Kind t /\ Text t' = str.substr buf 0 len
  /\ IdentInfo t' = IdentInfo t /\ Flags t' = Flags t
  /\ Macros pp' = Macros pp /\ PragmaHandlers pp' = PragmaHandlers pp.
Proof.
  unfold CreateString, ScratchBuffer_getToken. cbn zeta iota beta.
  intros [= <- <-]. repeat split.
Qed.

Lemma token_shape_setFlag t f :
  token_shape (setFlag t f) = (Kind t, Text t, IdentInfo t, Z.lor (Flags t) f).
Proof. reflexivity. Qed.

Lemma token_shape_eq t k x i f :
  Kind t = k /\ Text t = x /\ IdentInfo t = i /\ Flags t = f /\ True ->
  token_shape t = (k, x, i, f).
Proof. intros (<- & <- & <- & <- & _). reflexivity. Qed.

Lemma add_macro_function_fresh name f st :
  getMacroInfo (getPreprocessor st) name = None ->
  exists m pp,
    add_macro_function name (Some f) st
    = (Return true, set_PP (with_handler name f st) (setMacroInfo pp name m))
    /\ Macros pp = Macros (getPreprocessor st)
    /\ PragmaHandlers pp = PragmaHandlers (getPreprocessor (with_handler name f st))
    /\ IsFunctionLike m = true
    /\ IsC99Varargs m = true
    /\ IsGNUVarargs m = false
    /\ ArgumentList m = [Some "__VA_ARGS__"]
    /\ map token_shape (ReplacementTokens m) = dynamic_body name.
Proof.
  intros Hnone. unfold add_macro_function, add_pragma. cbn zeta iota beta.
  unfold getIdentifierInfo.
  change (getMacroInfo (getPreprocessor (set_PP st _)) name)
    with (getMacroInfo (getPreprocessor st) name).
  rewrite Hnone. fold (with_handler name f st).
  assert (HM : Macros (getPreprocessor (with_handler name f st))
               = Macros (getPreprocessor st)) by reflexivity.
  set (pp0 := getPreprocessor (with_handler name f st)) in *. clearbody pp0.
  repeat
    match goal with
    | |- context [CreateString ?p ?b ?l ?t] =>
        let H := fresh "HC" in
        destruct (CreateString p b l t) as [? ?] eqn:H;
        apply CreateString_spec in H;
        cbn [Kind Text IdentInfo Flags setKind setIdentifierInfo startToken] in H
    end.
  eexists _, _. split; [reflexivity|].
  split; [intuition congruence|]. split; [intuition congruence|].
  repeat (split; [reflexivity|]).
  cbn [ReplacementTokens AddTokenToBody setDefinitionEndLoc setArgumentList
       setIsC99Varargs setIsFunctionLike AllocateMacroInfo app map].
  rewrite token_shape_setFlag.
  unfold dynamic_body. fold (qualified_name name).
  repeat
    match goal with
    | H : Kind ?t = _ /\ _ |- _ =>
        let H1 := fresh in let H2 := fresh in let H3 := fresh in let H4 := fresh in
        destruct H as (H1 & H2 & H3 & H4 & _);
        try rewrite (token_shape_eq t _ _ _ _ (conj H1 (conj H2 (conj H3 (conj H4 I)))));
        try rewrite H1, H2, H3, H4
    end.
  rewrite (substr_all (qualified_name name)). reflexivity.
Qed.

(** C3.  After a successful [defineDynamic name f] the macro table holds,
    under [name], a function-like C99-variadic macro whose only parameter
    is [__VA_ARGS__] and whose body is the nine tokens
    [_CMONSTER_PRAGMA ( cmonster_pragma __VA_ARGS__ ) _Pragma ( "cmonster name" )]:
    the deferral primitive around the capture pragma with the variadic
    arguments, then the [_Pragma] string that names the handler of
    [name]. *)
Theorem defineDynamic_macro :
  forall name function st st',
    defineDynamic name function st = (Return true, st') ->
    exists m,
      getMacroInfo (getPreprocessor st') name = Some m
      /\ IsFunctionLike m = true
      /\ IsC99Varargs m = true
      /\ ArgumentList m = [Some "__VA_ARGS__"]
      /\ map token_shape (ReplacementTokens m) = dynamic_body name
      /\ map (fun t => Text t) (ReplacementTokens m)
         = [ "_CMONSTER_PRAGMA"; "("; "cmonster_pragma"; "__VA_ARGS__"; ")";
             "_Pragma"; "("; qualified_name name; ")" ].
Proof.
  intros name function st st' H. unfold defineDynamic in H.
  destruct function as [f|]; [|rewrite add_macro_function_null in H; discriminate H].
  destruct (getMacroInfo (getPreprocessor st) name) as [existing|] eqn:Hm.
  - rewrite (add_macro_function_conflict name f st existing Hm) in H. discriminate H.
  - destruct (add_macro_function_fresh name f st Hm)
      as (m & pp & Heq & _ & _ & Hf & Hv & _ & Ha & Hb).
    rewrite Heq in H. injection H as <-.
    exists m. split; [unfold getMacroInfo; simpl; apply lookup_insert_eq|].
    repeat (split; [assumption|]).
    assert (Ht : map (fun t => Text t) (ReplacementTokens m)
                 = map (fun s => snd (fst (fst s))) (map token_shape (ReplacementTokens m))).
    { rewrite map_map. reflexivity. }
    rewrite Ht, Hb. reflexivity.
Qed.

Lemma defineDynamic_macro_witness :
  exists m,
    getMacroInfo
      (getPreprocessor (snd (defineDynamic "F" (Some Toy.twice) Toy.st0))) "F" = Some m
    /\ map (fun t => Text t) (ReplacementTokens m)
       = [ "_CMONSTER_PRAGMA"; "("; "cmonster_pragma"; "__VA_ARGS__"; ")";
           "_Pragma"; "("; qualified_name "F"; ")" ].
Proof.
  assert (Hrun : defineDynamic "F" (Some Toy.twice) Toy.st0
                 = (Return true, snd (defineDynamic "F" (Some Toy.twice) Toy.st0))).
  { vm_compute. reflexivity. }
  destruct (defineDynamic_macro "F" (Some Toy.twice) Toy.st0
              (snd (defineDynamic "F" (Some Toy.twice) Toy.st0)) Hrun)
    as (m & Hm & _ & _ & _ & _ & Ht).
  exists m. split; [exact Hm | exact Ht].
Defined.

(** C2, as the specification states it: a registration under a name that
    is already in the macro table is answered by [false]. *)
Definition conflict_reported_as_false : Prop :=
  forall name function st,
    is_Some (getMacroInfo (getPreprocessor st) name) ->
    fst (defineDynamic name function st) = Return false.

(** C2, counterexample.  ["F"] is registered once; the second registration
    of ["F"] with a callback does not return [false], it throws. *)
Lemma defineDynamic_conflict_counterexample :
  let st1 := snd (defineDynamic "F" (Some Toy.twice) Toy.st0) in
  is_Some (getMacroInfo (getPreprocessor st1) "F")
  /\ fst (defineDynamic "F" (Some Toy.twice) st1)
     = Throw (runtime_error "Macro already defined")
  /\ fst (defineDynamic "F" (Some Toy.twice) st1) <> Return false
  /\ ~ conflict_reported_as_false.
Proof.
  intros st1.
  assert (Hs : is_Some (getMacroInfo (getPreprocessor st1) "F")).
  { eexists. vm_compute. reflexivity. }
  assert (Ht : fst (defineDynamic "F" (Some Toy.twice) st1)
               = Throw (runtime_error "Macro already defined")).
  { destruct Hs as [m Hm]. unfold defineDynamic.
    rewrite (add_macro_function_conflict "F" Toy.twice st1 m Hm). reflexivity. }
  split; [exact Hs|]. split; [exact Ht|].
  split; [rewrite Ht; discriminate|].
  intros Hsaid. specialize (Hsaid "F" (Some Toy.twice) st1 Hs).
  rewrite Ht in Hsaid. discriminate Hsaid.
Qed.

(** C2, amended.  [defineDynamic name callback] returns [false] exactly
    when the callback is unset, and then leaves the state alone; with a
    callback and a name already in the macro table (from [define] or from an
    earlier dynamic registration) it throws the runtime error "Macro already
    defined" instead of returning; it returns [true] exactly when the
    callback is set and the name is fresh. *)
Theorem defineDynamic_outcome :
  forall name function st,
    let r := defineDynamic name function st in
    (function = None -> r = (Return false, st))
    /\ (is_Some function -> is_Some (getMacroInfo (getPreprocessor st) name) ->
        fst r = Throw (runtime_error "Macro already defined"))
    /\ (fst r = Return true <->
        is_Some function /\ getMacroInfo (getPreprocessor st) name = None)
    /\ (fst r = Return false <-> function = None).
Proof.
  intros name function st r. subst r. unfold defineDynamic.
  destruct function as [f|].
  - destruct (getMacroInfo (getPreprocessor st) name) as [existing|] eqn:Hm.
    + rewrite (add_macro_function_conflict name f st existing Hm). simpl.
      split; [discriminate|]. split; [reflexivity|].
      split; split; try discriminate. intros [_ H]. discriminate H.
    + destruct (add_macro_function_fresh name f st Hm) as (m & pp & Heq & _).
      rewrite Heq. simpl.
      split; [discriminate|].
      split; [intros _ [x Hx]; discriminate Hx|].
      split; split; try discriminate; try reflexivity.
      intros _. split; [eexists; reflexivity | reflexivity].
  - rewrite add_macro_function_null. simpl.
    split; [reflexivity|].
    split; [intros [x Hx]; discriminate Hx|].
    split; split; try discriminate; try reflexivity.
    intros [[x Hx] _]. discriminate Hx.
Qed.

(** C10.  When [defineDynamic] is called with a callback for a name that is
    already bound to a macro, the handler of that name has been added to the
    ["cmonster"] namespace by the time the conflict is found: the call
    throws, and the state it leaves differs from the one it was given by
    exactly that registration. *)
Theorem defineDynamic_conflict_registers_handler :
  forall name f st existing,
    getMacroInfo (getPreprocessor st) name = Some existing ->
    let r := defineDynamic name (Some f) st in
    fst r = Throw (runtime_error "Macro already defined")
    /\ snd r = with_handler name f st
    /\ PragmaHandlers (getPreprocessor (snd r))
       = ("cmonster", Dynamic {| dyn_name := name; m_function := f |})
         :: PragmaHandlers (getPreprocessor st)
    /\ Macros (getPreprocessor (snd r)) = Macros (getPreprocessor st)
    /\ snd r <> st.
Proof.
  intros name f st existing Hex r. subst r. unfold defineDynamic.
  rewrite (add_macro_function_conflict name f st existing Hex). simpl.
  repeat (split; [reflexivity|]).
  intros Heq.
  apply (f_equal (fun s => length (PragmaHandlers (getPreprocessor s)))) in Heq.
  simpl in Heq. lia.
Qed.

Lemma defineDynamic_conflict_registers_handler_witness :
  let st1 := snd (define Toy.engine 5 "F" "x" Toy.st0) in
  is_Some (getMacroInfo (getPreprocessor st1) "F")
  /\ fst (defineDynamic "F" (Some Toy.twice) st1)
     = Throw (runtime_error "Macro already defined")
  /\ length (PragmaHandlers (getPreprocessor (snd (defineDynamic "F" (Some Toy.twice) st1))))
     = S (length (PragmaHandlers (getPreprocessor st1))).
Proof.
  intros st1.
  assert (Hs : exists m, getMacroInfo (getPreprocessor st1) "F" = Some m).
  { eexists. vm_compute. reflexivity. }
  destruct Hs as [m Hm].
  destruct (defineDynamic_conflict_registers_handler "F" Toy.twice st1 m Hm)
    as (Ht & _ & Hh & _).
  split; [exists m; exact Hm|]. split; [exact Ht|].
  rewrite Hh. reflexivity.
Defined.

(** * Properties that hold for every lexing engine *)

Section EngineProperties.

Variable E : LexingEngine.

(** The stream of [Lex]: the state after [n] calls and the token the
    next call returns. *)
Fixpoint after_lex (n : nat) (st : PreprocessorImpl) : PreprocessorImpl :=
  match n with
  | O => st
  | S k => after_lex k (snd (Lex E st))
  end.

Definition lexed (n : nat) (st : PreprocessorImpl) : clang_Token :=
  fst (Lex E (after_lex n st)).

Lemma after_lex_S n : forall st,
  after_lex (S n) st = snd (Lex E (after_lex n st)).
Proof.
  induction n as [|n IH]; intros st; [reflexivity|].
  change (after_lex (S (S n)) st) with (after_lex (S n) (snd (Lex E st))).
  rewrite IH. reflexivity.
Qed.

(** ** C4: the handler of a dynamic macro *)

(** The directive is read up to and including its first [eod]. *)
Lemma discard_directive_eod n : forall st fuel,
  (forall i, (i < n)%nat -> Kind (lexed i st) <> tok.eod) ->
  Kind (lexed n st) = tok.eod ->
  (n < fuel)%nat ->
  discard_directive E fuel st = Some (after_lex (S n) st).
Proof.
  induction n as [|n IH]; intros st fuel Hbefore Hat Hfuel;
    (destruct fuel as [|fuel]; [lia|]); simpl.
  - unfold lexed in Hat. simpl in Hat.
    destruct (Lex E st) as [token st1] eqn:HL. simpl in *.
    unfold isNot, is_. rewrite (bool_decide_eq_true_2 _ Hat). reflexivity.
  - assert (H0 := Hbefore 0%nat ltac:(lia)).
    unfold lexed in H0. simpl in H0.
    destruct (Lex E st) as [token st1] eqn:HL. simpl in *.
    unfold isNot, is_. rewrite (bool_decide_eq_false_2 _ H0). simpl.
    rewrite (IH st1 fuel); [reflexivity | | | lia].
    + intros i Hi. specialize (Hbefore (S i) ltac:(lia)).
      unfold lexed in *. simpl in Hbefore. rewrite HL in Hbefore. exact Hbefore.
    + unfold lexed in *. simpl in Hat. rewrite HL in Hat. exact Hat.
Qed.

Lemma foldl_insert_lookup {B} (g : nat -> B) : forall (n k : nat) (a : list B) (j : nat),
  foldl (fun a i => <[i := g i]> a) a (seq k n) !! j
  = if decide ((k <= j < k + n)%nat /\ (j < length a)%nat)
    then Some (g j) else a !! j.
Proof.
  induction n as [|n IH]; intros k a j; simpl.
  - case_decide; [lia | reflexivity].
  - rewrite IH, length_insert.
    destruct (decide (k = j)) as [->|Hne].
    + case_decide; case_decide; try lia; try reflexivity.
      * apply list_lookup_insert_eq. lia.
      * destruct (decide (j < length a)%nat) as [Hlt|Hge]; [lia|].
        rewrite list_insert_ge by lia. reflexivity.
    + rewrite list_lookup_insert_ne by exact Hne.
      case_decide; case_decide; try lia; reflexivity.
Qed.

(** What the handler enters: the result tokens, each but the first with
    the leading-space flag. *)
Definition leading_space_after_first (result : list Token) : list clang_Token :=
  match result with
  | [] => []
  | r :: rs => getToken r :: map (fun x => setFlag (getToken x) Flag.LeadingSpace) rs
  end.

Lemma result_tokens_spec (result : list Token) :
  result_tokens result = leading_space_after_first result.
Proof.
  destruct result as [|r rs]; [reflexivity|].
  apply list_eq. intros j. unfold result_tokens.
  rewrite (foldl_insert_lookup
             (fun i => setFlag (getToken (default (mkToken startToken) ((r :: rs) !! i)))
                         Flag.LeadingSpace)).
  rewrite length_insert, length_replicate.
  simpl length. replace (S (length rs) - 1)%nat with (length rs) by lia.
  destruct j as [|j].
  - case_decide; [lia|]. reflexivity.
  - simpl. rewrite list_lookup_fmap.
    destruct (rs !! j) as [x|] eqn:Hx.
    + apply lookup_lt_Some in Hx as Hlt.
      case_decide; [|lia]. reflexivity.
    + apply lookup_ge_None in Hx as Hge.
      case_decide; [lia|]. simpl.
      apply lookup_ge_None. rewrite length_replicate. lia.
Qed.

Lemma setFlag_LeadingSpace t : hasLeadingSpace (setFlag t Flag.LeadingSpace) = true.
Proof.
  unfold hasLeadingSpace, setFlag, Flag.LeadingSpace. cbn [Flags].
  rewrite Z.lor_spec. change (Z.testbit 2 1) with true. apply orb_true_r.
Qed.

(** C4.  When the handler of a dynamic macro fires on a directive whose
    [n+1]-th token is its first [eod]: it reads the directive up to and
    including that [eod]; it calls the callback on the tokens then in the
    mailbox; when the callback returns no token the state is the one left
    by reading the directive; otherwise the callback's tokens are entered
    as a token stream at the front of the pending input, the first as
    returned and each later one with the leading-space flag set. *)
Theorem Dynamic_HandlePragma_fires :
  forall (h : DynamicPragmaHandler) (st : PreprocessorImpl) (n fuel : nat)
         (result : list Token),
    (forall i, (i < n)%nat -> Kind (lexed i st) <> tok.eod) ->
    Kind (lexed n st) = tok.eod ->
    (n < fuel)%nat ->
    let st1 := after_lex (S n) st in
    m_function h (tokens (token_saver st1)) = Return result ->
    let r := Dynamic_HandlePragma E fuel h st in
    fst r = Return tt
    /\ (result = [] -> snd r = st1)
    /\ (result <> [] ->
        snd r = set_PP st1
                  (EnterTokenStream (getPreprocessor st1)
                     (leading_space_after_first result)
                     (Z.of_nat (length result)) false true)
        /\ IncludeMacroStack (getPreprocessor (snd r))
           = TokenStream {| Tokens := leading_space_after_first result;
                            DisableMacroExpansion := false;
                            OwnsTokens := true |}
             :: IncludeMacroStack (getPreprocessor st1))
    /\ head (leading_space_after_first result) = getToken <$> head result
    /\ (forall i t, leading_space_after_first result !! S i = Some t ->
          exists x, result !! S i = Some x
                    /\ t = setFlag (getToken x) Flag.LeadingSpace
                    /\ hasLeadingSpace t = true).
Proof.
  intros h st n fuel result Hbefore Hat Hfuel st1 Hcall r. subst r.
  unfold Dynamic_HandlePragma.
  rewrite (discard_directive_eod n st fuel Hbefore Hat Hfuel).
  fold st1. rewrite Hcall.
  destruct result as [|x xs].
  - simpl. split; [reflexivity|]. split; [reflexivity|].
    split; [intros H; contradiction|]. split; [reflexivity|].
    intros i t H. discriminate H.
  - rewrite bool_decide_eq_false_2 by discriminate. cbn [negb].
    rewrite result_tokens_spec. cbn [fst snd].
    split; [reflexivity|]. split; [discriminate|].
    split.
    { intros _. split; [reflexivity|].
      unfold set_PP, getPreprocessor, EnterTokenStream.
      cbn [PP compiler IncludeMacroStack].
      rewrite Nat2Z.id, firstn_all2; [reflexivity|].
      simpl. rewrite length_map. lia. }
    split; [reflexivity|].
    intros i t Ht. simpl in Ht. rewrite list_lookup_fmap in Ht.
    simpl. destruct (xs !! i) as [y|]; [|discriminate Ht].
    simpl in Ht. injection Ht as <-.
    exists y. split; [reflexivity|]. split; [reflexivity|].
    apply setFlag_LeadingSpace.
Qed.

(** ** C5: the token stream iterator *)

(** [n] calls of [next], with the tokens they return. *)
Fixpoint nexts (n : nat) (it : TokenIteratorImpl) (st : PreprocessorImpl)
  : list Token * TokenIteratorImpl * PreprocessorImpl :=
  match n with
  | O => ([], it, st)
  | S k =>
      let '(t, it, st) := next E it st in
      let '(ts, it, st) := nexts k it st in
      (t :: ts, it, st)
  end.

Lemma next_spec it st :
  next E it st
  = (mkToken (m_next it),
     {| m_current := mkToken (m_next it); m_next := fst (Lex E st) |},
     snd (Lex E st)).
Proof. unfold next. destruct (Lex E st). reflexivity. Qed.

(** An iterator that stands at position [k] of the stream of [s0]: its
    lookahead is the [k]-th token and the engine has been asked for
    [k + 1] tokens. *)
Definition at_position (s0 : PreprocessorImpl) (k : nat)
    (it : TokenIteratorImpl) (st : PreprocessorImpl) : Prop :=
  m_next it = lexed k s0 /\ st = after_lex (S k) s0.

Lemma nexts_from_position s0 n : forall k it st,
  at_position s0 k it st ->
  let '(ts, it', st') := nexts n it st in
  map getToken ts = map (fun i => lexed i s0) (seq k n)
  /\ at_position s0 (k + n) it' st'.
Proof.
  induction n as [|n IH]; intros k it st [Hn Hs].
  - simpl. rewrite Nat.add_0_r. repeat split; assumption.
  - simpl. rewrite next_spec.
    assert (Hpos : at_position s0 (S k)
                     {| m_current := mkToken (m_next it); m_next := fst (Lex E st) |}
                     (snd (Lex E st))).
    { split; cbn [m_next].
      - unfold lexed. rewrite Hs. reflexivity.
      - rewrite (after_lex_S (S k)), Hs. reflexivity. }
    specialize (IH (S k) _ _ Hpos).
    destruct (nexts n _ (snd (Lex E st))) as [[ts it'] st'].
    destruct IH as [Hts Hat].
    simpl. rewrite Hts, Hn. split; [reflexivity|].
    replace (k + S n)%nat with (S k + n)%nat by lia. exact Hat.
Qed.

(** C5.  [create_iterator] enters the main input and fetches the first
    token into the lookahead; [has_next] holds exactly when the lookahead
    is not the end-of-input token; [next] returns the token that was the
    lookahead and fetches the following one with [Lex], the expanding
    lexer; so the [n] first calls of [next] return the [n] first tokens of
    the expanded stream in order, each once, and the iterator only ever
    moves forward. *)
Theorem iterator_one_token_lookahead :
  forall (st : PreprocessorImpl) (n : nat),
    let s0 := EnterMainSourceFile E st in
    let it0 := fst (create_iterator E st) in
    let st0 := snd (create_iterator E st) in
    m_next it0 = fst (Lex E s0)
    /\ st0 = snd (Lex E s0)
    /\ (forall it, has_next it = true <-> Kind (m_next it) <> tok.eof)
    /\ (forall it st',
          fst (fst (next E it st')) = mkToken (m_next it)
          /\ m_next (snd (fst (next E it st'))) = fst (Lex E st')
          /\ snd (next E it st') = snd (Lex E st'))
    /\ map getToken (fst (fst (nexts n it0 st0)))
       = map (fun i => lexed i s0) (seq 0 n)
    /\ m_next (snd (fst (nexts n it0 st0))) = lexed n s0
    /\ snd (nexts n it0 st0) = after_lex (S n) s0.
Proof.
  intros st n s0 it0 st0.
  assert (Hc : create_iterator E st
               = ({| m_current := mkToken startToken; m_next := fst (Lex E s0) |},
                  snd (Lex E s0))).
  { unfold create_iterator, TokenIteratorImpl_new. fold s0.
    destruct (Lex E s0). reflexivity. }
  subst it0 st0. rewrite Hc. cbn [fst snd m_next].
  split; [reflexivity|]. split; [reflexivity|].
  split.
  { intros it. unfold has_next, isNot, is_.
    rewrite negb_true_iff, bool_decide_eq_false. reflexivity. }
  split.
  { intros it st'. rewrite next_spec. repeat split. }
  assert (Hpos : at_position s0 0
                   {| m_current := mkToken startToken; m_next := fst (Lex E s0) |}
                   (snd (Lex E s0))).
  { split; reflexivity. }
  pose proof (nexts_from_position s0 n 0 _ _ Hpos) as H.
  destruct (nexts n _ (snd (Lex E s0))) as [[ts it'] st'].
  destruct H as [Hts [Hn Hs]]. simpl in *.
  repeat split; assumption.
Qed.

(** ** The loop of [tokenize] *)

(** One turn of the loop of [tokenize]: whether it goes on, and the
    token it then lexes; both lookaheads are calls to the engine. *)
Definition tokenize_continues (fid : FileID) (st : PreprocessorImpl) : bool :=
  let '(la, st) := LookAhead E 0 st in
  isNot la tok.eof
  && (let '(la, st) := LookAhead E 0 st in
      bool_decide (getFileID E (getSourceManager st) (getLocation la) = fid)).

Definition tokenize_lexes (st : PreprocessorImpl) : clang_Token * PreprocessorImpl :=
  LexUnexpandedToken E (snd (LookAhead E 0 (snd (LookAhead E 0 st)))).

Fixpoint tokenize_state (n : nat) (st : PreprocessorImpl) : PreprocessorImpl :=
  match n with
  | O => st
  | S k => tokenize_state k (snd (tokenize_lexes st))
  end.

Definition tokenize_token (n : nat) (st : PreprocessorImpl) : clang_Token :=
  fst (tokenize_lexes (tokenize_state n st)).

(** Identifiers are interned by name, so giving a token the identifier
    of the same name from the other table leaves it as it is. *)
Lemma reintern_same (fresh : bool) (old_pp : Preprocessor) (t : clang_Token) :
  (if fresh && isAnyIdentifier t then
     match IdentInfo t with
     | Some II => setIdentifierInfo t (getIdentifierInfo old_pp II)
     | None => t
     end
   else t) = t.
Proof.
  destruct (fresh && isAnyIdentifier t); [|reflexivity].
  destruct t as [k f l x [ii|]]; reflexivity.
Qed.

Lemma tokenize_loop_collects fresh old_pp fid n : forall st fuel acc,
  (forall i, (i < n)%nat -> tokenize_continues fid (tokenize_state i st) = true) ->
  tokenize_continues fid (tokenize_state n st) = false ->
  (n < fuel)%nat ->
  fst (tokenize_loop E fuel fresh old_pp fid st acc)
  = Return (acc ++ map (fun i => mkToken (tokenize_token i st)) (seq 0 n)).
Proof.
  induction n as [|n IH]; intros st fuel acc Hgo Hstop Hfuel;
    (destruct fuel as [|fuel]; [lia|]).
  - simpl in Hstop. unfold tokenize_continues in Hstop.
    cbn [tokenize_loop].
    destruct (LookAhead E 0 st) as [la st1].
    destruct (isNot la tok.eof); [|simpl; rewrite app_nil_r; reflexivity].
    destruct (LookAhead E 0 st1) as [la2 st2].
    simpl in Hstop. rewrite Hstop. simpl. rewrite app_nil_r. reflexivity.
  - assert (H0 := Hgo 0%nat ltac:(lia)). simpl in H0.
    unfold tokenize_continues in H0. cbn [tokenize_loop].
    assert (Hstep : snd (tokenize_lexes st)
                    = snd (LexUnexpandedToken E
                             (snd (LookAhead E 0 (snd (LookAhead E 0 st))))))
      by reflexivity.
    assert (Htok : tokenize_token 0 st
                   = fst (LexUnexpandedToken E
                            (snd (LookAhead E 0 (snd (LookAhead E 0 st))))))
      by reflexivity.
    destruct (LookAhead E 0 st) as [la st1].
    apply andb_true_iff in H0 as [Heof Hfid]. rewrite Heof.
    simpl in Hstep, Htok.
    destruct (LookAhead E 0 st1) as [la2 st2]. rewrite Hfid.
    simpl in Hstep, Htok.
    destruct (LexUnexpandedToken E st2) as [t st3]. simpl in Hstep, Htok.
    rewrite reintern_same.
    rewrite (IH st3 fuel (acc ++ [mkToken t])); [| | |lia].
    + rewrite <- app_assoc. simpl. rewrite <- seq_shift, map_map.
      rewrite Htok.
      assert (Hshift : forall i, tokenize_token (S i) st = tokenize_token i st3).
      { intros i. unfold tokenize_token. simpl. rewrite Hstep. reflexivity. }
      f_equal. f_equal. f_equal. apply map_ext. intros i. rewrite Hshift. reflexivity.
    + intros i Hi. specialize (Hgo (S i) ltac:(lia)). simpl in Hgo.
      rewrite Hstep in Hgo. exact Hgo.
    + simpl in Hstop. rewrite Hstep in Hstop. exact Hstop.
Qed.

(** The temporary preprocessor does not outlive [tokenize]: when the
    main input has not been entered, the preprocessor (and its macro
    table) after the call is the one before it. *)
Lemma tokenize_restores fuel s len st :
  depth (file_change_callback st) = 0 ->
  getPreprocessor (snd (tokenize E fuel s len st)) = getPreprocessor st.
Proof.
  intros Hd. unfold tokenize. cbn zeta. destruct s as [s|]; [|reflexivity].
  destruct (wrap64 len =? 0); [reflexivity|].
  unfold tokenize_enter. rewrite Hd. cbn [Z.eqb negb andb].
  cbn zeta. cbn [createFileIDForMemBuffer].
  match goal with |- context [tokenize_loop E fuel true ?p ?f ?s ?a] =>
    destruct (tokenize_loop E fuel true p f s a) as [r st'] end.
  reflexivity.
Qed.

(** What [tokenize] collects, for every engine.  [tokenize] of no
    characters returns no token and changes nothing.  Otherwise the
    characters are registered under a new file id and that file is
    entered; when it was entered, and the loop meets its first lookahead
    that is the end of input or comes from another file after [n] turns,
    the result is the [n] tokens that the calls of [LexUnexpandedToken]
    returned in those turns, each made after the two calls of
    [LookAhead]. *)
Lemma tokenize_collects :
  forall (fuel : nat) (s : char_ptr) (len : Z) (st : PreprocessorImpl) (n : nat),
    tokenize E fuel (Some (c_str EmptyString)) (str.size EmptyString) st = (Return [], st)
    /\ tokenize E fuel (Some s) 0 st = (Return [], st)
    /\ tokenize E fuel None len st = (Return [], st)
    /\ let fresh := fst (fst (fst (fst (tokenize_enter E s (wrap64 len) st)))) in
       let fid := snd (fst (fst (tokenize_enter E s (wrap64 len) st))) in
       let old_depth := snd (fst (tokenize_enter E s (wrap64 len) st)) in
       let st1 := snd (tokenize_enter E s (wrap64 len) st) in
       (wrap64 len <> 0 ->
        fresh = true \/ old_depth < depth (file_change_callback st1) ->
        (forall i, (i < n)%nat ->
           tokenize_continues fid (tokenize_state i st1) = true) ->
        tokenize_continues fid (tokenize_state n st1) = false ->
        (n < fuel)%nat ->
        fst (tokenize E fuel (Some s) len st)
        = Return (map (fun i => mkToken (tokenize_token i st1)) (seq 0 n))).
Proof.
  intros fuel s len st n.
  split; [reflexivity|]. split; [reflexivity|]. split; [reflexivity|].
  intros fresh fid old_depth st1 Hlen Hentered Hgo Hstop Hfuel.
  unfold tokenize. cbn zeta. rewrite (proj2 (Z.eqb_neq (wrap64 len) 0) Hlen).
  subst fresh fid old_depth st1.
  destruct (tokenize_enter E s (wrap64 len) st) as [[[[fresh old_pp] fid] old_depth] st1].
  cbn [fst snd] in *.
  assert (Hb : negb fresh && (depth (file_change_callback st1) <=? old_depth) = false).
  { destruct Hentered as [-> | Hlt]; [reflexivity|].
    rewrite (proj2 (Z.leb_gt _ _) Hlt). apply andb_false_r. }
  rewrite Hb.
  pose proof (tokenize_loop_collects fresh old_pp fid n st1 fuel [] Hgo Hstop Hfuel) as H.
  destruct (tokenize_loop E fuel fresh old_pp fid st1 []) as [r st2].
  simpl in H. simpl. exact H.
Qed.

(** [define] tokenizes its value: the characters read through [c_str]
    over the length of the string are the string. *)
Lemma StringRef_c_str (s : string) : StringRef (c_str s) (str.size s) = s.
Proof.
  unfold StringRef, str.size. rewrite Nat2Z.id.
  induction s as [|c s IH]; [reflexivity|].
  cbn [String.length seq map string_of_list_ascii].
  change (c_str (String c s) (Z.of_nat 0)) with c. f_equal.
  rewrite <- seq_shift, map_map.
  etransitivity; [|exact IH]. f_equal.
  apply map_ext. intros i. unfold c_str, str.at_.
  rewrite !Nat2Z.id. reflexivity.
Qed.

(** ** C7: format *)

Lemma size_nonneg (s : string) : 0 <= str.size s.
Proof. unfold str.size. lia. Qed.


Lemma append_nil_r (s : string) : s +:+ EmptyString = s.
Proof.
  induction s as [|c s IH]; [reflexivity|]. exact (f_equal (String c) IH).
Qed.

Lemma append_assoc (a b c : string) : (a +:+ b) +:+ c = a +:+ (b +:+ c).
Proof.
  induction a as [|x a IH]; [reflexivity|]. exact (f_equal (String x) IH).
Qed.

Lemma format_loop_snoc sm out toks t :
  format_loop E sm out (toks ++ [t]) = format_step E sm (format_loop E sm out toks) t.
Proof. unfold format_loop. rewrite foldl_app. reflexivity. Qed.

(** The formatter as §4.5 of the specification words it.  The cursor is
    a line, "not yet started" until a token has been placed, and a
    column. *)
Definition layout_step (sm : SourceManager) (acc : string * option Z * Z) (token : Token)
  : string * option Z * Z :=
  let '(out, cursor_line, cursor_column) := acc in
  let ploc := getPresumedLoc E sm (getLocation (getToken token)) in
  if isValid ploc then
    let line := getLine ploc in
    let column := getColumn ploc in
    let '(out, cursor_line, cursor_column) :=
      match cursor_line with
      | None => (out, Some line, cursor_column)
      | Some l =>
          if l <? line
          then (out +:+ str.fill (Z.to_nat (line - l)) newline, Some line, 1)
          else (out, Some l, cursor_column)
      end in
    let '(out, cursor_column) :=
      if cursor_column <? column
      then (out +:+ str.fill (Z.to_nat (column - cursor_column)) space, column)
      else (out, cursor_column) in
    (out +:+ spelling token, cursor_line, cursor_column + str.size (spelling token))
  else acc.

Definition layout (sm : SourceManager) (out : string) (tokens : list Token)
  : string * option Z * Z :=
  foldl (layout_step sm) (out, None, 1) tokens.

(** Lines are 1-based: a location that resolves has a line from [1] on. *)
Definition one_based (sm : SourceManager) (tokens : list Token) : bool :=
  forallb (fun t => let p := getPresumedLoc E sm (getLocation (getToken t)) in
                    negb (isValid p) || (1 <=? getLine p)) tokens.

(** The column cursor stays an [unsigned int] along the walk. *)
Fixpoint columns_fit (sm : SourceManager) (acc : string * option Z * Z)
    (tokens : list Token) : bool :=
  match tokens with
  | [] => true
  | t :: rest =>
      let acc := layout_step sm acc t in
      (snd acc <? 2 ^ 32) && columns_fit sm acc rest
  end.

(** The cursor of the code stands for the cursor of the layout: line [0]
    is "not yet started". *)
Definition cursor_of (acc : string * option Z * Z) : string * Z * Z :=
  (fst (fst acc), default 0 (snd (fst acc)), snd acc).

Definition started_from_1 (acc : string * option Z * Z) : Prop :=
  1 <= snd acc /\ forall l, snd (fst acc) = Some l -> 1 <= l.

Lemma format_step_layout sm acc t :
  started_from_1 acc ->
  one_based sm [t] = true ->
  snd (layout_step sm acc t) < 2 ^ 32 ->
  format_step E sm (cursor_of acc) t = cursor_of (layout_step sm acc t)
  /\ started_from_1 (layout_step sm acc t).
Proof.
  destruct acc as [[o l] c]. unfold started_from_1, cursor_of, one_based.
  cbn [fst snd forallb]. intros [Hc Hl] Hone Hfit.
  rewrite andb_true_r in Hone. cbn zeta in Hone.
  unfold format_step, layout_step in *.
  destruct (isValid (getPresumedLoc E sm (getLocation (getToken t)))); [|auto].
  cbn [negb orb] in Hone. apply Z.leb_le in Hone.
  set (line := getLine (getPresumedLoc E sm (getLocation (getToken t)))) in *.
  set (column := getColumn (getPresumedLoc E sm (getLocation (getToken t)))) in *.
  pose proof (size_nonneg (spelling t)) as Hs.
  unfold getLength. fold (spelling t).
  rewrite !Z.gtb_ltb.
  assert (Hstart : (0 <? default 0 l) = match l with Some _ => true | None => false end).
  { destruct l as [l|]; [|reflexivity]. apply Z.ltb_lt. specialize (Hl l eq_refl).
    cbn. lia. }
  rewrite Hstart. clear Hstart.
  destruct l as [l|]; cbn [default from_option]; unfold id.
  - specialize (Hl l eq_refl).
    destruct (l <? line) eqn:Hlt; cbn beta iota zeta in Hfit |- *;
      rewrite ?Z.gtb_ltb;
      match goal with |- context [?a <? column] => destruct (a <? column) eqn:Hcol end;
      cbn beta iota zeta in Hfit |- *; cbn [fst snd] in Hfit |- *;
      (apply Z.ltb_lt in Hcol || apply Z.ltb_ge in Hcol);
      apply Z.ltb_lt in Hlt || apply Z.ltb_ge in Hlt;
      unfold wrap32; rewrite Z.mod_small by lia;
      (split; [reflexivity|]); (split; [lia|]); intros l' [= <-]; lia.
  - assert (Hlt : (0 <? line) = true) by (apply Z.ltb_lt; lia).
    rewrite Hlt. cbn beta iota zeta in Hfit |- *. rewrite ?Z.gtb_ltb.
    destruct (c <? column) eqn:Hcol;
      cbn beta iota zeta in Hfit |- *; cbn [fst snd] in Hfit |- *;
      (apply Z.ltb_lt in Hcol || apply Z.ltb_ge in Hcol);
      unfold wrap32; rewrite Z.mod_small by lia;
      (split; [reflexivity|]); (split; [lia|]); intros l' [= <-]; lia.
Qed.

Lemma format_loop_layout sm (tokens : list Token) : forall acc,
  started_from_1 acc ->
  one_based sm tokens = true ->
  columns_fit sm acc tokens = true ->
  foldl (format_step E sm) (cursor_of acc) tokens
  = cursor_of (foldl (layout_step sm) acc tokens).
Proof.
  induction tokens as [|t tokens IH]; intros acc Hacc Hone Hfit; [reflexivity|].
  cbn [foldl]. cbn [columns_fit] in Hfit. cbn zeta in Hfit.
  apply andb_true_iff in Hfit as [Hfit Hrest]. apply Z.ltb_lt in Hfit.
  unfold one_based in Hone. cbn [forallb] in Hone.
  apply andb_true_iff in Hone as [Ht Hone].
  destruct (format_step_layout sm acc t Hacc) as [Hstep Hinv];
    [unfold one_based; cbn [forallb]; rewrite Ht; reflexivity | exact Hfit |].
  rewrite Hstep. apply IH; assumption.
Qed.

Definition resolved (sm : SourceManager) (t : Token) : bool :=
  isValid (getPresumedLoc E sm (getLocation (getToken t))).

Lemma layout_step_started sm acc t :
  snd (fst (layout_step sm acc t)) = None
  <-> snd (fst acc) = None /\ resolved sm t = false.
Proof.
  destruct acc as [[o l] c]. unfold layout_step, resolved. cbn [fst snd].
  destruct (isValid _); cbn [fst snd]; [|tauto].
  destruct l as [l|].
  - destruct (l <? _); destruct (_ <? _); cbn [fst snd];
      split; (discriminate || (intros [H _]; discriminate H)).
  - destruct (_ <? _); cbn [fst snd];
      split; (discriminate || (intros [_ H]; discriminate H)).
Qed.

Lemma layout_started sm (tokens : list Token) : forall acc,
  snd (fst (foldl (layout_step sm) acc tokens)) = None
  <-> snd (fst acc) = None /\ forallb (fun t => negb (resolved sm t)) tokens = true.
Proof.
  induction tokens as [|t tokens IH]; intros acc; cbn [foldl forallb].
  - tauto.
  - rewrite IH, layout_step_started, andb_true_iff, negb_true_iff. tauto.
Qed.

(** C7.  [format] walks the tokens in order as the specification says.
    The cursor starts as "not yet started", column [1].  A token whose
    presumed location does not resolve writes nothing and leaves the
    cursor.  For a token that resolves to [(line, column)]: when the cursor
    has a line and [line] exceeds it, [line - cursorLine] newlines are
    written and the column cursor returns to [1]; the cursor takes the
    line (the first token placed starts the cursor and brings no newline);
    when [column] exceeds the column cursor, that many spaces are written;
    then the spelling is written and the column cursor advances by its
    length.  This holds for 1-based lines and as long as the column cursor
    stays below [2^32]; the line [0] of the code is the cursor that has not
    started, which it is exactly as long as no token has resolved. *)
Theorem format_layout :
  forall (st : PreprocessorImpl) (out : string) (tokens : list Token),
    let sm := getSourceManager st in
    one_based sm tokens = true ->
    columns_fit sm (out, None, 1) tokens = true ->
    format_loop E sm out tokens = cursor_of (layout sm out tokens)
    /\ format E st out tokens = fst (fst (layout sm out tokens))
    /\ (snd (fst (layout sm out tokens)) = None <->
        forallb (fun t => negb (resolved sm t)) tokens = true)
    /\ forall acc t, resolved sm t = false -> layout_step sm acc t = acc.
Proof.
  intros st out tokens sm Hone Hfit.
  assert (H0 : started_from_1 (out, None, 1)).
  { split; [cbn; lia | intros l Hl; discriminate Hl]. }
  pose proof (format_loop_layout sm tokens (out, None, 1) H0 Hone Hfit) as Hloop.
  change (foldl (format_step E sm) (cursor_of (out, None, 1)) tokens)
    with (format_loop E sm out tokens) in Hloop.
  fold (layout sm out tokens) in Hloop.
  split; [exact Hloop|].
  split; [unfold format; fold sm; rewrite Hloop; reflexivity|].
  split.
  - unfold layout. rewrite layout_started. cbn [fst snd]. tauto.
  - intros [[o l] c] t Hv. unfold layout_step, resolved in *. rewrite Hv. reflexivity.
Qed.

End EngineProperties.

Lemma format_layout_witness :
  let ghost := mkToken startToken in
  format Toy.engine Toy.st0 EmptyString
    [Toy.ident "int" 3 1; ghost; Toy.ident "x" 3 5; Toy.ident "y" 5 3]
  = "int x" +:+ String newline (String newline "  y").
Proof.
  intros ghost.
  destruct (format_layout Toy.engine Toy.st0 EmptyString
              [Toy.ident "int" 3 1; ghost; Toy.ident "x" 3 5; Toy.ident "y" 5 3])
    as (_ & H & _).
  - vm_compute. reflexivity.
  - vm_compute. reflexivity.
  - rewrite H. vm_compute. reflexivity.
Defined.

Example format_two_lines :
  format Toy.engine Toy.st0 EmptyString
    [Toy.ident "int" 3 1; Toy.ident "x" 3 5; Toy.ident "y" 5 3]
  = "int x" +:+ String newline (String newline "  y").
Proof. vm_compute. reflexivity. Qed.

(** ** The signatures [define] refuses *)

Lemma add_macro_definition_returns name value_tokens args is_function st e :
  fst (add_macro_definition name value_tokens args is_function st) <> Throw e.
Proof.
  unfold add_macro_definition.
  destruct (getMacroInfo _ _); discriminate.
Qed.

Lemma get_drop (n : nat) : forall (s : string) (i : nat),
  String.get i (str.drop n s) = String.get (n + i) s.
Proof.
  induction n as [|n IH]; intros s i; [reflexivity|].
  destruct s as [|c s]; simpl.
  - destruct i; reflexivity.
  - apply IH.
Qed.

Lemma get_lt (s : string) : forall i : nat,
  (i < String.length s)%nat -> exists c, String.get i s = Some c.
Proof.
  induction s as [|c s IH]; intros i Hi; simpl in Hi; [lia|].
  destruct i as [|i]; simpl; [eauto|]. apply IH. lia.
Qed.

Lemma get_Some_lt (s : string) : forall (i : nat) c,
  String.get i s = Some c -> (i < String.length s)%nat.
Proof.
  induction s as [|d s IH]; intros i c H; simpl in *; [discriminate|].
  destruct i as [|i]; [lia|]. apply IH in H. lia.
Qed.

Lemma find_from_Some (c : ascii) (s : string) : forall (i k : nat),
  str.find_from c s i = Some k ->
  (i <= k)%nat /\ String.get (k - i) s = Some c
  /\ forall j, (j < k - i)%nat -> String.get j s <> Some c.
Proof.
  induction s as [|d s IH]; intros i k H; simpl in H; [discriminate|].
  destruct (Ascii.eqb d c) eqn:Hd.
  - injection H as <-. apply Ascii.eqb_eq in Hd as ->.
    rewrite Nat.sub_diag. split; [lia|]. split; [reflexivity|]. intros j Hj. lia.
  - apply IH in H as (Hle & Hget & Hbefore).
    split; [lia|].
    replace (k - i)%nat with (S (k - S i)) by lia. simpl.
    split; [exact Hget|].
    intros [|j] Hj; simpl.
    + intros [= ->]. rewrite Ascii.eqb_refl in Hd. discriminate.
    + apply Hbefore. lia.
Qed.

Lemma find_from_None (c : ascii) (s : string) : forall (i j : nat),
  str.find_from c s i = None -> String.get j s <> Some c.
Proof.
  induction s as [|d s IH]; intros i j H; simpl in *.
  - destruct j; discriminate.
  - destruct (Ascii.eqb d c) eqn:Hd; [discriminate|].
    destruct j as [|j]; simpl.
    + intros [= ->]. rewrite Ascii.eqb_refl in Hd. discriminate.
    + eapply IH. exact H.
Qed.

Lemma at_get (s : string) (i : Z) (c : ascii) :
  String.get (Z.to_nat i) s = Some c -> str.at_ s i = c.
Proof. unfold str.at_. intros ->. reflexivity. Qed.

Lemma find_Some (s : string) (c : ascii) (pos k : Z) :
  0 <= pos ->
  str.find s c pos = Some k ->
  pos <= k < str.size s /\ str.at_ s k = c
  /\ forall j, pos <= j < k -> str.at_ s j <> c.
Proof.
  intros Hpos H. unfold str.find in H.
  destruct (str.find_from c (str.drop (Z.to_nat pos) s) (Z.to_nat pos)) as [k'|] eqn:Hf;
    [|discriminate].
  simpl in H. injection H as <-.
  apply find_from_Some in Hf as (Hle & Hget & Hbefore).
  rewrite get_drop in Hget.
  replace (Z.to_nat pos + (k' - Z.to_nat pos))%nat with k' in Hget by lia.
  pose proof (get_Some_lt _ _ _ Hget) as Hlt.
  split; [unfold str.size; lia|].
  split; [apply at_get; rewrite Nat2Z.id; exact Hget|].
  intros j Hj Hc.
  apply (Hbefore (Z.to_nat j - Z.to_nat pos)%nat); [lia|].
  rewrite get_drop.
  replace (Z.to_nat pos + (Z.to_nat j - Z.to_nat pos))%nat with (Z.to_nat j) by lia.
  destruct (get_lt s (Z.to_nat j) ltac:(lia)) as [d Hd].
  rewrite Hd. f_equal. apply at_get in Hd. congruence.
Qed.

Lemma find_None (s : string) (c : ascii) (pos : Z) :
  0 <= pos ->
  str.find s c pos = None ->
  forall j, pos <= j < str.size s -> str.at_ s j <> c.
Proof.
  intros Hpos H j Hj Hc. unfold str.find in H.
  destruct (str.find_from c (str.drop (Z.to_nat pos) s) (Z.to_nat pos)) as [k'|] eqn:Hf;
    [discriminate|].
  apply (find_from_None _ _ _ (Z.to_nat j - Z.to_nat pos)%nat) in Hf.
  apply Hf. rewrite get_drop.
  replace (Z.to_nat pos + (Z.to_nat j - Z.to_nat pos))%nat with (Z.to_nat j) by lia.
  unfold str.size in Hj.
  destruct (get_lt s (Z.to_nat j) ltac:(lia)) as [d Hd].
  rewrite Hd. f_equal. apply at_get in Hd. congruence.
Qed.

(** [skip_spaces] stops at the first character that is not a space, or at
    [rparen]. *)
Lemma skip_spaces_spec (name : string) (rparen : Z) : forall (fuel : nat) (start : Z),
  start <= rparen ->
  (Z.to_nat (rparen - start) <= fuel)%nat ->
  let s' := skip_spaces fuel name start rparen in
  start <= s' <= rparen
  /\ (forall i, start <= i < s' -> str.at_ name i = space)
  /\ (s' < rparen -> str.at_ name s' <> space).
Proof.
  induction fuel as [|fuel IH]; intros start Hle Hfuel; simpl.
  - split; [lia|]. split; intros; lia.
  - destruct (start <? rparen) eqn:Hlt; simpl.
    + apply Z.ltb_lt in Hlt.
      destruct (Ascii.eqb (str.at_ name start) space) eqn:Hsp.
      * apply Ascii.eqb_eq in Hsp.
        destruct (IH (start + 1) ltac:(lia) ltac:(lia)) as (H1 & H2 & H3).
        split; [lia|]. split; [|exact H3].
        intros i Hi. destruct (Z.eq_dec i start) as [->|Hne]; [exact Hsp|].
        apply H2. lia.
      * apply Ascii.eqb_neq in Hsp.
        split; [lia|]. split; [intros; lia | intros _; exact Hsp].
    + apply Z.ltb_ge in Hlt. split; [lia|]. split; intros; lia.
Qed.

(** A bare comma at [p]: a comma of the parameter list with nothing but
    spaces between it and the delimiter before it, [q], which is the
    opening parenthesis or the previous comma. *)
Definition bare_comma (name : string) (lparen p : Z) : Prop :=
  lparen < p < str.size name - 1
  /\ str.at_ name p = ","%char
  /\ exists q, lparen <= q < p
               /\ (q = lparen \/ str.at_ name q = ","%char)
               /\ forall i, q < i < p -> str.at_ name i = space.

Lemma space_not_comma : space <> ","%char.
Proof. discriminate. Qed.

Lemma parse_args_bare_comma (name : string) (rparen q p : Z) :
  0 <= q < p -> p < rparen -> rparen < str.size name ->
  str.at_ name p = ","%char ->
  (forall i, q < i < p -> str.at_ name i = space) ->
  forall (fuel : nat) (start : Z) (acc : list string),
    0 <= start <= q + 1 ->
    (start = q + 1 \/ str.at_ name q = ","%char) ->
    (Z.to_nat (rparen - start) <= fuel)%nat ->
    exists column,
      parse_args fuel name start rparen acc
      = Throw (expected_other_than_comma name column).
Proof.
  intros Hq Hp Hr Hcomma Hspaces.
  induction fuel as [|fuel IH]; intros start acc Hstart Hdelim Hfuel; [lia|].
  cbn [parse_args].
  rewrite (proj2 (Z.ltb_lt start rparen)) by lia.
  destruct (skip_spaces_spec name rparen (Z.to_nat (rparen - start)) start
              ltac:(lia) ltac:(lia)) as (Hrange & Hsp & Hstop).
  cbn zeta in Hrange, Hsp, Hstop |- *.
  set (s' := skip_spaces (Z.to_nat (rparen - start)) name start rparen) in *.
  clearbody s'.
  assert (Hs'p : s' <= p).
  { destruct (Z_le_gt_dec s' p) as [H|H]; [exact H|].
    specialize (Hsp p ltac:(lia)). rewrite Hcomma in Hsp.
    exfalso. apply space_not_comma. congruence. }
  destruct (Ascii.eqb (str.at_ name s') ",") eqn:Hc; [eexists; reflexivity|].
  apply Ascii.eqb_neq in Hc.
  (* the parameter starts at [s'], before the delimiter [q] *)
  assert (Hs'q : s' < q /\ str.at_ name q = ","%char).
  { destruct Hdelim as [-> | Hqc].
    - exfalso. destruct (Z.eq_dec s' p) as [->|Hne]; [contradiction|].
      apply (Hstop ltac:(lia)). apply Hspaces. lia.
    - split; [|exact Hqc].
      destruct (Z_lt_ge_dec s' q) as [H|H]; [exact H|].
      exfalso. destruct (Z.eq_dec s' q) as [->|Hne]; [contradiction|].
      destruct (Z.eq_dec s' p) as [->|Hne']; [contradiction|].
      apply (Hstop ltac:(lia)). apply Hspaces. lia. }
  destruct Hs'q as [Hs'q Hqc].
  destruct (str.find name "," (s' + 1)) as [comma|] eqn:Hfind.
  - apply find_Some in Hfind as (Hcr & Hcc & Hbefore); [|lia].
    assert (Hcq : comma <= q).
    { destruct (Z_le_gt_dec comma q) as [H|H]; [exact H|].
      exfalso. apply (Hbefore q); [lia | exact Hqc]. }
    apply IH; [lia | | lia].
    destruct (Z.eq_dec comma q) as [->|Hne]; [left; reflexivity | right; exact Hqc].
  - exfalso.
    assert (Hpos : 0 <= s' + 1) by lia.
    apply (find_None name ","%char (s' + 1) Hpos Hfind q); [lia | exact Hqc].
Qed.

(** The loop never runs out of the fuel [define] gives it. *)
Lemma parse_args_total (name : string) (rparen : Z) :
  rparen < str.size name ->
  forall (fuel : nat) (start : Z) (acc : list string),
    0 <= start ->
    (Z.to_nat (rparen - start) <= fuel)%nat ->
    parse_args fuel name start rparen acc <> OutOfFuel.
Proof.
  intros Hr. induction fuel as [|fuel IH]; intros start acc Hstart Hfuel.
  - cbn [parse_args]. rewrite (proj2 (Z.ltb_ge start rparen)) by lia. discriminate.
  - cbn [parse_args]. destruct (start <? rparen) eqn:Hlt; [|discriminate].
    apply Z.ltb_lt in Hlt.
    destruct (skip_spaces_spec name rparen (Z.to_nat (rparen - start)) start
                ltac:(lia) ltac:(lia)) as (Hrange & _).
    cbn zeta in Hrange |- *.
    set (s' := skip_spaces (Z.to_nat (rparen - start)) name start rparen) in *.
    clearbody s'.
    destruct (Ascii.eqb (str.at_ name s') ","); [discriminate|].
    destruct (str.find name "," (s' + 1)) as [comma|] eqn:Hfind.
    + apply find_Some in Hfind as (Hcr & _); [|lia].
      apply IH; lia.
    + apply IH; lia.
Qed.

(** When the loop throws, it stands at a bare comma. *)
Lemma parse_args_throws_bare (name : string) (lparen : Z) :
  0 <= lparen ->
  str.at_ name (str.size name - 1) = ")"%char ->
  forall (fuel : nat) (start : Z) (acc : list string) (e : exception),
    lparen < start ->
    (start = lparen + 1 \/ str.at_ name (start - 1) = ","%char) ->
    parse_args fuel name start (str.size name - 1) acc = Throw e ->
    exists p, bare_comma name lparen p.
Proof.
  intros Hl Hlast. set (rparen := str.size name - 1) in *.
  induction fuel as [|fuel IH]; intros start acc e Hstart Hdelim H;
    cbn [parse_args] in H.
  - destruct (start <? rparen); discriminate H.
  - destruct (start <? rparen) eqn:Hlt; [|discriminate H].
    apply Z.ltb_lt in Hlt.
    destruct (skip_spaces_spec name rparen (Z.to_nat (rparen - start)) start
                ltac:(lia) ltac:(lia)) as (Hrange & Hsp & _).
    cbn zeta in Hrange, Hsp, H.
    set (s' := skip_spaces (Z.to_nat (rparen - start)) name start rparen) in *.
    clearbody s'.
    destruct (Ascii.eqb (str.at_ name s') ",") eqn:Hc.
    + apply Ascii.eqb_eq in Hc.
      assert (Hs' : s' < rparen).
      { destruct (Z.eq_dec s' rparen) as [->|Hne]; [|lia].
        rewrite Hlast in Hc. discriminate Hc. }
      exists s'. split; [subst rparen; lia|]. split; [exact Hc|].
      exists (start - 1). split; [lia|].
      split; [destruct Hdelim as [-> | Hd]; [left; lia | right; exact Hd]|].
      intros i Hi. apply Hsp. lia.
    + destruct (str.find name "," (s' + 1)) as [comma|] eqn:Hfind.
      * apply find_Some in Hfind as (Hcr & Hcc & _); [|lia].
        refine (IH (comma + 1) _ e _ _ H); [lia|].
        right. replace (comma + 1 - 1) with comma by lia. exact Hcc.
      * destruct fuel as [|fuel']; cbn [parse_args] in H;
          rewrite Z.ltb_irrefl in H; discriminate H.
Qed.

Section Signature.

Variable E : LexingEngine.

(** The signatures [define] refuses: the name ends in [')'] and either
    holds no ['('] at all or has a bare comma in its parameter list. *)
Definition malformed (name : string) : Prop :=
  str.empty name = false
  /\ str.at_ name (str.size name - 1) = ")"%char
  /\ (str.find name "(" 0 = None
      \/ exists lparen p, str.find name "(" 0 = Some lparen /\ bare_comma name lparen p).

(** X20. Once the value is tokenized, [define] throws exactly on the
    signatures that end in [')'] and either hold no ['('] at all or have,
    after their first ['('], a comma with nothing but spaces between it
    and that ['('] or the comma before it.  What it throws then is
    [invalid_argument]; the state it leaves is the one tokenizing the
    value left and no macro is added: the macro table is the one [define]
    was given whenever the value is empty or the main input has not been
    entered. *)
Theorem define_malformed_signature :
  forall (fuel : nat) (name value : string) (st : PreprocessorImpl) (toks : list Token),
    fst (tokenize_value E fuel value st) = Return toks ->
    ((exists e, fst (define E fuel name value st) = Throw e) <-> malformed name)
    /\ (malformed name ->
        exists msg,
          fst (define E fuel name value st) = Throw (invalid_argument msg)
          /\ snd (define E fuel name value st) = snd (tokenize_value E fuel value st)
          /\ (str.empty value = true \/ depth (file_change_callback st) = 0 ->
              Macros (getPreprocessor (snd (define E fuel name value st)))
              = Macros (getPreprocessor st))).
Proof.
  intros fuel name value st toks Htok.
  assert (Hmac : str.empty value = true \/ depth (file_change_callback st) = 0 ->
                 Macros (getPreprocessor (snd (tokenize_value E fuel value st)))
                 = Macros (getPreprocessor st)).
  { unfold tokenize_value. destruct (str.empty value); [reflexivity|].
    intros [H|H]; [discriminate H|]. cbn [negb].
    rewrite (tokenize_restores E fuel (Some (c_str value)) (str.size value) st H).
    reflexivity. }
  assert (Hsuff : malformed name ->
            exists msg,
              fst (define E fuel name value st) = Throw (invalid_argument msg)
              /\ snd (define E fuel name value st) = snd (tokenize_value E fuel value st)
              /\ (str.empty value = true \/ depth (file_change_callback st) = 0 ->
                  Macros (getPreprocessor (snd (define E fuel name value st)))
                  = Macros (getPreprocessor st))).
  { intros (Hne & Hlast & Hbad). unfold define.
    destruct (tokenize_value E fuel value st) as [r st1]. cbn [fst snd] in *.
    subst r. rewrite Hne, Hlast. rewrite Ascii.eqb_refl. cbn [negb andb].
    destruct Hbad as [Hnone | (lparen & p & Hfind & Hbare)].
    - rewrite Hnone. eexists. split; [reflexivity|]. split; [reflexivity | exact Hmac].
    - rewrite Hfind.
      apply find_Some in Hfind as (Hl & _); [|lia].
      destruct Hbare as (Hp & Hcomma & q & Hq & Hdelim & Hspaces).
      destruct (parse_args_bare_comma name (str.size name - 1) q p
                  ltac:(lia) ltac:(lia) ltac:(lia) Hcomma Hspaces
                  (String.length name) (lparen + 1) [])
        as [column Hthrow].
      + lia.
      + destruct Hdelim as [-> | Hc]; [left; reflexivity | right; exact Hc].
      + unfold str.size. lia.
      + rewrite Hthrow. eexists. split; [reflexivity|].
        split; [reflexivity | exact Hmac]. }
  split; [|exact Hsuff].
  split.
  - intros [e He]. unfold define in He.
    destruct (tokenize_value E fuel value st) as [r st1]. cbn [fst] in Htok. subst r.
    unfold malformed.
    destruct (str.empty name) eqn:Hne; cbn [negb andb] in He.
    { exfalso. exact (add_macro_definition_returns _ _ _ _ _ _ He). }
    destruct (Ascii.eqb (str.at_ name (str.size name - 1)) ")") eqn:Hlast;
      [|exfalso; exact (add_macro_definition_returns _ _ _ _ _ _ He)].
    apply Ascii.eqb_eq in Hlast.
    split; [reflexivity|]. split; [exact Hlast|].
    destruct (str.find name "(" 0) as [lparen|] eqn:Hfind; [|left; reflexivity].
    right. exists lparen.
    destruct (parse_args (String.length name) name (lparen + 1) (str.size name - 1) [])
      as [arg_names|e'|] eqn:Hparse.
    + exfalso. exact (add_macro_definition_returns _ _ _ _ _ _ He).
    + apply find_Some in Hfind as (Hl & _); [|lia].
      assert (H0 : 0 <= lparen) by lia.
      assert (H1 : lparen < lparen + 1) by lia.
      destruct (parse_args_throws_bare name lparen H0 Hlast (String.length name)
                  (lparen + 1) [] e' H1 (or_introl eq_refl) Hparse) as [p Hp].
      exists p. split; [reflexivity | exact Hp].
    + discriminate He.
  - intros Hbad. destruct (Hsuff Hbad) as (msg & He & _). eexists. exact He.
Qed.

(** C9.  An unmatched [')'] is let through.  In ["F(a))"] the final [')']
    has no ['('] of its own, and yet [define] does not throw: for every
    engine and state it hands the name ["F"] and the parameter ["a)"] to the
    macro table builder, and where no macro [F] exists it returns [true]
    and leaves a function-like macro [F] with the parameter ["a)"] in the
    table. *)
Theorem define_unmatched_rparen :
  forall (fuel : nat) (st : PreprocessorImpl),
    let r := define E fuel "F(a))" EmptyString st in
    str.at_ "F(a))" (str.size "F(a))" - 1) = ")"%char
    /\ r = add_macro_definition "F" [] ["a)"] true st
    /\ (forall e, fst r <> Throw e)
    /\ (getMacroInfo (getPreprocessor st) "F" = None ->
        fst r = Return true
        /\ exists m, getMacroInfo (getPreprocessor (snd r)) "F" = Some m
                     /\ IsFunctionLike m = true
                     /\ ArgumentList m = [Some "a)"]).
Proof.
  intros fuel st r.
  assert (Hr : r = add_macro_definition "F" [] ["a)"] true st) by reflexivity.
  split; [reflexivity|]. split; [exact Hr|].
  split.
  { intros e. rewrite Hr. apply add_macro_definition_returns. }
  intros Hnone. rewrite Hr.
  unfold add_macro_definition, getIdentifierInfo. rewrite Hnone. cbn [fst snd].
  split; [reflexivity|].
  eexists. split; [unfold getMacroInfo; cbn; apply lookup_insert_eq|].
  split; reflexivity.
Qed.

End Signature.

Lemma define_malformed_signature_witness :
  exists msg,
    fst (define Toy.engine 5 "F(a, ,b)" "x y" Toy.st0) = Throw (invalid_argument msg)
    /\ Macros (getPreprocessor (snd (define Toy.engine 5 "F(a, ,b)" "x y" Toy.st0)))
       = Macros (getPreprocessor Toy.st0).
Proof.
  assert (Hbare : bare_comma "F(a, ,b)" 1 5).
  { split; [vm_compute; split; reflexivity|]. split; [reflexivity|].
    exists 3. split; [lia|]. split; [right; reflexivity|].
    intros i Hi. assert (i = 4) as -> by lia. reflexivity. }
  destruct (define_malformed_signature Toy.engine 5 "F(a, ,b)" "x y" Toy.st0
              [Toy.ident "x" 1 1; Toy.ident "y" 1 3])
    as (_ & Hthrow).
  - vm_compute. reflexivity.
  - destruct Hthrow as (msg & Hmsg & _ & Hmac).
    + split; [reflexivity|]. split; [reflexivity|].
      right. exists 1, 5. split; [reflexivity | exact Hbare].
    + exists msg. split; [exact Hmsg|]. apply Hmac. right. reflexivity.
Defined.

Example define_rejects :
  fst (define Toy.engine 5 "F)" EmptyString Toy.st0) = Throw no_matching_lparen
  /\ fst (define Toy.engine 5 "F(,a)" EmptyString Toy.st0)
     = Throw (invalid_argument
                "Expected character other than ',' in string 'F(,a)', column: 2")
  /\ fst (define Toy.engine 5 "F(a,,b)" EmptyString Toy.st0)
     = Throw (invalid_argument
                "Expected character other than ',' in string 'F(a,,b)', column: 4").
Proof. vm_compute. repeat split; reflexivity. Qed.

Example define_variadic :
  (ArgumentList <$>
     getMacroInfo (getPreprocessor (snd (define Toy.engine 5 "LOG(fmt, ...)" "fmt" Toy.st0)))
       "LOG")
  = Some [Some "fmt"; Some "__VA_ARGS__"].
Proof. vm_compute. reflexivity. Qed.

(** Signatures the parser lets through: a trailing comma and a parameter
    of spaces only. *)
Example define_accepts :
  (ArgumentList <$>
     getMacroInfo (getPreprocessor (snd (define Toy.engine 5 "F(a,)" EmptyString Toy.st0))) "F")
  = Some [Some "a"]
  /\ (ArgumentList <$>
        getMacroInfo (getPreprocessor (snd (define Toy.engine 5 "F(a, )" EmptyString Toy.st0))) "F")
     = Some [Some "a"; Some EmptyString].
Proof. vm_compute. split; reflexivity. Qed.

(** ** The constructor *)

(** A new [PreprocessorImpl] has the deferral primitive [_CMONSTER_PRAGMA]
    among its predefines and the capture pragma, [cmonster_pragma], among
    its handlers; the mailbox is empty and no file has been entered. *)
Lemma PreprocessorImpl_new_capture (E : LexingEngine) (sm : SourceManager) :
  let st := PreprocessorImpl_new E sm in
  Predefines (getPreprocessor st)
  = Predefines (createPreprocessor E sm)
    +:+ "#define _CMONSTER_PRAGMA(...) _Pragma(#__VA_ARGS__)"
  /\ PragmaHandlers (getPreprocessor st)
     = (EmptyString, TokenSaver) :: PragmaHandlers (createPreprocessor E sm)
  /\ getName TokenSaver = "cmonster_pragma"
  /\ Macros (getPreprocessor st) = Macros (createPreprocessor E sm)
  /\ tokens (token_saver st) = []
  /\ depth (file_change_callback st) = 0.
Proof. repeat split. Qed.

(** ** The handlers and the tokenizer on the reference engine *)

Definition pending (l : list clang_Token) : LexerEntry :=
  TokenStream {| Tokens := l; DisableMacroExpansion := false; OwnsTokens := false |}.

Definition handler_F : DynamicPragmaHandler :=
  {| dyn_name := "F"; m_function := Toy.twice |}.

(** The state in which the handler of ["F"] fires: [a b] in the mailbox,
    a stray token and the [eod] of the directive pending, then the rest of
    the input. *)
Definition firing_state : PreprocessorImpl :=
  Toy.set_stack
    (set_tokens Toy.st0 [Toy.ident "a" 1 1; Toy.ident "b" 1 3])
    [pending [getToken (Toy.ident "stray" 1 9); Toy.eod_token;
              getToken (Toy.ident "rest" 2 1)]].

Lemma Dynamic_HandlePragma_fires_witness :
  fst (Dynamic_HandlePragma Toy.engine 3 handler_F firing_state) = Return tt
  /\ IncludeMacroStack
       (getPreprocessor (snd (Dynamic_HandlePragma Toy.engine 3 handler_F firing_state)))
     = [ TokenStream
           {| Tokens := [ getToken (Toy.ident "a" 1 1);
                          setFlag (getToken (Toy.ident "b" 1 3)) Flag.LeadingSpace;
                          setFlag (getToken (Toy.ident "a" 1 1)) Flag.LeadingSpace;
                          setFlag (getToken (Toy.ident "b" 1 3)) Flag.LeadingSpace ];
              DisableMacroExpansion := false; OwnsTokens := true |};
         pending [getToken (Toy.ident "rest" 2 1)] ].
Proof.
  assert (Hbefore : forall i, (i < 1)%nat ->
                      Kind (lexed Toy.engine i firing_state) <> tok.eod).
  { intros i Hi. assert (i = 0%nat) as -> by lia. vm_compute. discriminate. }
  assert (Hat : Kind (lexed Toy.engine 1 firing_state) = tok.eod).
  { vm_compute. reflexivity. }
  assert (Hcall : m_function handler_F
                    (tokens (token_saver (after_lex Toy.engine 2 firing_state)))
                  = Return [Toy.ident "a" 1 1; Toy.ident "b" 1 3;
                            Toy.ident "a" 1 1; Toy.ident "b" 1 3]).
  { vm_compute. reflexivity. }
  destruct (Dynamic_HandlePragma_fires Toy.engine handler_F firing_state 1 3
              [Toy.ident "a" 1 1; Toy.ident "b" 1 3; Toy.ident "a" 1 1; Toy.ident "b" 1 3]
              Hbefore Hat ltac:(lia) Hcall)
    as (Hret & _ & Hsplice & _).
  split; [exact Hret|].
  destruct (Hsplice ltac:(discriminate)) as [_ Hstack].
  rewrite Hstack. vm_compute. reflexivity.
Defined.

(** Capture, then dispatch: the saver stores the tokens of its directive
    in the mailbox, and the handler that fires next passes them on. *)
Example capture_then_dispatch :
  let st :=
    Toy.set_stack Toy.st0
      [pending [getToken (Toy.ident "a" 1 1); getToken (Toy.ident "b" 1 3);
                Toy.eod_token; Toy.eod_token; getToken (Toy.ident "rest" 2 1)]] in
  let st1 := snd (TokenSaver_HandlePragma Toy.engine 5 st) in
  tokens (token_saver st1) = [Toy.ident "a" 1 1; Toy.ident "b" 1 3]
  /\ snd (Dynamic_HandlePragma Toy.engine 5 handler_F st1)
     = snd (Dynamic_HandlePragma Toy.engine 3 handler_F firing_state).
Proof. vm_compute. split; reflexivity. Qed.

(** ** [tokenize] on an engine with clang's token cache *)

Section CachedLookAhead.

Variable L : LexingEngine.

(** The lexer below the cache leaves an empty cache empty. *)
Definition below_cache : Prop :=
  forall st, CachedTokens (getPreprocessor st) = [] ->
             CachedTokens (getPreprocessor (snd (Lex L st))) = [].

Lemma set_CachedTokens_same st l :
  CachedTokens (getPreprocessor st) = l -> set_CachedTokens st l = st.
Proof.
  destruct st as [[pp sm] ts cb]. destruct pp. cbn. intros <-. reflexivity.
Qed.

(** One turn of the loop on an empty cache: the first [LookAhead(0)]
    lexes a token with [Lex] and caches it, the second finds it in the
    cache, and [LexUnexpandedToken] takes it from there. *)
Lemma cached_turn st :
  below_cache ->
  CachedTokens (getPreprocessor st) = [] ->
  let t := fst (Lex L st) in
  let st1 := set_CachedTokens (snd (Lex L st)) [t] in
  LookAhead (with_cache L) 0 st = (t, st1)
  /\ LookAhead (with_cache L) 0 st1 = (t, st1)
  /\ LexUnexpandedToken (with_cache L) st1 = (t, snd (Lex L st)).
Proof.
  intros Hbelow Hempty t st1. subst t st1.
  pose proof (Hbelow st Hempty) as Hafter.
  cbn [LookAhead LexUnexpandedToken with_cache].
  unfold cached_LookAhead, CachingLex. rewrite Hempty.
  change ([] !! Z.to_nat 0) with (@None clang_Token).
  change (Z.to_nat 0 + 1 - length (@nil clang_Token))%nat with 1%nat.
  cbn [PeekAhead].
  destruct (Lex L st) as [t st'] eqn:HL. cbn [fst snd] in *.
  rewrite Hafter. cbn [app].
  change (CachedTokens (getPreprocessor (set_CachedTokens st' [t]))) with [t].
  change ([t] !! Z.to_nat 0) with (Some t).
  split; [reflexivity|]. split; [reflexivity|].
  change (set_CachedTokens (set_CachedTokens st' [t]) []) with (set_CachedTokens st' []).
  rewrite (set_CachedTokens_same st' [] Hafter). reflexivity.
Qed.

Lemma cached_tokenize_lexes st :
  below_cache ->
  CachedTokens (getPreprocessor st) = [] ->
  tokenize_lexes (with_cache L) st = Lex L st.
Proof.
  intros Hbelow Hempty. unfold tokenize_lexes.
  destruct (cached_turn st Hbelow Hempty) as (H1 & H2 & H3).
  cbn zeta in H1, H2, H3. rewrite H1. cbn [snd]. rewrite H2. cbn [snd].
  rewrite H3. destruct (Lex L st). reflexivity.
Qed.

Lemma cached_tokenize_continues fid st :
  below_cache ->
  CachedTokens (getPreprocessor st) = [] ->
  tokenize_continues (with_cache L) fid st
  = isNot (fst (Lex L st)) tok.eof
    && bool_decide (getFileID L (getSourceManager (snd (Lex L st)))
                      (getLocation (fst (Lex L st))) = fid).
Proof.
  intros Hbelow Hempty. unfold tokenize_continues.
  destruct (cached_turn st Hbelow Hempty) as (H1 & H2 & _).
  cbn zeta in H1, H2. rewrite H1, H2. reflexivity.
Qed.

Lemma cached_tokenize_state (Hbelow : below_cache) (n : nat) : forall st,
  CachedTokens (getPreprocessor st) = [] ->
  tokenize_state (with_cache L) n st = after_lex L n st
  /\ CachedTokens (getPreprocessor (after_lex L n st)) = [].
Proof.
  induction n as [|n IH]; intros st Hempty; [split; [reflexivity | exact Hempty]|].
  cbn [tokenize_state after_lex].
  rewrite (cached_tokenize_lexes st Hbelow Hempty).
  apply IH. apply Hbelow. exact Hempty.
Qed.

(** The turn [i] of the loop goes on: the [i]-th token of [Lex] is not
    the end of input and comes from the file [fid]. *)
Definition lexes_on (fid : FileID) (st : PreprocessorImpl) (i : nat) : bool :=
  isNot (lexed L i st) tok.eof
  && bool_decide (getFileID L (getSourceManager (after_lex L (S i) st))
                    (getLocation (lexed L i st)) = fid).

Lemma cached_continues_lexes_on (Hbelow : below_cache) fid st i :
  CachedTokens (getPreprocessor st) = [] ->
  tokenize_continues (with_cache L) fid (tokenize_state (with_cache L) i st)
  = lexes_on fid st i.
Proof.
  intros Hempty.
  destruct (cached_tokenize_state Hbelow i st Hempty) as [Hs He].
  rewrite Hs, (cached_tokenize_continues fid _ Hbelow He).
  unfold lexes_on, lexed. rewrite (after_lex_S L i). reflexivity.
Qed.

(** X19. With clang's token cache every token that [tokenize] returns has
    been lexed by [Lex], the lexer that expands macros: the lookahead of
    a turn lexes the token and caches it, and the [LexUnexpandedToken] of
    the turn finds it in the cache.  When the buffer was entered on an
    empty cache and the first token of [Lex] that is the end of input or
    comes from another file is its [n+1]-th, the result is the [n] first
    tokens of [Lex]; the unexpanding lexer of [L] has no part in it. *)
Theorem tokenize_lexes_expanded :
  forall (fuel : nat) (s : char_ptr) (len : Z) (st : PreprocessorImpl) (n : nat),
    below_cache ->
    wrap64 len <> 0 ->
    let fresh := fst (fst (fst (fst (tokenize_enter L s (wrap64 len) st)))) in
    let fid := snd (fst (fst (tokenize_enter L s (wrap64 len) st))) in
    let old_depth := snd (fst (tokenize_enter L s (wrap64 len) st)) in
    let st1 := snd (tokenize_enter L s (wrap64 len) st) in
    fresh = true \/ old_depth < depth (file_change_callback st1) ->
    CachedTokens (getPreprocessor st1) = [] ->
    (forall i, (i < n)%nat -> lexes_on fid st1 i = true) ->
    lexes_on fid st1 n = false ->
    (n < fuel)%nat ->
    fst (tokenize (with_cache L) fuel (Some s) len st)
    = Return (map (fun i => mkToken (lexed L i st1)) (seq 0 n)).
Proof.
  intros fuel s len st n Hbelow Hlen fresh fid old_depth st1 Hentered Hempty Hgo Hstop Hfuel.
  destruct (tokenize_collects (with_cache L) fuel s len st n) as (_ & _ & _ & H).
  cbn zeta in H.
  change (tokenize_enter (with_cache L) s (wrap64 len) st)
    with (tokenize_enter L s (wrap64 len) st) in H.
  fold fresh fid old_depth st1 in H.
  rewrite H; [| exact Hlen | exact Hentered | | | exact Hfuel].
  - f_equal. apply map_ext_in. intros i _.
    unfold tokenize_token.
    destruct (cached_tokenize_state Hbelow i st1 Hempty) as [Hs He].
    rewrite Hs, (cached_tokenize_lexes _ Hbelow He). reflexivity.
  - intros i Hi. rewrite (cached_continues_lexes_on Hbelow fid st1 i Hempty).
    exact (Hgo i Hi).
  - rewrite (cached_continues_lexes_on Hbelow fid st1 n Hempty). exact Hstop.
Qed.

End CachedLookAhead.

(** ** [tokenize] on a macro name *)

Lemma Toy_expanding_below_cache : below_cache Toy.expanding.
Proof.
  intros st Hempty. cbn [Lex Toy.expanding]. unfold Toy.lex_expanding.
  assert (Hlex : forall s, CachedTokens (getPreprocessor (snd (Toy.lex s)))
                           = CachedTokens (getPreprocessor s)).
  { intros s. unfold Toy.lex.
    destruct (IncludeMacroStack (getPreprocessor s)) as [|[fid ptr|tl] rest];
      [reflexivity| |].
    - destruct (str.empty _); reflexivity.
    - destruct (Tokens tl); reflexivity. }
  pose proof (Hlex st) as H1.
  destruct (Toy.lex st) as [t st1]. cbn [snd] in H1.
  destruct (IdentInfo t) as [name|]; [|cbn [snd]; congruence].
  destruct (getMacroInfo (getPreprocessor st1) name) as [m|]; [|cbn [snd]; congruence].
  destruct (IsFunctionLike m); [cbn [snd]; congruence|].
  rewrite Hlex. cbn. congruence.
Qed.

(** The macro [N] defined as [one], then the main input entered: the
    state in which the callback of a dynamic macro runs. *)
Definition macro_N_defined : PreprocessorImpl :=
  snd (define Toy.cached 5 "N" "one"
         (PreprocessorImpl_new Toy.cached {| MemBuffers := [] |})).

Definition main_entered : PreprocessorImpl :=
  let '(fid, sm) :=
    createFileIDForMemBuffer "main.c" "x" (getSourceManager macro_N_defined) in
  EnterSourceFile Toy.cached fid (set_SourceMgr macro_N_defined sm).

Definition identifier_at (name : string) (fid col : Z) : clang_Token :=
  {| Kind := tok.identifier; Flags := 0; Loc := Toy.loc fid 1 col;
     Text := name; IdentInfo := Some name |}.

(** C6.  [tokenize] does not return a macro name as a plain identifier.
    With [N] defined as [one] and the main input entered, [tokenize("N", 1)]
    on the engine with clang's token cache returns no token at all: the
    first [LookAhead(0)] has lexed [N] with the expanding lexer and cached
    the first token of its expansion, [one]; that token comes from another
    source unit, so the loop stops, and [one] stays cached in front of the
    pending input.  [LexUnexpandedToken], had it reached the lexer, would
    have returned the identifier [N].  In [a N b] the result stops before
    the macro name. *)
Theorem tokenize_expands_macro_name :
  let st1 := snd (tokenize_enter Toy.cached (c_str "N") 1 main_entered) in
  let r := tokenize Toy.cached 5 (Some (c_str "N")) 1 main_entered in
  is_Some (getMacroInfo (getPreprocessor main_entered) "N")
  /\ depth (file_change_callback main_entered) = 1
  /\ fst (LexUnexpandedToken Toy.expanding st1) = identifier_at "N" 3 1
  /\ fst r = Return []
  /\ fst r <> Return [mkToken (identifier_at "N" 3 1)]
  /\ CachedTokens (getPreprocessor (snd r)) = [identifier_at "one" 1 1]
  /\ fst (tokenize Toy.cached 5 (Some (c_str "a N b")) 5 main_entered)
     = Return [mkToken (identifier_at "a" 3 1)].
Proof.
  intros st1 r.
  split; [eexists; vm_compute; reflexivity|].
  split; [vm_compute; reflexivity|].
  split; [vm_compute; reflexivity|].
  assert (Hr : fst r = Return []) by (vm_compute; reflexivity).
  split; [exact Hr|].
  split; [rewrite Hr; discriminate|].
  split; vm_compute; reflexivity.
Qed.

Lemma tokenize_lexes_expanded_witness :
  fst (tokenize Toy.cached 5 (Some (c_str "a N b")) 5 main_entered)
  = Return [mkToken (lexed Toy.expanding 0
                       (snd (tokenize_enter Toy.expanding (c_str "a N b") 5 main_entered)))]
  /\ Text (lexed Toy.expanding 1
             (snd (tokenize_enter Toy.expanding (c_str "a N b") 5 main_entered)))
     = "one".
Proof.
  split; [|vm_compute; reflexivity].
  apply (tokenize_lexes_expanded Toy.expanding 5 (c_str "a N b") 5 main_entered 1
           Toy_expanding_below_cache).
  - vm_compute. discriminate.
  - right. vm_compute. reflexivity.
  - vm_compute. reflexivity.
  - intros i Hi. assert (i = 0%nat) as -> by lia. vm_compute. reflexivity.
  - vm_compute. reflexivity.
  - lia.
Defined.

(** * Further properties of the code *)

(** ** [FileChangePPCallback::FileChanged] *)

(** X1. Entering a file and leaving it again brings the depth back, for every
    depth an [unsigned int] can hold (the increment wraps at [2^32 - 1] and
    the decrement wraps back); the location is the one of the last call;
    any other reason leaves the depth alone. *)
Theorem FileChanged_enter_exit :
  forall (cb : FileChangePPCallback) (L1 L2 : SourceLocation) (r : FileChangeReason),
    0 <= depth cb < 2 ^ 32 ->
    depth (FileChanged (FileChanged cb L1 EnterFile) L2 ExitFile) = depth cb
    /\ depth (FileChanged (FileChanged cb L1 ExitFile) L2 EnterFile) = depth cb
    /\ location (FileChanged (FileChanged cb L1 EnterFile) L2 ExitFile) = L2
    /\ (r <> EnterFile -> r <> ExitFile -> depth (FileChanged cb L1 r) = depth cb).
Proof.
  intros cb L1 L2 r Hd. unfold FileChanged, wrap32. cbn [depth location].
  split.
  { rewrite Zminus_mod_idemp_l. replace (depth cb + 1 - 1) with (depth cb) by lia.
    apply Z.mod_small. exact Hd. }
  split.
  { rewrite Zplus_mod_idemp_l. replace (depth cb - 1 + 1) with (depth cb) by lia.
    apply Z.mod_small. exact Hd. }
  split; [reflexivity|].
  intros H1 H2. destruct r; [contradiction | contradiction | reflexivity | reflexivity].
Qed.

Lemma FileChanged_enter_exit_witness :
  let cb := {| depth := 2 ^ 32 - 1; location := SourceLocation_new |} in
  depth (FileChanged cb (Toy.loc 1 1 1) EnterFile) = 0
  /\ depth (FileChanged (FileChanged cb (Toy.loc 1 1 1) EnterFile) (Toy.loc 1 2 1) ExitFile)
     = 2 ^ 32 - 1.
Proof.
  intros cb. split; [reflexivity|].
  apply (FileChanged_enter_exit cb (Toy.loc 1 1 1) (Toy.loc 1 2 1) EnterFile).
  subst cb. cbn [depth]. lia.
Defined.

(** ** [Preprocessor::next] *)

Section RawNext.

Variable E : LexingEngine.

(** [Preprocessor::next(expand)]: one token, expanded or not. *)
Definition Preprocessor_next (expand : bool) (st : PreprocessorImpl)
  : Token * PreprocessorImpl :=
  let '(tok, st) := if expand then Lex E st else LexUnexpandedToken E st in
  (mkToken tok, st).

(** [n] calls of [next(expand)]. *)
Fixpoint Preprocessor_nexts (expand : bool) (n : nat) (st : PreprocessorImpl)
  : list Token * PreprocessorImpl :=
  match n with
  | O => ([], st)
  | S k =>
      let '(t, st) := Preprocessor_next expand st in
      let '(ts, st) := Preprocessor_nexts expand k st in
      (t :: ts, st)
  end.

Lemma Preprocessor_nexts_lexed (n : nat) : forall st,
  Preprocessor_nexts true n st
  = (map (fun i => mkToken (lexed E i st)) (seq 0 n), after_lex E n st).
Proof.
  induction n as [|n IH]; intros st; [reflexivity|].
  cbn [Preprocessor_nexts]. unfold Preprocessor_next.
  destruct (Lex E st) as [t st1] eqn:HL.
  rewrite IH. cbn [seq map after_lex].
  rewrite <- seq_shift, map_map. unfold lexed at 2. cbn [after_lex].
  rewrite HL. cbn [fst snd]. f_equal. f_equal.
  apply map_ext. intros i. unfold lexed. cbn [after_lex]. rewrite HL. reflexivity.
Qed.

(** X2. The iterator is a view of [next(true)] that runs one token ahead: the
    [n] first tokens it returns are the [n] first tokens that [next(true)]
    returns once the main file is entered, and the engine is left where
    [n + 1] such calls leave it. *)
Theorem iterator_agrees_with_next :
  forall (st : PreprocessorImpl) (n : nat),
    let s0 := EnterMainSourceFile E st in
    let it0 := fst (create_iterator E st) in
    let st0 := snd (create_iterator E st) in
    fst (fst (nexts E n it0 st0)) = fst (Preprocessor_nexts true n s0)
    /\ snd (nexts E n it0 st0) = snd (Preprocessor_nexts true (S n) s0)
    /\ mkToken (m_next (snd (fst (nexts E n it0 st0))))
       = fst (Preprocessor_next true (snd (Preprocessor_nexts true n s0))).
Proof.
  intros st n s0 it0 st0.
  assert (Hc : create_iterator E st
               = ({| m_current := mkToken startToken; m_next := fst (Lex E s0) |},
                  snd (Lex E s0))).
  { unfold create_iterator, TokenIteratorImpl_new. fold s0.
    destruct (Lex E s0). reflexivity. }
  subst it0 st0. rewrite Hc. cbn [fst snd].
  assert (Hpos : at_position E s0 0
                   {| m_current := mkToken startToken; m_next := fst (Lex E s0) |}
                   (snd (Lex E s0))).
  { split; reflexivity. }
  pose proof (nexts_from_position E s0 n 0 _ _ Hpos) as H.
  rewrite !Preprocessor_nexts_lexed. cbn [fst snd].
  destruct (nexts E n _ (snd (Lex E s0))) as [[ts it'] st'].
  destruct H as [Hts [Hn Hs]]. cbn [fst snd] in *.
  split.
  { apply (f_equal (map mkToken)) in Hts. rewrite !map_map in Hts.
    rewrite <- Hts. clear. induction ts as [|[t] ts IH]; [reflexivity|].
    cbn [map]. rewrite <- IH. reflexivity. }
  split; [exact Hs|].
  unfold Preprocessor_next. rewrite Hn. unfold lexed.
  change (0 + n)%nat with n.
  destruct (Lex E (after_lex E n s0)). reflexivity.
Qed.

End RawNext.


(** ** The capture pragma and its hand-over *)

Section Capture.

Variable E : LexingEngine.

(** The engine neither reads nor writes the mailbox: lexing commutes with
    an assignment to [TokenSaverPragmaHandler::tokens].  (Within one
    directive no handler fires, so this is the situation of both
    [HandlePragma] loops.) *)
Definition mailbox_independent : Prop :=
  forall (st : PreprocessorImpl) (l : list Token),
    Lex E (set_tokens st l) = (fst (Lex E st), set_tokens (snd (Lex E st)) l).

Lemma after_lex_set_tokens (Hind : mailbox_independent) (n : nat) : forall st l,
  after_lex E n (set_tokens st l) = set_tokens (after_lex E n st) l.
Proof.
  induction n as [|n IH]; intros st l; [reflexivity|].
  cbn [after_lex]. rewrite Hind. cbn [snd]. apply IH.
Qed.

Lemma lexed_set_tokens (Hind : mailbox_independent) (n : nat) st l :
  lexed E n (set_tokens st l) = lexed E n st.
Proof.
  unfold lexed. rewrite (after_lex_set_tokens Hind), Hind. reflexivity.
Qed.

Lemma after_lex_add (a : nat) : forall (b : nat) st,
  after_lex E (a + b) st = after_lex E b (after_lex E a st).
Proof.
  induction a as [|a IH]; intros b st; [reflexivity|].
  cbn [Nat.add after_lex]. apply IH.
Qed.



(** While the [k] first tokens after [st] are lexed, the engine neither
    reads nor writes the mailbox: each of these calls of [Lex] commutes
    with an assignment to [TokenSaverPragmaHandler::tokens].  (The tokens
    of a directive are such: no handler fires while a handler reads its
    own directive.) *)
Definition mailbox_untouched (st : PreprocessorImpl) (k : nat) : Prop :=
  forall (i : nat) (l : list Token), (i < k)%nat ->
    Lex E (set_tokens (after_lex E i st) l)
    = (lexed E i st, set_tokens (after_lex E (S i) st) l).

Lemma mailbox_untouched_after (a b : nat) st :
  mailbox_untouched st (a + b) -> mailbox_untouched (after_lex E a st) b.
Proof.
  intros H i l Hi. unfold lexed.
  rewrite <- !after_lex_add. replace (a + S i)%nat with (S (a + i)) by lia.
  apply H. lia.
Qed.

Lemma after_lex_untouched (n : nat) : forall st l,
  mailbox_untouched st n ->
  after_lex E n (set_tokens st l) = set_tokens (after_lex E n st) l.
Proof.
  induction n as [|n IH]; intros st l H; [reflexivity|].
  rewrite !after_lex_S, IH.
  - rewrite (H n l ltac:(lia)). cbn [snd]. rewrite after_lex_S. reflexivity.
  - intros i l' Hi. apply H. lia.
Qed.

Lemma lexed_untouched (n : nat) st l :
  mailbox_untouched st (S n) ->
  lexed E n (set_tokens st l) = lexed E n st.
Proof.
  intros H. unfold lexed. rewrite after_lex_untouched.
  - rewrite (H n l ltac:(lia)). reflexivity.
  - intros i l' Hi. apply H. lia.
Qed.

Lemma save_directive_untouched (n : nat) : forall st l fuel,
  mailbox_untouched st (S n) ->
  (forall i, (i < n)%nat -> Kind (lexed E i st) <> tok.eod) ->
  Kind (lexed E n st) = tok.eod ->
  (n < fuel)%nat ->
  save_directive E fuel (set_tokens st l)
  = Some (set_tokens (after_lex E (S n) st)
            (l ++ map (fun i => mkToken (lexed E i st)) (seq 0 n))).
Proof.
  induction n as [|n IH]; intros st l fuel Hun Hbefore Hat Hfuel;
    (destruct fuel as [|fuel]; [lia|]); cbn [save_directive];
    pose proof (Hun 0%nat l ltac:(lia)) as H0; cbn [after_lex] in H0; rewrite H0.
  - unfold isNot, is_. rewrite (bool_decide_eq_true_2 _ Hat). cbn [negb].
    cbn [seq map]. rewrite app_nil_r. reflexivity.
  - assert (Hk := Hbefore 0%nat ltac:(lia)).
    unfold isNot, is_. rewrite (bool_decide_eq_false_2 _ Hk). cbn [negb].
    change (tokens (token_saver (set_tokens (snd (Lex E st)) l))) with l.
    change (set_tokens (set_tokens (snd (Lex E st)) l) (l ++ [mkToken (lexed E 0 st)]))
      with (set_tokens (snd (Lex E st)) (l ++ [mkToken (lexed E 0 st)])).
    rewrite (IH (snd (Lex E st)) (l ++ [mkToken (lexed E 0 st)]) fuel); [| | | |lia].
    + cbn [seq map after_lex]. rewrite <- seq_shift, map_map, <- app_assoc.
      reflexivity.
    + exact (mailbox_untouched_after 1 (S n) st Hun).
    + intros i Hi. exact (Hbefore (S i) ltac:(lia)).
    + exact Hat.
Qed.

(** X4. Capture, then dispatch.  The capture pragma runs on a directive of
    [n] tokens and the handler of a dynamic macro runs next, on a
    directive of [m] tokens; while these two directives are lexed the
    engine neither reads nor writes the mailbox.  Then the callback is
    called on exactly the [n] captured tokens, and what it returns is what
    is entered at the front of the pending input. *)
Theorem capture_then_dispatch_hands_over :
  forall (h : DynamicPragmaHandler) (st : PreprocessorImpl) (n m fuel : nat)
         (result : list Token),
    mailbox_untouched st (S n + S m) ->
    (forall i, (i < n)%nat -> Kind (lexed E i st) <> tok.eod) ->
    Kind (lexed E n st) = tok.eod ->
    (forall j, (j < m)%nat -> Kind (lexed E (S n + j) st) <> tok.eod) ->
    Kind (lexed E (S n + m) st) = tok.eod ->
    (n < fuel)%nat -> (m < fuel)%nat ->
    let captured := map (fun i => mkToken (lexed E i st)) (seq 0 n) in
    m_function h captured = Return result ->
    let st1 := snd (TokenSaver_HandlePragma E fuel st) in
    let st2 := set_tokens (after_lex E (S n + S m) st) captured in
    Dynamic_HandlePragma E fuel h st1
    = (Return tt,
       if bool_decide (result = []) then st2
       else set_PP st2
              (EnterTokenStream (getPreprocessor st2)
                 (leading_space_after_first result)
                 (Z.of_nat (length result)) false true)).
Proof.
  intros h st n m fuel result Hun Hb1 Ha1 Hb2 Ha2 Hf1 Hf2 captured Hcall st1 st2.
  assert (Hun1 : mailbox_untouched st (S n)).
  { intros i l Hi. apply Hun. lia. }
  pose proof (mailbox_untouched_after (S n) (S m) st Hun) as Hun2.
  subst st1. unfold TokenSaver_HandlePragma.
  rewrite (save_directive_untouched n st [] fuel Hun1 Hb1 Ha1 Hf1). cbn [snd app].
  fold captured. unfold Dynamic_HandlePragma.
  assert (Hlex : forall j, (j <= m)%nat ->
                   lexed E j (set_tokens (after_lex E (S n) st) captured)
                   = lexed E (S n + j) st).
  { intros j Hj. rewrite lexed_untouched.
    - unfold lexed. rewrite after_lex_add. reflexivity.
    - intros i l Hi. apply Hun2. lia. }
  rewrite (discard_directive_eod E m _ fuel); [| | |exact Hf2].
  - rewrite (after_lex_untouched (S m) _ _ Hun2), <- after_lex_add. fold st2.
    change (tokens (token_saver st2)) with captured. rewrite Hcall.
    destruct result as [|x xs]; [reflexivity|].
    rewrite bool_decide_eq_false_2 by discriminate. cbn [negb].
    rewrite result_tokens_spec. reflexivity.
  - intros j Hj. rewrite Hlex by lia. exact (Hb2 j Hj).
  - rewrite Hlex by lia. exact Ha2.
Qed.

(** X5. A callback that throws: the handler has read its directive, the
    exception goes on to the caller, and nothing is entered into the
    pending input. *)
Theorem Dynamic_HandlePragma_callback_throws :
  forall (h : DynamicPragmaHandler) (st : PreprocessorImpl) (n fuel : nat)
         (e : exception),
    (forall i, (i < n)%nat -> Kind (lexed E i st) <> tok.eod) ->
    Kind (lexed E n st) = tok.eod ->
    (n < fuel)%nat ->
    m_function h (tokens (token_saver (after_lex E (S n) st))) = Throw e ->
    Dynamic_HandlePragma E fuel h st = (Throw e, after_lex E (S n) st).
Proof.
  intros h st n fuel e Hbefore Hat Hfuel Hcall. unfold Dynamic_HandlePragma.
  rewrite (discard_directive_eod E n st fuel Hbefore Hat Hfuel), Hcall.
  reflexivity.
Qed.

(** X6. Tokens that have been through the splice once come out of a second
    splice unchanged: setting the leading-space flag again changes
    nothing, so a callback may return what an earlier expansion entered. *)
Theorem result_tokens_idempotent :
  forall result : list Token,
    result_tokens (mkToken <$> result_tokens result) = result_tokens result
    /\ length (result_tokens result) = length result.
Proof.
  intros result. rewrite !result_tokens_spec.
  destruct result as [|x xs]; [split; reflexivity|].
  cbn [leading_space_after_first fmap list_fmap getToken].
  split; [|cbn [length]; rewrite length_map; reflexivity].
  f_equal. change (list_fmap clang_Token Token mkToken) with (map mkToken).
  rewrite !map_map. apply map_ext. intros t.
  cbn [getToken]. unfold setFlag. cbn [Kind Flags Loc Text IdentInfo].
  f_equal. rewrite <- Z.lor_assoc. rewrite Z.lor_diag. reflexivity.
Qed.

End Capture.

Lemma Toy_mailbox_independent : mailbox_independent Toy.engine.
Proof.
  intros st l. cbn [Lex Toy.engine]. unfold Toy.lex.
  change (getPreprocessor (set_tokens st l)) with (getPreprocessor st).
  change (getSourceManager (set_tokens st l)) with (getSourceManager st).
  destruct (IncludeMacroStack (getPreprocessor st)) as [|[fid ptr|tl] rest];
    [reflexivity| |].
  - destruct (str.empty _); reflexivity.
  - destruct (Tokens tl); reflexivity.
Qed.

(** A state with an old capture in the mailbox and, pending, the
    directive of the capture pragma, the directive of the handler and the
    rest of the input. *)
Definition capturing_state : PreprocessorImpl :=
  Toy.set_stack
    (set_tokens Toy.st0 [Toy.ident "old" 9 9])
    [pending [getToken (Toy.ident "a" 1 1); getToken (Toy.ident "b" 1 3);
              Toy.eod_token; Toy.eod_token; getToken (Toy.ident "rest" 2 1)]].

Lemma capturing_state_directive :
  (forall i, (i < 2)%nat -> Kind (lexed Toy.engine i capturing_state) <> tok.eod)
  /\ Kind (lexed Toy.engine 2 capturing_state) = tok.eod
  /\ (forall j, (j < 0)%nat -> Kind (lexed Toy.engine (3 + j) capturing_state) <> tok.eod)
  /\ Kind (lexed Toy.engine (3 + 0) capturing_state) = tok.eod.
Proof.
  split.
  { intros i Hi. destruct i as [|[|i]]; [vm_compute; discriminate.. | lia]. }
  split; [vm_compute; reflexivity|].
  split; [intros j Hj; lia | vm_compute; reflexivity].
Qed.


Lemma capture_then_dispatch_hands_over_witness :
  IncludeMacroStack
    (getPreprocessor
       (snd (Dynamic_HandlePragma Toy.engine 5 handler_F
               (snd (TokenSaver_HandlePragma Toy.engine 5 capturing_state)))))
  = [ TokenStream
        {| Tokens := [ getToken (Toy.ident "a" 1 1);
                       setFlag (getToken (Toy.ident "b" 1 3)) Flag.LeadingSpace;
                       setFlag (getToken (Toy.ident "a" 1 1)) Flag.LeadingSpace;
                       setFlag (getToken (Toy.ident "b" 1 3)) Flag.LeadingSpace ];
           DisableMacroExpansion := false; OwnsTokens := true |};
      pending [getToken (Toy.ident "rest" 2 1)] ].
Proof.
  destruct capturing_state_directive as (Hb1 & Ha1 & Hb2 & Ha2).
  assert (Hcall : m_function handler_F
                    (map (fun i => mkToken (lexed Toy.engine i capturing_state)) (seq 0 2))
                  = Return [Toy.ident "a" 1 1; Toy.ident "b" 1 3;
                            Toy.ident "a" 1 1; Toy.ident "b" 1 3]).
  { vm_compute. reflexivity. }
  assert (Hun : mailbox_untouched Toy.engine capturing_state (3 + 1)).
  { intros i l _. rewrite Toy_mailbox_independent, after_lex_S. reflexivity. }
  rewrite (capture_then_dispatch_hands_over Toy.engine handler_F capturing_state 2 0 5
             _ Hun Hb1 Ha1 Hb2 Ha2 ltac:(lia) ltac:(lia) Hcall).
  vm_compute. reflexivity.
Defined.

Definition handler_failing : DynamicPragmaHandler :=
  {| dyn_name := "G";
     m_function := fun _ => Throw (other_exception "callback failed") |}.

Lemma Dynamic_HandlePragma_callback_throws_witness :
  Dynamic_HandlePragma Toy.engine 3 handler_failing firing_state
  = (Throw (other_exception "callback failed"), after_lex Toy.engine 2 firing_state)
  /\ IncludeMacroStack (getPreprocessor (after_lex Toy.engine 2 firing_state))
     = [pending [getToken (Toy.ident "rest" 2 1)]].
Proof.
  split; [|vm_compute; reflexivity].
  apply (Dynamic_HandlePragma_callback_throws Toy.engine handler_failing firing_state 1 3).
  - intros i Hi. assert (i = 0%nat) as -> by lia. vm_compute. discriminate.
  - vm_compute. reflexivity.
  - lia.
  - reflexivity.
Defined.


(** ** The macro table under repeated definitions *)

Lemma same_token_refl (first : bool) (A : clang_Token) : same_token first A A = true.
Proof.
  unfold same_token. rewrite bool_decide_eq_true_2 by reflexivity.
  rewrite !Bool.eqb_reflx, orb_true_r. cbn [andb].
  destruct (IdentInfo A); [apply bool_decide_eq_true_2; reflexivity | apply String.eqb_refl].
Qed.

Lemma same_body_refl (l : list clang_Token) : forall first, same_body first l l = true.
Proof.
  induction l as [|A l IH]; intros first; [reflexivity|].
  cbn [same_body]. rewrite same_token_refl, IH. reflexivity.
Qed.

Lemma isIdenticalTo_refl (m : MacroInfo) : isIdenticalTo m m = true.
Proof.
  unfold isIdenticalTo. rewrite !Bool.eqb_reflx, same_body_refl.
  rewrite bool_decide_eq_true_2 by reflexivity. reflexivity.
Qed.

(** The descriptor does not depend on the preprocessor it is built in. *)
Lemma new_macro_any_pp pp1 pp2 value_tokens args is_function :
  new_macro pp1 value_tokens args is_function = new_macro pp2 value_tokens args is_function.
Proof. reflexivity. Qed.

(** X7. Idempotent redefinition: defining the same macro a second time
    returns [true] again and leaves the state exactly as the first
    definition left it. *)
Theorem add_macro_definition_idempotent :
  forall name value_tokens args is_function st,
    getMacroInfo (getPreprocessor st) name = None ->
    let st1 := snd (add_macro_definition name value_tokens args is_function st) in
    fst (add_macro_definition name value_tokens args is_function st) = Return true
    /\ add_macro_definition name value_tokens args is_function st1 = (Return true, st1).
Proof.
  intros name value_tokens args is_function st Hnone st1. subst st1.
  set (m := new_macro (getPreprocessor st) value_tokens args is_function).
  assert (Heq : add_macro_definition name value_tokens args is_function st
                = (Return true, set_PP st (setMacroInfo (getPreprocessor st) name m))).
  { unfold add_macro_definition, getIdentifierInfo. rewrite Hnone. reflexivity. }
  rewrite Heq. cbn [fst snd]. split; [reflexivity|].
  unfold add_macro_definition, getIdentifierInfo.
  assert (Hl : getMacroInfo
                 (getPreprocessor (set_PP st (setMacroInfo (getPreprocessor st) name m)))
                 name = Some m).
  { unfold getMacroInfo. cbn. apply lookup_insert_eq. }
  rewrite Hl.
  rewrite (new_macro_any_pp _ (getPreprocessor st)). fold m.
  rewrite isIdenticalTo_refl. reflexivity.
Qed.

Lemma add_macro_definition_idempotent_witness :
  let st1 := snd (add_macro_definition "N" [Toy.number "1" 1 1] [] false Toy.st0) in
  add_macro_definition "N" [Toy.number "1" 1 1] [] false st1 = (Return true, st1).
Proof.
  apply (add_macro_definition_idempotent "N" [Toy.number "1" 1 1] [] false Toy.st0).
  reflexivity.
Defined.

Lemma add_macro_function_fst name function st :
  fst (add_macro_function name function st)
  = match function with
    | None => Return false
    | Some _ =>
        match getMacroInfo (getPreprocessor st) name with
        | Some _ => Throw (runtime_error "Macro already defined")
        | None => Return true
        end
    end.
Proof.
  destruct function as [f|]; [|reflexivity].
  destruct (getMacroInfo (getPreprocessor st) name) as [m|] eqn:Hm.
  - rewrite (add_macro_function_conflict name f st m Hm). reflexivity.
  - destruct (add_macro_function_fresh name f st Hm) as (m & pp & Heq & _).
    rewrite Heq. reflexivity.
Qed.

Lemma add_macro_definition_fst name value_tokens args is_function st :
  fst (add_macro_definition name value_tokens args is_function st)
  = match getMacroInfo (getPreprocessor st) name with
    | Some existing =>
        Return (isIdenticalTo
                  (new_macro (getPreprocessor st) value_tokens args is_function) existing)
    | None => Return true
    end.
Proof.
  unfold add_macro_definition, getIdentifierInfo.
  destruct (getMacroInfo (getPreprocessor st) name); reflexivity.
Qed.

(** X8. Definitions are local to their name: whatever [define] on the macro
    table builder or [defineDynamic] returns or throws, the entry of every
    other name is the one it was, and the mailbox and the file-change
    callback are untouched. *)
Theorem definitions_are_local :
  forall name name' value_tokens args is_function function st,
    name' <> name ->
    let st1 := snd (add_macro_definition name value_tokens args is_function st) in
    let st2 := snd (defineDynamic name function st) in
    getMacroInfo (getPreprocessor st1) name' = getMacroInfo (getPreprocessor st) name'
    /\ PragmaHandlers (getPreprocessor st1) = PragmaHandlers (getPreprocessor st)
    /\ token_saver st1 = token_saver st
    /\ file_change_callback st1 = file_change_callback st
    /\ getMacroInfo (getPreprocessor st2) name' = getMacroInfo (getPreprocessor st) name'
    /\ token_saver st2 = token_saver st
    /\ file_change_callback st2 = file_change_callback st.
Proof.
  intros name name' value_tokens args is_function function st Hne st1 st2.
  subst st1 st2.
  assert (H1 : let st1 := snd (add_macro_definition name value_tokens args is_function st) in
               getMacroInfo (getPreprocessor st1) name'
               = getMacroInfo (getPreprocessor st) name'
               /\ PragmaHandlers (getPreprocessor st1) = PragmaHandlers (getPreprocessor st)
               /\ token_saver st1 = token_saver st
               /\ file_change_callback st1 = file_change_callback st).
  { unfold add_macro_definition, getIdentifierInfo.
    destruct (getMacroInfo (getPreprocessor st) name); cbn [snd]; [repeat split|].
    split; [|repeat split].
    unfold getMacroInfo. cbn. apply lookup_insert_ne. congruence. }
  destruct H1 as (Ha & Hb & Hc & Hd).
  repeat (split; [assumption|]).
  unfold defineDynamic.
  destruct function as [f|]; [|repeat split].
  destruct (getMacroInfo (getPreprocessor st) name) as [m|] eqn:Hm.
  - rewrite (add_macro_function_conflict name f st m Hm). repeat split.
  - destruct (add_macro_function_fresh name f st Hm) as (m & pp & Heq & HM & _).
    rewrite Heq. cbn [snd]. split; [|repeat split].
    unfold getMacroInfo. cbn. rewrite lookup_insert_ne by congruence.
    rewrite HM. reflexivity.
Qed.

Lemma definitions_are_local_witness :
  let st1 := snd (add_macro_definition "N" [Toy.number "1" 1 1] [] false Toy.st0) in
  is_Some (getMacroInfo (getPreprocessor st1) "N")
  /\ getMacroInfo (getPreprocessor (snd (defineDynamic "F" (Some Toy.twice) st1))) "N"
     = getMacroInfo (getPreprocessor st1) "N".
Proof.
  intros st1. split; [eexists; vm_compute; reflexivity|].
  apply (definitions_are_local "F" "N" [] [] false (Some Toy.twice) st1).
  discriminate.
Defined.

(** X9. One registration per name.  After [defineDynamic name f] has
    succeeded the handler of [name] in the namespace ["cmonster"] is the
    one of [f], so that a further [defineDynamic name g] registers a name
    that is taken, outside what [AddPragmaHandler] accepts; that second
    registration is all the call changes: it throws, and the macro table
    stays as the first call left it. *)
Theorem defineDynamic_twice :
  forall name f g st st1,
    defineDynamic name (Some f) st = (Return true, st1) ->
    let r := defineDynamic name (Some g) st1 in
    is_Some (getMacroInfo (getPreprocessor st1) name)
    /\ FindHandler (getPreprocessor st1) "cmonster" name
       = Some (Dynamic {| dyn_name := name; m_function := f |})
    /\ ~ registrable (getPreprocessor st1) "cmonster"
          (Dynamic {| dyn_name := name; m_function := g |})
    /\ fst r = Throw (runtime_error "Macro already defined")
    /\ snd r = with_handler name g st1
    /\ Macros (getPreprocessor (snd r)) = Macros (getPreprocessor st1).
Proof.
  intros name f g st st1 H r. subst r. unfold defineDynamic in *.
  destruct (getMacroInfo (getPreprocessor st) name) as [m0|] eqn:Hm.
  { rewrite (add_macro_function_conflict name f st m0 Hm) in H. discriminate H. }
  destruct (add_macro_function_fresh name f st Hm) as (m & pp & Heq & HM & HP & _).
  rewrite Heq in H. injection H as <-.
  assert (Hl : getMacroInfo
                 (getPreprocessor (set_PP (with_handler name f st) (setMacroInfo pp name m)))
                 name = Some m).
  { unfold getMacroInfo. cbn. apply lookup_insert_eq. }
  assert (Hf : FindHandler
                 (getPreprocessor (set_PP (with_handler name f st) (setMacroInfo pp name m)))
                 "cmonster" name
               = Some (Dynamic {| dyn_name := name; m_function := f |})).
  { unfold FindHandler. cbn [getPreprocessor set_PP PP compiler setMacroInfo PragmaHandlers].
    rewrite HP. cbn [with_handler getPreprocessor set_PP PP compiler AddPragmaHandler
                     PragmaHandlers find_handler getName dyn_name].
    rewrite !String.eqb_refl. reflexivity. }
  split; [rewrite Hl; eexists; reflexivity|].
  split; [exact Hf|].
  split.
  { unfold registrable. rewrite bool_decide_eq_false_2 by discriminate.
    cbn [getName dyn_name]. rewrite Hf. intros [_ Hn]. discriminate Hn. }
  rewrite (add_macro_function_conflict name g _ m Hl). cbn [fst snd].
  repeat split.
Qed.

Lemma defineDynamic_twice_witness :
  let st1 := snd (defineDynamic "F" (Some Toy.twice) Toy.st0) in
  FindHandler (getPreprocessor st1) "cmonster" "F" = Some (Dynamic handler_F)
  /\ fst (defineDynamic "F" (Some (fun _ => Return [])) st1)
     = Throw (runtime_error "Macro already defined").
Proof.
  intros st1.
  assert (Hrun : defineDynamic "F" (Some Toy.twice) Toy.st0 = (Return true, st1)).
  { vm_compute. reflexivity. }
  destruct (defineDynamic_twice "F" Toy.twice (fun _ => Return []) Toy.st0 st1 Hrun)
    as (_ & Hf & _ & Ht & _).
  split; [exact Hf | exact Ht].
Defined.

(** X10. [Preprocessor::add_pragma] answers [true] exactly when it is given
    a handler, and without one it does nothing.  With one, its only effect
    is the registration of the handler under [name] in the root
    namespace: the macro table, the mailbox and the file-change callback
    are untouched, and a later [define] on the macro table builder answers
    as before; so does a later [defineDynamic], for a [name] other than
    ["cmonster"].  A handler registered as ["cmonster"] has the name of the
    namespace of the dynamic macros: no registration in that namespace is
    [registrable] after it. *)
Theorem add_pragma_leaves_macros :
  forall name handler st name' value_tokens args is_function function,
    let b := fst (Preprocessor_add_pragma name handler st) in
    let st1 := snd (Preprocessor_add_pragma name handler st) in
    (b = true <-> is_Some handler)
    /\ (handler = None -> st1 = st)
    /\ (forall f, handler = Some f ->
          let h := Dynamic {| dyn_name := name; m_function := f |} in
          st1 = set_PP st (AddPragmaHandler (getPreprocessor st) EmptyString h)
          /\ FindHandler (getPreprocessor st1) EmptyString name = Some h
          /\ (name = "cmonster" ->
              forall h', ~ registrable (getPreprocessor st1) "cmonster" h'))
    /\ Macros (getPreprocessor st1) = Macros (getPreprocessor st)
    /\ token_saver st1 = token_saver st
    /\ file_change_callback st1 = file_change_callback st
    /\ fst (add_macro_definition name' value_tokens args is_function st1)
       = fst (add_macro_definition name' value_tokens args is_function st)
    /\ (name <> "cmonster" ->
        fst (defineDynamic name' function st1) = fst (defineDynamic name' function st)).
Proof.
  intros name handler st name' value_tokens args is_function function b st1.
  subst b st1. unfold Preprocessor_add_pragma, add_pragma.
  destruct handler as [f|]; cbn [fst snd].
  - split; [split; [eexists; reflexivity | reflexivity]|].
    split; [discriminate|].
    split.
    { intros f' Hf'. injection Hf' as <-. cbn zeta.
      set (h := Dynamic {| dyn_name := name; m_function := f |}).
      assert (Hf : FindHandler
                     (getPreprocessor
                        (set_PP st (AddPragmaHandler (getPreprocessor st) EmptyString h)))
                     EmptyString name = Some h).
      { unfold FindHandler. cbn. rewrite String.eqb_refl. reflexivity. }
      split; [reflexivity|]. split; [exact Hf|].
      intros -> h' Hreg. unfold registrable in Hreg.
      rewrite bool_decide_eq_false_2 in Hreg by discriminate.
      destruct Hreg as [Hroot _]. rewrite Hf in Hroot. discriminate Hroot. }
    split; [reflexivity|]. split; [reflexivity|]. split; [reflexivity|].
    unfold defineDynamic. rewrite !add_macro_definition_fst, !add_macro_function_fst.
    split; [reflexivity | intros _; reflexivity].
  - split; [split; [discriminate | intros [x Hx]; discriminate Hx]|].
    split; [reflexivity|].
    split; [intros f Hf; discriminate Hf|].
    repeat split.
Qed.


(** ** The signature parser on well-formed signatures *)

Lemma size_append (a b : string) : str.size (a +:+ b) = str.size a + str.size b.
Proof.
  unfold str.size. induction a as [|c a IH]; [reflexivity|].
  change (String c a +:+ b) with (String c (a +:+ b)).
  cbn [String.length]. lia.
Qed.

Lemma size_fill (n : nat) (c : ascii) : str.size (str.fill n c) = Z.of_nat n.
Proof.
  unfold str.size. induction n as [|n IH]; [reflexivity|].
  cbn [str.fill String.length]. lia.
Qed.

Lemma get_append (a b : string) : forall i : nat,
  String.get i (a +:+ b)
  = if (i <? String.length a)%nat then String.get i a
    else String.get (i - String.length a) b.
Proof.
  induction a as [|c a IH]; intros i.
  - cbn. rewrite Nat.sub_0_r. reflexivity.
  - change (String c a +:+ b) with (String c (a +:+ b)).
    destruct i as [|i]; [reflexivity|].
    cbn [String.get String.length]. rewrite IH. reflexivity.
Qed.

Lemma at_append (a b : string) (i : Z) :
  0 <= i ->
  str.at_ (a +:+ b) i = if i <? str.size a then str.at_ a i else str.at_ b (i - str.size a).
Proof.
  intros Hi. unfold str.at_, str.size. rewrite get_append.
  destruct (Z.ltb_spec i (Z.of_nat (String.length a))) as [H|H].
  - rewrite (proj2 (Nat.ltb_lt _ _)) by lia. reflexivity.
  - rewrite (proj2 (Nat.ltb_ge _ _)) by lia.
    replace (Z.to_nat (i - Z.of_nat (String.length a)))
      with (Z.to_nat i - String.length a)%nat by lia.
    reflexivity.
Qed.

Lemma at_fill (n : nat) (c : ascii) (i : Z) :
  0 <= i < Z.of_nat n -> str.at_ (str.fill n c) i = c.
Proof.
  intros Hi. unfold str.at_.
  assert (Hg : forall (m k : nat), (k < m)%nat -> String.get k (str.fill m c) = Some c).
  { induction m as [|m IH]; intros k Hk; [lia|].
    destruct k as [|k]; [reflexivity|]. cbn. apply IH. lia. }
  rewrite (Hg n (Z.to_nat i)) by lia. reflexivity.
Qed.

Lemma substring_append_mid (a p b : string) :
  str.substr (a +:+ p +:+ b) (str.size a) (str.size p) = p.
Proof.
  unfold str.substr, str.size. rewrite !Nat2Z.id.
  induction a as [|c a IH].
  - change (EmptyString +:+ p +:+ b) with (p +:+ b). cbn [String.length].
    induction p as [|d p IHp].
    + destruct b; reflexivity.
    + change (String d p +:+ b) with (String d (p +:+ b)).
      cbn [String.length String.substring]. rewrite IHp. reflexivity.
  - change (String c a +:+ p +:+ b) with (String c (a +:+ p +:+ b)).
    cbn [String.length String.substring]. exact IH.
Qed.

Lemma find_first (s : string) (c : ascii) (pos k : Z) :
  0 <= pos <= k -> k < str.size s ->
  str.at_ s k = c ->
  (forall j, pos <= j < k -> str.at_ s j <> c) ->
  str.find s c pos = Some k.
Proof.
  intros Hpos Hk Hc Hbefore.
  destruct (str.find s c pos) as [k'|] eqn:Hf.
  - apply find_Some in Hf as (Hr & Hc' & Hb'); [|lia].
    f_equal. destruct (Z.lt_trichotomy k' k) as [H|[H|H]]; [|exact H|].
    + exfalso. apply (Hbefore k'); [lia | exact Hc'].
    + exfalso. apply (Hb' k); [lia | exact Hc].
  - exfalso. apply (find_None s c pos ltac:(lia) Hf k); [lia | exact Hc].
Qed.

Lemma find_nowhere (s : string) (c : ascii) (pos : Z) :
  0 <= pos ->
  (forall j, pos <= j < str.size s -> str.at_ s j <> c) ->
  str.find s c pos = None.
Proof.
  intros Hpos Hnone.
  destruct (str.find s c pos) as [k|] eqn:Hf; [|reflexivity].
  apply find_Some in Hf as (Hr & Hc & _); [|lia].
  exfalso. apply (Hnone k); [lia | exact Hc].
Qed.

(** [trim_end] stops at the last character that is not a space, or at
    [start]. *)
Lemma trim_end_spec (name : string) (start : Z) : forall (fuel : nat) (end_ : Z),
  (Z.to_nat (end_ - start) <= fuel)%nat ->
  let e := trim_end fuel name end_ start in
  e <= end_
  /\ (start <= end_ -> start <= e)
  /\ (forall i, e < i <= end_ -> str.at_ name i = space)
  /\ (start < e -> str.at_ name e <> space).
Proof.
  induction fuel as [|fuel IH]; intros end_ Hfuel; cbn [trim_end].
  - split; [lia|]. split; [lia|]. split; intros; lia.
  - rewrite Z.gtb_ltb.
    destruct (start <? end_) eqn:Hlt; cbn [andb].
    + apply Z.ltb_lt in Hlt.
      destruct (Ascii.eqb (str.at_ name end_) space) eqn:Hsp.
      * apply Ascii.eqb_eq in Hsp.
        destruct (IH (end_ - 1) ltac:(lia)) as (H1 & H2 & H3 & H4).
        split; [lia|]. split; [intros _; apply H2; lia|].
        split; [|exact H4].
        intros i Hi. destruct (Z.eq_dec i end_) as [->|Hne]; [exact Hsp|].
        apply H3. lia.
      * apply Ascii.eqb_neq in Hsp.
        split; [lia|]. split; [lia|]. split; [intros; lia | intros _; exact Hsp].
    + apply Z.ltb_ge in Hlt. split; [lia|]. split; [lia|]. split; intros; lia.
Qed.

(** One parameter, read off the positions of its characters.  The
    parameter occupies [a .. b]; before it are spaces from [start], after
    it spaces up to [c], which is the next comma or [rparen]. *)
Section OneParameter.

Variables (name : string) (start rparen a b c : Z).
Hypothesis Hstart : 0 <= start <= a.
Hypothesis Hab : a <= b < c.
Hypothesis Hc : c <= rparen.
Hypothesis Hsize : rparen < str.size name < 2 ^ 64.
Hypothesis Hlead : forall i, start <= i < a -> str.at_ name i = space.
Hypothesis Hfirst : str.at_ name a <> space /\ str.at_ name a <> ","%char.
Hypothesis Hinner : forall j, a < j < c -> str.at_ name j <> ","%char.
Hypothesis Htrail : forall i, b < i < c -> str.at_ name i = space.
Hypothesis Hlast : str.at_ name b <> space.

Lemma skip_to_parameter :
  skip_spaces (Z.to_nat (rparen - start)) name start rparen = a.
Proof.
  destruct (skip_spaces_spec name rparen (Z.to_nat (rparen - start)) start
              ltac:(lia) ltac:(lia)) as (Hr & Hsp & Hstop).
  cbn zeta in Hr, Hsp, Hstop.
  set (s' := skip_spaces (Z.to_nat (rparen - start)) name start rparen) in *.
  clearbody s'.
  destruct (Z.lt_trichotomy s' a) as [H|[H|H]]; [|exact H|].
  - exfalso. apply (Hstop ltac:(lia)). apply Hlead. lia.
  - exfalso. apply (proj1 Hfirst). apply Hsp. lia.
Qed.

Lemma trim_to_parameter :
  trim_end (Z.to_nat (c - 1 - a)) name (c - 1) a = b.
Proof.
  destruct (trim_end_spec name a (Z.to_nat (c - 1 - a)) (c - 1) ltac:(lia))
    as (H1 & H2 & H3 & H4).
  cbn zeta in H1, H2, H3, H4.
  set (e := trim_end (Z.to_nat (c - 1 - a)) name (c - 1) a) in *. clearbody e.
  specialize (H2 ltac:(lia)).
  destruct (Z.lt_trichotomy e b) as [H|[H|H]]; [|exact H|].
  - exfalso. apply Hlast. apply H3. lia.
  - exfalso. apply (H4 ltac:(lia)). apply Htrail. lia.
Qed.

Lemma wrap64_length : wrap64 (b - a + 1) = b - a + 1.
Proof. unfold wrap64. apply Z.mod_small. lia. Qed.

(** The last parameter: no comma follows. *)
Lemma parse_args_last (fuel : nat) (acc : list string) :
  c = rparen ->
  (forall j, rparen <= j < str.size name -> str.at_ name j <> ","%char) ->
  parse_args (S fuel) name start rparen acc
  = Return (acc ++ [str.substr name a (b - a + 1)]).
Proof.
  intros Heq Hrest. cbn [parse_args].
  rewrite (proj2 (Z.ltb_lt start rparen)) by lia.
  cbn zeta. rewrite skip_to_parameter.
  rewrite (proj2 (Ascii.eqb_neq _ _) (proj2 Hfirst)).
  rewrite (find_nowhere name "," (a + 1)); [|lia|].
  - pose proof trim_to_parameter as Ht. rewrite Heq in Ht.
    rewrite Ht, wrap64_length.
    destruct fuel; cbn [parse_args]; rewrite Z.ltb_irrefl; reflexivity.
  - intros j Hj. destruct (Z_lt_ge_dec j rparen) as [H|H].
    + apply Hinner. lia.
    + apply Hrest. lia.
Qed.

(** A parameter that a comma follows. *)
Lemma parse_args_comma (fuel : nat) (acc : list string) :
  c < rparen ->
  str.at_ name c = ","%char ->
  parse_args (S fuel) name start rparen acc
  = parse_args fuel name (c + 1) rparen (acc ++ [str.substr name a (b - a + 1)]).
Proof.
  intros Hlt Hcomma. cbn [parse_args].
  rewrite (proj2 (Z.ltb_lt start rparen)) by lia.
  cbn zeta. rewrite skip_to_parameter.
  rewrite (proj2 (Ascii.eqb_neq _ _) (proj2 Hfirst)).
  rewrite (find_first name "," (a + 1) c); [|lia|lia|exact Hcomma|].
  - rewrite trim_to_parameter, wrap64_length. reflexivity.
  - intros j Hj. apply Hinner. lia.
Qed.

End OneParameter.


(** A parameter as it is written in a signature: spaces, the name,
    spaces. *)
Definition padded (seg : nat * string * nat) : string :=
  str.fill (fst (fst seg)) space +:+ snd (fst seg) +:+ str.fill (snd seg) space.

(** The text between the parentheses: the parameters, a comma between
    two of them. *)
Fixpoint join_params (segs : list (nat * string * nat)) : string :=
  match segs with
  | [] => EmptyString
  | seg :: rest =>
      match rest with
      | [] => padded seg
      | _ :: _ => padded seg +:+ "," +:+ join_params rest
      end
  end.

(** No character of [s] is [c]. *)
Fixpoint lacks (c : ascii) (s : string) : bool :=
  match s with
  | EmptyString => true
  | String d s' => negb (Ascii.eqb d c) && lacks c s'
  end.

(** A parameter name: not empty, no comma in it, no space at either end. *)
Definition parameter_name (p : string) : bool :=
  negb (str.empty p) && lacks "," p
  && negb (Ascii.eqb (str.at_ p 0) space)
  && negb (Ascii.eqb (str.at_ p (str.size p - 1)) space).

Lemma lacks_at (c : ascii) (p : string) :
  lacks c p = true -> forall i, 0 <= i < str.size p -> str.at_ p i <> c.
Proof.
  unfold str.at_, str.size. induction p as [|d p IH]; intros H i Hi.
  - cbn in Hi. lia.
  - cbn [lacks] in H. apply andb_true_iff in H as [Hc Hp].
    apply negb_true_iff, Ascii.eqb_neq in Hc.
    destruct (Z.to_nat i) as [|k] eqn:Hk; cbn [String.get]; [exact Hc|].
    specialize (IH Hp (Z.of_nat k)). rewrite Nat2Z.id in IH. apply IH.
    cbn [String.length] in Hi. lia.
Qed.

Lemma parameter_name_spec (p : string) :
  parameter_name p = true ->
  0 < str.size p
  /\ (forall i, 0 <= i < str.size p -> str.at_ p i <> ","%char)
  /\ str.at_ p 0 <> space
  /\ str.at_ p (str.size p - 1) <> space.
Proof.
  unfold parameter_name. rewrite !andb_true_iff, !negb_true_iff.
  intros [[[He Hn] Hf] Hl].
  split. { unfold str.empty in He. apply Z.eqb_neq in He. pose proof (size_nonneg p). lia. }
  split; [apply lacks_at; exact Hn|].
  split; apply Ascii.eqb_neq; assumption.
Qed.

Lemma size_singleton (c : ascii) : str.size (String c EmptyString) = 1.
Proof. reflexivity. Qed.

Ltac at_name :=
  repeat first
    [ rewrite at_append by lia
    | progress rewrite ?size_append, ?size_fill, ?size_singleton
    | match goal with
      | |- context [?x <? ?y] => destruct (Z.ltb_spec x y); try lia
      end ].

(** The characters of a signature around one parameter. *)
Lemma padded_characters (pre p tail : string) (l r : nat) :
  let name := pre +:+ (str.fill l space +:+ p +:+ str.fill r space) +:+ tail in
  let a := str.size pre + Z.of_nat l in
  str.size name = a + str.size p + Z.of_nat r + str.size tail
  /\ (forall i, str.size pre <= i < a -> str.at_ name i = space)
  /\ (forall i, 0 <= i < str.size p -> str.at_ name (a + i) = str.at_ p i)
  /\ (forall i, 0 <= i < Z.of_nat r -> str.at_ name (a + str.size p + i) = space)
  /\ (forall i, 0 <= i -> str.at_ name (a + str.size p + Z.of_nat r + i) = str.at_ tail i)
  /\ str.substr name a (str.size p) = p.
Proof.
  intros name a. subst name a.
  pose proof (size_nonneg pre) as Hpre. pose proof (size_nonneg p) as Hp.
  split. { rewrite !size_append, !size_fill. lia. }
  split; [intros i Hi; at_name; apply at_fill; lia|].
  split; [intros i Hi; at_name; f_equal; lia|].
  split; [intros i Hi; at_name; apply at_fill; lia|].
  split; [intros i Hi; at_name; f_equal; lia|].
  assert (Hn : pre +:+ (str.fill l space +:+ p +:+ str.fill r space) +:+ tail
               = (pre +:+ str.fill l space) +:+ p +:+ (str.fill r space +:+ tail)).
  { rewrite !append_assoc. reflexivity. }
  rewrite Hn.
  replace (str.size pre + Z.of_nat l) with (str.size (pre +:+ str.fill l space))
    by (rewrite size_append, size_fill; reflexivity).
  apply substring_append_mid.
Qed.

(** What closes the parameter list: the parenthesis, or a comma and the
    parenthesis. *)
Definition closing (trailing : bool) : string := if trailing then ",)" else ")".

Lemma parse_args_done (name : string) (rparen : Z) (fuel : nat) (acc : list string) :
  parse_args fuel name rparen rparen acc = Return acc.
Proof. destruct fuel; cbn [parse_args]; rewrite Z.ltb_irrefl; reflexivity. Qed.

(** Round trip of the parameter list: the parameters written with a comma
    between two of them, each with any number of spaces around it, are read
    back as they were, without the spaces; a comma after the last one
    changes nothing. *)
Lemma parse_args_join (trailing : bool) (segs : list (nat * string * nat)) :
  forall (pre : string) (acc : list string) (fuel : nat),
    segs <> [] ->
    Forall (fun seg => parameter_name (snd (fst seg)) = true) segs ->
    let name := pre +:+ join_params segs +:+ closing trailing in
    str.size name < 2 ^ 64 ->
    (Z.to_nat (str.size name - 1 - str.size pre) <= fuel)%nat ->
    parse_args fuel name (str.size pre) (str.size name - 1) acc
    = Return (acc ++ map (fun seg => snd (fst seg)) segs).
Proof.
  induction segs as [|[[l p] r] rest IH]; intros pre acc fuel Hne Hgood name Hsize Hfuel;
    [contradiction|].
  apply Forall_cons in Hgood as [Hp Hrest].
  apply parameter_name_spec in Hp as (Hlen & Hnc & Hf & Hl). cbn [fst snd] in *.
  pose proof (size_nonneg pre) as Hpre.
  set (tail := match rest with
               | [] => closing trailing
               | _ :: _ => "," +:+ join_params rest +:+ closing trailing
               end).
  assert (Hname : name = pre +:+ (str.fill l space +:+ p +:+ str.fill r space) +:+ tail).
  { subst name tail. cbn [join_params]. unfold padded. cbn [fst snd].
    destruct rest; rewrite !append_assoc; reflexivity. }
  destruct (padded_characters pre p tail l r) as (Hs & H1 & H2 & H3 & H4 & H5).
  cbn zeta in Hs, H1, H2, H3, H4, H5. rewrite <- Hname in Hs, H1, H2, H3, H4, H5.
  set (a := str.size pre + Z.of_nat l) in *.
  assert (Hparam :
            (forall i, str.size pre <= i < a -> str.at_ name i = space)
            /\ (str.at_ name a <> space /\ str.at_ name a <> ","%char)
            /\ (forall j, a < j < a + str.size p + Z.of_nat r -> str.at_ name j <> ","%char)
            /\ (forall i, a + str.size p - 1 < i < a + str.size p + Z.of_nat r ->
                  str.at_ name i = space)
            /\ str.at_ name (a + str.size p - 1) <> space
            /\ str.substr name a (a + str.size p - 1 - a + 1) = p).
  { split; [exact H1|].
    split.
    { split.
      - replace a with (a + 0) by lia. rewrite H2 by lia. exact Hf.
      - replace a with (a + 0) by lia. rewrite H2 by lia. apply Hnc. lia. }
    split.
    { intros j Hj. destruct (Z_lt_ge_dec j (a + str.size p)) as [H|H].
      - replace j with (a + (j - a)) by lia. rewrite H2 by lia. apply Hnc. lia.
      - replace j with (a + str.size p + (j - a - str.size p)) by lia.
        rewrite H3 by lia. discriminate. }
    split.
    { intros i Hi. replace i with (a + str.size p + (i - a - str.size p)) by lia.
      apply H3. lia. }
    split.
    { replace (a + str.size p - 1) with (a + (str.size p - 1)) by lia.
      rewrite H2 by lia. exact Hl. }
    replace (a + str.size p - 1 - a + 1) with (str.size p) by lia. exact H5. }
  destruct Hparam as (P1 & P2 & P3 & P4 & P5 & P6).
  assert (Hcomma : 2 <= str.size tail -> str.at_ tail 0 = ","%char ->
            forall fuel',
              parse_args (S fuel') name (str.size pre) (str.size name - 1) acc
              = parse_args fuel' name (a + str.size p + Z.of_nat r + 1)
                  (str.size name - 1) (acc ++ [p])).
  { intros Htail Hat fuel'.
    rewrite (parse_args_comma name (str.size pre) (str.size name - 1) a
               (a + str.size p - 1) (a + str.size p + Z.of_nat r)); try lia;
      try assumption.
    - rewrite P6. reflexivity.
    - replace (a + str.size p + Z.of_nat r)
        with (a + str.size p + Z.of_nat r + 0) by lia.
      rewrite H4 by lia. exact Hat. }
  assert (Hclosing : 1 <= str.size (closing trailing)).
  { destruct trailing; cbn [closing];
      [change (str.size ",)") with 2 | change (str.size ")") with 1]; lia. }
  assert (Htail1 : 1 <= str.size tail).
  { subst tail. destruct rest as [|s2 rest2]; [exact Hclosing|].
    rewrite !size_append, size_singleton.
    pose proof (size_nonneg (join_params (s2 :: rest2))). lia. }
  destruct fuel as [|fuel]; [lia|].
  destruct rest as [|seg2 rest'].
  - destruct trailing; subst tail; cbn [closing] in *.
    + (* a comma after the last parameter *)
      change (str.size ",)") with 2 in Hs.
      rewrite Hcomma; [|change (str.size ",)") with 2; lia | reflexivity].
      replace (a + str.size p + Z.of_nat r + 1) with (str.size name - 1) by lia.
      rewrite parse_args_done. reflexivity.
    + change (str.size ")") with 1 in Hs.
      rewrite (parse_args_last name (str.size pre) (str.size name - 1) a
                 (a + str.size p - 1) (a + str.size p + Z.of_nat r)); try lia;
        try assumption.
      * rewrite P6. reflexivity.
      * intros j Hj. assert (j = a + str.size p + Z.of_nat r + 0) as -> by lia.
        rewrite H4 by lia. discriminate.
  - assert (Hnext : name = (pre +:+ padded (l, p, r) +:+ ",")
                           +:+ join_params (seg2 :: rest') +:+ closing trailing).
    { rewrite Hname. subst tail. unfold padded. cbn [fst snd].
      rewrite !append_assoc. reflexivity. }
    assert (Htail : 2 <= str.size tail).
    { subst tail. rewrite !size_append. rewrite size_singleton.
      pose proof (size_nonneg (join_params (seg2 :: rest'))).
      destruct trailing; cbn [closing];
        [change (str.size ",)") with 2 | change (str.size ")") with 1]; lia. }
    rewrite Hcomma; [|exact Htail | reflexivity].
    assert (Hstart : a + str.size p + Z.of_nat r + 1
                     = str.size (pre +:+ padded (l, p, r) +:+ ",")).
    { unfold padded. cbn [fst snd]. rewrite !size_append, !size_fill, size_singleton.
      subst a. lia. }
    rewrite Hstart.
    pose proof (IH (pre +:+ padded (l, p, r) +:+ ",") (acc ++ [p]) fuel
                  ltac:(discriminate) Hrest) as IH'.
    cbn zeta in IH'. rewrite <- Hnext in IH'.
    rewrite IH'; [|exact Hsize|rewrite <- Hstart; lia].
    rewrite <- app_assoc. reflexivity.
Qed.


(** The only exception of the parameter loop is the one for a bare
    comma. *)
Lemma parse_args_throws (name : string) (rparen : Z) : forall (fuel : nat) start acc e,
  parse_args fuel name start rparen acc = Throw e ->
  exists column, e = expected_other_than_comma name column.
Proof.
  induction fuel as [|fuel IH]; intros start acc e H; cbn [parse_args] in H.
  - destruct (start <? rparen); discriminate H.
  - destruct (start <? rparen); [|discriminate H]. cbn zeta in H.
    destruct (Ascii.eqb _ ","); [injection H as <-; eexists; reflexivity|].
    destruct (str.find name "," _); exact (IH _ _ _ H).
Qed.

Section FunctionLike.

Variable E : LexingEngine.

(** X11. What [define] can answer: once the value is tokenized, [define]
    returns a boolean or throws [invalid_argument]; the loop over the
    parameters always ends, and no other exception leaves it. *)
Theorem define_returns_or_rejects :
  forall (fuel : nat) (name value : string) (st : PreprocessorImpl) (toks : list Token),
    fst (tokenize_value E fuel value st) = Return toks ->
    (exists b, fst (define E fuel name value st) = Return b)
    \/ (exists msg, fst (define E fuel name value st) = Throw (invalid_argument msg)).
Proof.
  intros fuel name value st toks Htok. unfold define.
  destruct (tokenize_value E fuel value st) as [r st1]. cbn [fst] in Htok. subst r.
  destruct (negb (str.empty name) && Ascii.eqb (str.at_ name (str.size name - 1)) ")").
  - destruct (str.find name "(" 0) as [lparen|] eqn:Hfind;
      [|right; eexists; reflexivity].
    apply find_Some in Hfind as (Hl & _); [|lia].
    destruct (parse_args (String.length name) name (lparen + 1) (str.size name - 1) [])
      as [arg_names|e|] eqn:Hparse.
    + left. rewrite add_macro_definition_fst.
      destruct (getMacroInfo _ _); eexists; reflexivity.
    + right. apply parse_args_throws in Hparse as [column ->]. eexists. reflexivity.
    + exfalso. revert Hparse. apply parse_args_total; [lia | lia | unfold str.size; lia].
  - left. rewrite add_macro_definition_fst.
    destruct (getMacroInfo _ _); eexists; reflexivity.
Qed.

(** The signature of a function-like macro: the name, which holds no
    ['('], and the parameters between the parentheses, with or without a
    comma after the last one. *)
Definition signature (fn : string) (segs : list (nat * string * nat)) (trailing : bool)
  : string :=
  fn +:+ "(" +:+ join_params segs +:+ closing trailing.

Lemma signature_parts (fn : string) (segs : list (nat * string * nat)) (trailing : bool) :
  lacks "(" fn = true ->
  let name := signature fn segs trailing in
  str.empty name = false
  /\ str.at_ name (str.size name - 1) = ")"%char
  /\ str.find name "(" 0 = Some (str.size fn)
  /\ str.substr name 0 (str.size fn) = fn
  /\ name = (fn +:+ "(") +:+ join_params segs +:+ closing trailing
  /\ str.size (fn +:+ "(") = str.size fn + 1.
Proof.
  intros Hfn name. subst name. unfold signature.
  pose proof (size_nonneg fn) as Hf.
  pose proof (size_nonneg (join_params segs)) as Hj.
  assert (Hc : str.size (closing trailing) = (if trailing then 2 else 1)
               /\ str.at_ (closing trailing) (str.size (closing trailing) - 1) = ")"%char).
  { destruct trailing; split; reflexivity. }
  destruct Hc as [Hc1 Hc2].
  assert (Hs : str.size (fn +:+ "(" +:+ join_params segs +:+ closing trailing)
               = str.size fn + 1 + str.size (join_params segs)
                 + str.size (closing trailing)).
  { rewrite !size_append, size_singleton. lia. }
  assert (Hpos : 1 <= str.size (closing trailing)) by (destruct trailing; lia).
  split. { unfold str.empty. apply Z.eqb_neq. lia. }
  split.
  { rewrite Hs. at_name.
    match goal with |- str.at_ _ ?i = _ =>
      replace i with (str.size (closing trailing) - 1) by lia end.
    exact Hc2. }
  split.
  { apply find_first; [lia | lia | |].
    - at_name. rewrite Z.sub_diag. reflexivity.
    - intros j Hj'. at_name. apply lacks_at; [exact Hfn | lia]. }
  split.
  { apply (substring_append_mid EmptyString fn
             ("(" +:+ join_params segs +:+ closing trailing)). }
  split; [rewrite !append_assoc; reflexivity|].
  rewrite size_append. reflexivity.
Qed.

(** X12. [define] on a well-formed signature.  For a name without ['('] and
    parameters that are parameter names, written with a comma between two of
    them and any number of spaces around each, [define] hands the macro
    table builder exactly that name and those parameters, without the
    spaces, as a function-like macro; with no parameter at all, [NAME()], it
    hands over the empty list; and a comma between the last parameter and
    the closing parenthesis is let through: [NAME(a,)] is read as
    [NAME(a)]. *)
Theorem define_function_like :
  forall (fuel : nat) (fn value : string) (segs : list (nat * string * nat))
         (trailing : bool) (st st1 : PreprocessorImpl) (toks : list Token),
    lacks "(" fn = true ->
    Forall (fun seg => parameter_name (snd (fst seg)) = true) segs ->
    (trailing = true -> segs <> []) ->
    str.size (signature fn segs trailing) < 2 ^ 64 ->
    tokenize_value E fuel value st = (Return toks, st1) ->
    define E fuel (signature fn segs trailing) value st
    = add_macro_definition fn toks (map (fun seg => snd (fst seg)) segs) true st1.
Proof.
  intros fuel fn value segs trailing st st1 toks Hfn Hgood Htrail Hsize Htok.
  destruct (signature_parts fn segs trailing Hfn)
    as (Hne & Hlast & Hfind & Hsub & Hname & Hpre).
  cbn zeta in Hne, Hlast, Hfind, Hsub, Hname, Hpre.
  unfold define. rewrite Htok, Hne, Hlast, Hfind, Hsub.
  rewrite Ascii.eqb_refl. cbn [negb andb].
  set (name := signature fn segs trailing) in *.
  assert (Hparse : parse_args (String.length name) name
                     (str.size fn + 1) (str.size name - 1) []
                   = Return (map (fun seg => snd (fst seg)) segs)).
  { destruct segs as [|seg rest].
    - destruct trailing; [exfalso; apply Htrail; reflexivity|].
      assert (Hs : str.size name - 1 = str.size fn + 1).
      { subst name. unfold signature. cbn [join_params closing].
        rewrite !size_append, !size_singleton.
        change (str.size EmptyString) with 0. lia. }
      rewrite Hs. apply parse_args_done.
    - rewrite <- Hpre.
      pose proof (parse_args_join trailing (seg :: rest) (fn +:+ "(") []
                    (String.length name) ltac:(discriminate) Hgood) as H.
      cbn zeta in H. rewrite <- Hname in H.
      apply H; [exact Hsize|]. unfold str.size. lia. }
  rewrite Hparse. reflexivity.
Qed.

End FunctionLike.

Lemma define_returns_or_rejects_witness :
  (exists b, fst (define Toy.engine 5 "F(a, b)" "a b" Toy.st0) = Return b)
  \/ (exists msg, fst (define Toy.engine 5 "F(a, b)" "a b" Toy.st0)
                  = Throw (invalid_argument msg)).
Proof.
  apply (define_returns_or_rejects Toy.engine 5 "F(a, b)" "a b" Toy.st0
           [Toy.ident "a" 1 1; Toy.ident "b" 1 3]).
  vm_compute. reflexivity.
Defined.

Lemma define_function_like_witness :
  define Toy.engine 5 "LOG( fmt ,...)" EmptyString Toy.st0
  = add_macro_definition "LOG" [] ["fmt"; "..."] true Toy.st0
  /\ define Toy.engine 5 "F(a,)" EmptyString Toy.st0
     = add_macro_definition "F" [] ["a"] true Toy.st0.
Proof.
  split.
  - apply (define_function_like Toy.engine 5 "LOG" EmptyString
             [(1%nat, "fmt", 1%nat); (0%nat, "...", 0%nat)] false Toy.st0 Toy.st0 []).
    + reflexivity.
    + repeat constructor.
    + discriminate.
    + vm_compute. reflexivity.
    + reflexivity.
  - apply (define_function_like Toy.engine 5 "F" EmptyString
             [(0%nat, "a", 0%nat)] true Toy.st0 Toy.st0 []).
    + reflexivity.
    + repeat constructor.
    + discriminate.
    + vm_compute. reflexivity.
    + reflexivity.
Defined.


(** ** What [tokenize] and [define] leave alone *)

Section Frame.

Variable E : LexingEngine.

Lemma define_preprocessor_cases (fuel : nat) (name value : string) (st : PreprocessorImpl) :
  depth (file_change_callback st) = 0 ->
  let pp := getPreprocessor st in
  let pp' := getPreprocessor (snd (define E fuel name value st)) in
  pp' = pp \/ exists n m, getMacroInfo pp n = None /\ pp' = setMacroInfo pp n m.
Proof.
  intros Hd pp pp'. subst pp'. unfold define.
  assert (Htok : getPreprocessor (snd (tokenize_value E fuel value st)) = pp).
  { unfold tokenize_value. destruct (negb (str.empty value)); [|reflexivity].
    apply tokenize_restores. exact Hd. }
  destruct (tokenize_value E fuel value st) as [r st1]. cbn [snd] in Htok.
  assert (Hadd : forall n toks args b,
            getPreprocessor (snd (add_macro_definition n toks args b st1)) = pp
            \/ exists n0 m, getMacroInfo pp n0 = None
                            /\ getPreprocessor (snd (add_macro_definition n toks args b st1))
                               = setMacroInfo pp n0 m).
  { intros n toks args b. unfold add_macro_definition, getIdentifierInfo.
    rewrite Htok.
    destruct (getMacroInfo pp n) eqn:Hn; cbn [snd]; [left; exact Htok|].
    right. exists n, (new_macro pp toks args b). split; [exact Hn | reflexivity]. }
  destruct r as [toks|e|]; [|left; exact Htok|left; exact Htok].
  destruct (negb (str.empty name) && _); [|apply Hadd].
  destruct (str.find name "(" 0); [|left; exact Htok].
  destruct (parse_args _ _ _ _ _); [apply Hadd | left; exact Htok | left; exact Htok].
Qed.

(** X13. Before the main input is entered, [tokenize] works on a temporary
    preprocessor: the compiler's own preprocessor, with its macro table,
    handlers and pending input, is after the call exactly what it was
    before; and [define] changes it by at most one macro, added under a
    name that had none: it never overwrites a macro and never touches the
    handlers or the pending input. *)
Theorem define_leaves_preprocessor :
  forall (fuel : nat) (name value : string) (s : option char_ptr) (len : Z)
         (st : PreprocessorImpl),
    depth (file_change_callback st) = 0 ->
    let pp := getPreprocessor st in
    let pp' := getPreprocessor (snd (define E fuel name value st)) in
    getPreprocessor (snd (tokenize E fuel s len st)) = pp
    /\ (pp' = pp
        \/ exists n m, getMacroInfo pp n = None /\ pp' = setMacroInfo pp n m)
    /\ PragmaHandlers pp' = PragmaHandlers pp
    /\ IncludeMacroStack pp' = IncludeMacroStack pp
    /\ (forall n m, getMacroInfo pp n = Some m -> getMacroInfo pp' n = Some m).
Proof.
  intros fuel name value s len st Hd pp pp'.
  split; [apply tokenize_restores; exact Hd|].
  pose proof (define_preprocessor_cases fuel name value st Hd) as Hcases.
  cbn zeta in Hcases. fold pp pp' in Hcases.
  split; [exact Hcases|].
  destruct Hcases as [-> | (n & m & Hn & ->)]; [repeat split; auto|].
  split; [reflexivity|]. split; [reflexivity|].
  intros n' m' Hn'. unfold getMacroInfo in *. cbn.
  rewrite lookup_insert_ne; [exact Hn'|]. intros ->. congruence.
Qed.

(** The capture pragma is in force: the handler of the root namespace
    for the name [cmonster_pragma] is the one of the constructor. *)
Definition capture_registered (st : PreprocessorImpl) : Prop :=
  FindHandler (getPreprocessor st) EmptyString "cmonster_pragma" = Some TokenSaver.

(** X14. The capture pragma stays in force, with one exception.  The
    constructor registers it; [define] on the macro table builder and
    [defineDynamic] keep it, and so do [tokenize] and [define] before the
    main input is entered, and [Preprocessor::add_pragma] for every name
    but its own.  [Preprocessor::add_pragma] under the name
    [cmonster_pragma] is not [registrable], and where it goes through the
    capture pragma is no longer the handler of its name. *)
Theorem capture_pragma_stays :
  forall (sm : SourceManager) (st : PreprocessorImpl) (fuel : nat)
         (name value : string) (s : option char_ptr) (len : Z)
         (toks : list Token) (args : list string) (b : bool)
         (function : option FunctionMacro),
    capture_registered (PreprocessorImpl_new E sm)
    /\ (capture_registered st ->
        capture_registered (snd (add_macro_definition name toks args b st))
        /\ capture_registered (snd (defineDynamic name function st))
        /\ (name <> "cmonster_pragma" ->
            capture_registered (snd (Preprocessor_add_pragma name function st)))
        /\ (forall f,
              let h := Dynamic {| dyn_name := "cmonster_pragma"; m_function := f |} in
              ~ registrable (getPreprocessor st) EmptyString h
              /\ FindHandler
                   (getPreprocessor
                      (snd (Preprocessor_add_pragma "cmonster_pragma" (Some f) st)))
                   EmptyString "cmonster_pragma" = Some h
              /\ ~ capture_registered
                     (snd (Preprocessor_add_pragma "cmonster_pragma" (Some f) st)))
        /\ (depth (file_change_callback st) = 0 ->
            capture_registered (snd (tokenize E fuel s len st))
            /\ capture_registered (snd (define E fuel name value st)))).
Proof.
  intros sm st fuel name value s len toks args b function.
  split; [reflexivity|].
  unfold capture_registered. intros Hreg.
  assert (Hsame : forall pp,
            PragmaHandlers pp = PragmaHandlers (getPreprocessor st) ->
            FindHandler pp EmptyString "cmonster_pragma" = Some TokenSaver).
  { intros pp Hpp. unfold FindHandler in *. rewrite Hpp. exact Hreg. }
  assert (Hns : forall pp h,
            PragmaHandlers pp = ("cmonster", h) :: PragmaHandlers (getPreprocessor st) ->
            FindHandler pp EmptyString "cmonster_pragma" = Some TokenSaver).
  { intros pp h Hpp. unfold FindHandler in *. rewrite Hpp. exact Hreg. }
  split.
  { unfold add_macro_definition, getIdentifierInfo.
    destruct (getMacroInfo _ _); apply Hsame; reflexivity. }
  split.
  { unfold defineDynamic. destruct function as [f|]; [|exact Hreg].
    destruct (getMacroInfo (getPreprocessor st) name) as [m|] eqn:Hm.
    - rewrite (add_macro_function_conflict name f st m Hm).
      eapply Hns. reflexivity.
    - destruct (add_macro_function_fresh name f st Hm) as (m & pp & Heq & _ & HP & _).
      rewrite Heq. eapply Hns. cbn. rewrite HP. reflexivity. }
  split.
  { intros Hname. unfold Preprocessor_add_pragma, add_pragma.
    destruct function as [f|]; [|exact Hreg].
    unfold FindHandler in *. cbn.
    rewrite (proj2 (String.eqb_neq name "cmonster_pragma") Hname). exact Hreg. }
  split.
  { intros f.
    set (h := Dynamic {| dyn_name := "cmonster_pragma"; m_function := f |}).
    assert (Hf : FindHandler
                   (getPreprocessor
                      (snd (Preprocessor_add_pragma "cmonster_pragma" (Some f) st)))
                   EmptyString "cmonster_pragma" = Some h) by reflexivity.
    split.
    { unfold registrable. rewrite bool_decide_eq_true_2 by reflexivity.
      intros Hfree. apply Hfree. left. cbn [getName h dyn_name].
      rewrite Hreg. eexists. reflexivity. }
    split; [exact Hf|].
    rewrite Hf. discriminate. }
  intros Hd. split.
  { apply Hsame. rewrite (tokenize_restores E fuel s len st Hd). reflexivity. }
  apply Hsame.
  destruct (define_preprocessor_cases fuel name value st Hd) as [-> | (n & m & _ & ->)];
    reflexivity.
Qed.

End Frame.

Lemma define_leaves_preprocessor_witness :
  let st1 := snd (define Toy.engine 5 "N" "1" Toy.st0) in
  getPreprocessor (snd (tokenize Toy.engine 5 (Some (c_str "N N")) 3 st1)) = getPreprocessor st1
  /\ PragmaHandlers (getPreprocessor (snd (define Toy.engine 5 "M(x)" "x N" st1)))
     = PragmaHandlers (getPreprocessor st1).
Proof.
  intros st1.
  destruct (define_leaves_preprocessor Toy.engine 5 "M(x)" "x N" (Some (c_str "N N")) 3 st1 eq_refl)
    as (Ht & _ & Hh & _).
  split; [exact Ht | exact Hh].
Defined.


(** ** The layout [format] produces *)

Section Layout.

Variable E : LexingEngine.

(** The loop of [format] from any cursor. *)
Definition format_from (sm : SourceManager) (acc : string * Z * Z) (tokens : list Token)
  : string * Z * Z :=
  foldl (format_step E sm) acc tokens.

Lemma format_loop_from sm out tokens :
  format_loop E sm out tokens = format_from sm (out, 0, 1) tokens.
Proof. reflexivity. Qed.

Definition resolves (sm : SourceManager) (t : Token) : bool :=
  isValid (getPresumedLoc E sm (getLocation (getToken t))).

(** What one token adds does not depend on what is already written. *)
Lemma format_step_appends sm out l c t :
  format_step E sm (out, l, c) t
  = (out +:+ fst (fst (format_step E sm (EmptyString, l, c) t)),
     snd (fst (format_step E sm (EmptyString, l, c) t)),
     snd (format_step E sm (EmptyString, l, c) t)).
Proof.
  unfold format_step.
  destruct (isValid _); [|cbn [fst snd]; rewrite append_nil_r; reflexivity].
  destruct (_ >? l); destruct (l >? 0); cbn beta iota zeta;
    match goal with |- context [?x >? ?y] => destruct (x >? y) end;
    cbn beta iota zeta; cbn [fst snd];
    rewrite ?append_assoc; reflexivity.
Qed.

Lemma format_from_appends sm tokens : forall out l c,
  format_from sm (out, l, c) tokens
  = (out +:+ fst (fst (format_from sm (EmptyString, l, c) tokens)),
     snd (fst (format_from sm (EmptyString, l, c) tokens)),
     snd (format_from sm (EmptyString, l, c) tokens)).
Proof.
  induction tokens as [|t tokens IH]; intros out l c.
  - cbn. rewrite append_nil_r. reflexivity.
  - unfold format_from in *. cbn [foldl].
    rewrite (format_step_appends sm out l c t).
    destruct (format_step E sm (EmptyString, l, c) t) as [[o1 l1] c1]. cbn [fst snd].
    rewrite (IH (out +:+ o1) l1 c1), (IH o1 l1 c1). cbn [fst snd].
    rewrite append_assoc. reflexivity.
Qed.

(** X15. [format] only appends: the text it writes to a stream that already
    holds [out] is [out] followed by the text it writes to an empty stream;
    and formatting two token lists one after the other on the same stream
    never rewrites what the first left. *)
Theorem format_appends :
  forall (st : PreprocessorImpl) (out : string) (tokens more : list Token),
    format E st out tokens = out +:+ format E st EmptyString tokens
    /\ exists rest, format E st out (tokens ++ more) = format E st out tokens +:+ rest.
Proof.
  intros st out tokens more. unfold format. rewrite !format_loop_from.
  split.
  { rewrite (format_from_appends (getSourceManager st) tokens out 0 1). reflexivity. }
  unfold format_from. rewrite foldl_app.
  destruct (foldl (format_step E (getSourceManager st)) (out, 0, 1) tokens) as [[o l] c].
  fold (format_from (getSourceManager st) (o, l, c) more).
  rewrite (format_from_appends (getSourceManager st) more o l c). cbn [fst].
  eexists. reflexivity.
Qed.

(** X16. Tokens whose location does not resolve are invisible to [format]:
    dropping them from the list changes neither the text nor the cursor. *)
Theorem format_skips_unresolved :
  forall (st : PreprocessorImpl) (out : string) (tokens : list Token),
    let sm := getSourceManager st in
    format_loop E sm out (List.filter (resolves sm) tokens) = format_loop E sm out tokens
    /\ format E st out (List.filter (resolves sm) tokens) = format E st out tokens
    /\ (forallb (fun t => negb (resolves sm t)) tokens = true ->
        format E st out tokens = out).
Proof.
  intros st out tokens sm.
  assert (Hgen : forall acc, format_from sm acc (List.filter (resolves sm) tokens)
                             = format_from sm acc tokens).
  { induction tokens as [|t tokens IH]; intros acc; [reflexivity|].
    cbn [List.filter]. unfold format_from in *.
    destruct (resolves sm t) eqn:Hr; cbn [foldl]; [apply IH|].
    rewrite IH. f_equal. destruct acc as [[o l] c].
    unfold format_step. unfold resolves in Hr. rewrite Hr. reflexivity. }
  split; [apply Hgen|]. split; [unfold format; fold sm; rewrite !format_loop_from, Hgen; reflexivity|].
  intros Hall. unfold format. fold sm. rewrite format_loop_from, <- Hgen.
  assert (Hnil : List.filter (resolves sm) tokens = []).
  { clear Hgen. induction tokens as [|t tokens IH]; [reflexivity|].
    cbn [forallb] in Hall. apply andb_true_iff in Hall as [Ht Hrest].
    cbn [List.filter]. apply negb_true_iff in Ht. rewrite Ht. apply IH. exact Hrest. }
  rewrite Hnil. reflexivity.
Qed.

(** Tokens of one line, in the order of their columns and without
    overlap, from column [c] on. *)
Fixpoint in_a_row (sm : SourceManager) (L c : Z) (tokens : list Token) : Prop :=
  match tokens with
  | [] => True
  | t :: rest =>
      let p := getPresumedLoc E sm (getLocation (getToken t)) in
      isValid p = true /\ getLine p = L /\ c <= getColumn p
      /\ getColumn p + str.size (spelling t) < 2 ^ 32
      /\ in_a_row sm L (getColumn p + str.size (spelling t)) rest
  end.

Lemma substr_append_l (o x : string) (pos n : Z) :
  0 <= pos -> 0 <= n -> pos + n <= str.size o ->
  str.substr (o +:+ x) pos n = str.substr o pos n.
Proof.
  unfold str.substr, str.size. intros Hp Hn Hle.
  assert (H : forall (o : string) (i k : nat), (i + k <= String.length o)%nat ->
            String.substring i k (o +:+ x) = String.substring i k o).
  { clear. induction o as [|ch o IH]; intros i k Hik.
    - cbn in Hik. assert (i = 0%nat) as -> by lia. assert (k = 0%nat) as -> by lia.
      destruct x; reflexivity.
    - change (String ch o +:+ x) with (String ch (o +:+ x)).
      destruct i as [|i]; cbn [String.substring].
      + destruct k as [|k]; [reflexivity|]. rewrite (IH 0%nat k); [reflexivity|].
        cbn [String.length] in Hik. lia.
      + apply IH. cbn [String.length] in Hik. lia. }
  apply H. lia.
Qed.

Lemma in_a_row_layout sm (L : Z) (tokens : list Token) : forall o l c,
  0 < L -> l = 0 \/ l = L -> 1 <= c -> str.size o = c - 1 ->
  in_a_row sm L c tokens ->
  let r := format_from sm (o, l, c) tokens in
  (exists x, fst (fst r) = o +:+ x)
  /\ str.size (fst (fst r)) = snd r - 1
  /\ c <= snd r
  /\ (tokens <> [] -> snd (fst r) = L)
  /\ forall (i : nat) t, tokens !! i = Some t ->
       str.substr (fst (fst r))
         (getColumn (getPresumedLoc E sm (getLocation (getToken t))) - 1)
         (str.size (spelling t))
       = spelling t.
Proof.
  induction tokens as [|t tokens IH]; intros o l c HL Hl Hc Hsize Hrow r.
  - subst r. cbn. split; [exists EmptyString; rewrite append_nil_r; reflexivity|].
    split; [exact Hsize|]. split; [lia|]. split; [intros H; contradiction|].
    intros i t H. destruct i; discriminate H.
  - cbn [in_a_row] in Hrow. destruct Hrow as (Hv & Hline & Hcol & Hwrap & Hrest).
    set (p := getPresumedLoc E sm (getLocation (getToken t))) in *.
    pose proof (size_nonneg (spelling t)) as Hlen.
    assert (Hstep : format_step E sm (o, l, c) t
                    = (o +:+ str.fill (Z.to_nat (getColumn p - c)) space +:+ spelling t,
                       L, getColumn p + str.size (spelling t))).
    { unfold format_step. fold p. rewrite Hv, Hline. cbn beta iota zeta.
      assert (Hnl : (if L >? l
                     then let '(out, current_column) :=
                            if l >? 0
                            then (o +:+ str.fill (Z.to_nat (L - l)) newline, 1)
                            else (o, c) in (out, L, current_column)
                     else (o, l, c)) = (o, L, c)).
      { destruct Hl as [-> | ->].
        - rewrite (proj2 (Z.gtb_lt L 0)) by lia. reflexivity.
        - rewrite Z.gtb_ltb, Z.ltb_irrefl. reflexivity. }
      rewrite Hnl. cbn beta iota zeta.
      unfold getLength. fold (spelling t).
      destruct (Z.gtb_spec (getColumn p) c) as [Hgt|Hle]; cbn beta iota zeta;
        unfold wrap32; rewrite Z.mod_small by lia.
      - rewrite append_assoc. reflexivity.
      - assert (getColumn p = c) as Heq by lia. rewrite Heq, Z.sub_diag. reflexivity. }
    subst r. unfold format_from. cbn [foldl]. rewrite Hstep.
    fold (format_from sm
            (o +:+ str.fill (Z.to_nat (getColumn p - c)) space +:+ spelling t,
             L, getColumn p + str.size (spelling t)) tokens).
    set (o1 := o +:+ str.fill (Z.to_nat (getColumn p - c)) space +:+ spelling t).
    assert (Ho1 : str.size o1 = getColumn p + str.size (spelling t) - 1).
    { subst o1. rewrite !size_append, size_fill. lia. }
    destruct (IH o1 L (getColumn p + str.size (spelling t)) HL (or_intror eq_refl)
                ltac:(lia) Ho1 Hrest) as (Hx & Hs & Hmono & Hline' & Hplaced).
    cbn zeta in Hx, Hs, Hmono, Hline', Hplaced.
    set (r := format_from sm (o1, L, getColumn p + str.size (spelling t)) tokens) in *.
    destruct Hx as [x Hx].
    split. { exists (str.fill (Z.to_nat (getColumn p - c)) space +:+ spelling t +:+ x).
             rewrite Hx. subst o1. rewrite !append_assoc. reflexivity. }
    split; [exact Hs|]. split; [lia|].
    split.
    { intros _. destruct tokens as [|t2 tokens']; [reflexivity|].
      apply Hline'. discriminate. }
    intros [|i] t' Ht'.
    + cbn in Ht'. injection Ht' as <-. fold p. rewrite Hx.
      rewrite substr_append_l; [|lia|lia|lia].
      subst o1. rewrite <- append_assoc.
      replace (getColumn p - 1)
        with (str.size (o +:+ str.fill (Z.to_nat (getColumn p - c)) space))
        by (rewrite size_append, size_fill; lia).
      rewrite <- (append_nil_r (spelling t)) at 1.
      apply substring_append_mid.
    + apply (Hplaced i t' Ht').
Qed.

(** X17. Layout of one line.  For tokens that all resolve to the same line, in
    the order of their columns and without overlap, [format] on an empty
    stream puts every token's spelling at its column (the text from offset
    [column - 1] on is the spelling), and the text ends where the cursor
    stands: its length is the cursor's column minus one. *)
Theorem format_one_line :
  forall (st : PreprocessorImpl) (L : Z) (tokens : list Token),
    let sm := getSourceManager st in
    0 < L ->
    in_a_row sm L 1 tokens ->
    let out := format E st EmptyString tokens in
    str.size out = snd (format_loop E sm EmptyString tokens) - 1
    /\ forall (i : nat) t, tokens !! i = Some t ->
         str.substr out
           (getColumn (getPresumedLoc E sm (getLocation (getToken t))) - 1)
           (str.size (spelling t))
         = spelling t.
Proof.
  intros st L tokens sm HL Hrow out. subst out. unfold format. fold sm.
  rewrite format_loop_from.
  destruct (in_a_row_layout sm L tokens EmptyString 0 1 HL (or_introl eq_refl)
              ltac:(lia) eq_refl Hrow) as (_ & Hs & _ & _ & Hplaced).
  split; [exact Hs | exact Hplaced].
Qed.

End Layout.

Lemma format_one_line_witness :
  let tokens := [Toy.ident "int" 3 5; Toy.ident "x" 3 9; Toy.ident "y" 3 10] in
  format Toy.engine Toy.st0 EmptyString tokens = "    int xy"
  /\ str.substr (format Toy.engine Toy.st0 EmptyString tokens) (9 - 1) 1 = "x".
Proof.
  intros tokens. split; [vm_compute; reflexivity|].
  assert (Hrow : in_a_row Toy.engine (getSourceManager Toy.st0) 3 1 tokens).
  { subst tokens. cbn [in_a_row]. vm_compute. repeat split; congruence. }
  destruct (format_one_line Toy.engine Toy.st0 3 tokens ltac:(lia) Hrow) as [_ Hplaced].
  exact (Hplaced 1%nat (Toy.ident "x" 3 9) eq_refl).
Defined.

Lemma format_skips_unresolved_witness :
  let ghost := mkToken (setKind startToken tok.identifier) in
  format Toy.engine Toy.st0 EmptyString [ghost; Toy.ident "a" 1 1; ghost] = "a"
  /\ format Toy.engine Toy.st0 "kept" [ghost; ghost] = "kept".
Proof.
  intros ghost. split; [vm_compute; reflexivity|].
  apply (format_skips_unresolved Toy.engine Toy.st0 "kept" [ghost; ghost]).
  vm_compute. reflexivity.
Defined.


(** ** Line breaks *)

Fixpoint count_char (c : ascii) (s : string) : Z :=
  match s with
  | EmptyString => 0
  | String d s' => (if Ascii.eqb d c then 1 else 0) + count_char c s'
  end.

Lemma count_char_append (c : ascii) (a b : string) :
  count_char c (a +:+ b) = count_char c a + count_char c b.
Proof.
  induction a as [|d a IH]; [reflexivity|].
  change (String d a +:+ b) with (String d (a +:+ b)).
  cbn [count_char]. rewrite IH. lia.
Qed.

Lemma count_char_fill (c d : ascii) (n : nat) :
  count_char c (str.fill n d) = if Ascii.eqb d c then Z.of_nat n else 0.
Proof.
  induction n as [|n IH]; cbn [str.fill count_char].
  - destruct (Ascii.eqb d c); reflexivity.
  - rewrite IH. destruct (Ascii.eqb d c); lia.
Qed.

Lemma count_char_lacks (c : ascii) (s : string) :
  lacks c s = true -> count_char c s = 0.
Proof.
  induction s as [|d s IH]; [reflexivity|]. cbn [lacks count_char].
  intros H. apply andb_true_iff in H as [Hd Hs].
  apply negb_true_iff in Hd. rewrite Hd, (IH Hs). reflexivity.
Qed.

Section LineBreaks.

Variable E : LexingEngine.

(** Tokens [format] can place: the location resolves, to a line from [1]
    on, and the spelling holds no newline. *)
Definition placeable (sm : SourceManager) (t : Token) : bool :=
  resolves E sm t
  && (1 <=? getLine (getPresumedLoc E sm (getLocation (getToken t))))
  && lacks newline (spelling t).

Definition line_of (sm : SourceManager) (t : Token) : Z :=
  getLine (getPresumedLoc E sm (getLocation (getToken t))).

Lemma format_step_line sm o l c t :
  placeable sm t = true ->
  let r := format_step E sm (o, l, c) t in
  snd (fst r) = Z.max l (line_of sm t)
  /\ count_char newline (fst (fst r))
     = count_char newline o + (if 0 <? l then Z.max l (line_of sm t) - l else 0).
Proof.
  unfold placeable, resolves, line_of. rewrite !andb_true_iff.
  intros [[Hv Hl] Hn]. apply Z.leb_le in Hl.
  apply count_char_lacks in Hn. cbn zeta. unfold format_step. rewrite Hv.
  set (line := getLine _) in *. set (column := getColumn _).
  rewrite !Z.gtb_ltb.
  destruct (Z.ltb_spec l line) as [Hlt|Hge];
    destruct (Z.ltb_spec 0 l) as [Hpos|Hzero]; cbn beta iota zeta;
    match goal with |- context [?x >? ?y] => destruct (x >? y) end;
    cbn beta iota zeta; cbn [fst snd];
    rewrite ?count_char_append, ?count_char_fill, ?Hn;
    change (Ascii.eqb newline newline) with true;
    change (Ascii.eqb space newline) with false;
    split; lia.
Qed.

Lemma format_from_lines sm (tokens : list Token) : forall o l c,
  1 <= l ->
  forallb (placeable sm) tokens = true ->
  let r := format_from E sm (o, l, c) tokens in
  snd (fst r) = foldl (fun m t => Z.max m (line_of sm t)) l tokens
  /\ l <= snd (fst r)
  /\ count_char newline (fst (fst r)) = count_char newline o + (snd (fst r) - l).
Proof.
  induction tokens as [|t tokens IH]; intros o l c Hl Hall.
  - cbn. split; [reflexivity|]. split; lia.
  - cbn [forallb] in Hall. apply andb_true_iff in Hall as [Ht Hrest].
    destruct (format_step_line sm o l c t Ht) as [Hline Hcount]. cbn zeta in Hline, Hcount.
    rewrite (proj2 (Z.ltb_lt 0 l)) in Hcount by lia.
    unfold format_from. cbn [foldl].
    destruct (format_step E sm (o, l, c) t) as [[o1 l1] c1]. cbn [fst snd] in Hline, Hcount.
    destruct (IH o1 l1 c1 ltac:(lia) Hrest) as (H1 & H2 & H3).
    cbn zeta in H1, H2, H3. unfold format_from in H1, H2, H3.
    rewrite H1 at 1. rewrite H3, Hcount. subst l1.
    split; [reflexivity|]. split; lia.
Qed.

(** X18. Line breaks.  For a list of placeable tokens that starts with [t],
    the number of newlines [format] writes is the distance from the line of
    [t] to the greatest line of the list: the first token brings none, a
    token of a later line brings as many as the cursor has to go down, and
    a token of an earlier line brings none (the cursor never goes up). *)
Theorem format_line_breaks :
  forall (st : PreprocessorImpl) (t : Token) (tokens : list Token),
    let sm := getSourceManager st in
    forallb (placeable sm) (t :: tokens) = true ->
    let last_line := foldl (fun m t' => Z.max m (line_of sm t')) (line_of sm t) tokens in
    count_char newline (format E st EmptyString (t :: tokens)) = last_line - line_of sm t
    /\ snd (fst (format_loop E sm EmptyString (t :: tokens))) = last_line.
Proof.
  intros st t tokens sm Hall last_line. subst last_line.
  unfold format. fold sm. rewrite format_loop_from.
  cbn [forallb] in Hall. apply andb_true_iff in Hall as [Ht Hrest].
  destruct (format_step_line sm EmptyString 0 1 t Ht) as [Hline Hcount].
  cbn zeta in Hline, Hcount. change (0 <? 0) with false in Hcount.
  cbn [count_char] in Hcount.
  assert (H1 : 1 <= line_of sm t).
  { unfold placeable in Ht. rewrite !andb_true_iff in Ht.
    destruct Ht as [[_ Hl] _]. apply Z.leb_le in Hl. exact Hl. }
  rewrite Z.max_r in Hline by lia.
  unfold format_from. cbn [foldl].
  destruct (format_step E sm (EmptyString, 0, 1) t) as [[o1 l1] c1].
  cbn [fst snd] in Hline, Hcount. subst l1.
  destruct (format_from_lines sm tokens o1 (line_of sm t) c1 H1 Hrest) as (Ha & Hb & Hc).
  cbn zeta in Ha, Hb, Hc. unfold format_from in Ha, Hb, Hc.
  split; [rewrite Hc, Hcount, Ha; lia | exact Ha].
Qed.

End LineBreaks.

Lemma format_line_breaks_witness :
  let tokens := [Toy.ident "b" 4 1; Toy.ident "early" 2 1; Toy.ident "c" 7 3] in
  count_char newline (format Toy.engine Toy.st0 EmptyString (Toy.ident "a" 3 1 :: tokens))
  = 7 - 3.
Proof.
  intros tokens.
  destruct (format_line_breaks Toy.engine Toy.st0 (Toy.ident "a" 3 1) tokens) as [H _].
  - vm_compute. reflexivity.
  - rewrite H. vm_compute. reflexivity.
Defined.

